(** * LifeOS: the local store, the outbox and the sync engine

    A shallow embedding of [src/lib/db.ts], [src/lib/sync-engine.ts] and
    [createExpense] of [src/lib/ai-actions/expenses.ts].

    Conventions.
    - A Dexie table is a finite map from primary keys to rows together with
      the key generator of its [++id] schema.
    - An [async] method is a computation over the [World]: it may change the
      world and either resolves with a value or rejects with an error.
      [await]ed calls are sequenced with stdpp's [x ← m; k] and [m;; k]; [try]/[catch]/[finally] are
      the combinators [try_catch] and [try_finally].
    - The remote backend (the Supabase client) stays abstract: a state [R]
      and a step function telling, for each request, whether the awaited
      call resolves and what the remote state becomes.
    - Local storage requests can be made to reject through the fault plan of
      the world, one flag per request; the empty plan is a healthy store.

    The first part of the file holds the definitions: the data of [db.ts],
    the computations, [SyncEngine], the engine between suspension points,
    [createExpense], and the notions the statements use. The second part
    holds the proofs; the statements about the specification are marked
    with the identifier of the claim, C1 to C10. *)

From Stdlib Require Import ZArith NArith.
From Stdlib Require QArith.
From stdpp Require Import gmap strings list sorting.

Local Open Scope Z_scope.
Local Open Scope string_scope.

(** ** Values and rows *)

Module Js.

(** The JavaScript values that occur in rows and parameters. A number is
    a finite number, given as a rational, [NaN], or one of the two
    infinities; a date is given by its epoch milliseconds. *)
Inductive Value :=
  | VUndefined
  | VBool (b : bool)
  | VNum (q : QArith_base.Q)
  | VStr (s : string)
  | VDate (ms : Z)
  | VNaN
  | VInfinity (negative : bool).

#[export] Instance Value_inhabited : Inhabited Value := populate VUndefined.

(** [o.f] on an object: an absent property reads as [undefined]. *)
Definition prop (o : gmap string Value) (f : string) : Value :=
  default VUndefined (o !! f).

(** Truthiness, as used by [cond ? a : b]. *)
Definition truthy (v : Value) : bool :=
  match v with
  | VUndefined => false
  | VBool b => b
  | VNum q => negb (QArith_base.Qeq_bool q (QArith_base.Qmake 0 1))
  | VStr s => negb (String.eqb s "")
  | VDate _ => true
  | VNaN => false
  | VInfinity _ => true
  end.

Definition num_of_N (n : N) : Value := VNum (QArith_base.Qmake (Z.of_N n) 1).

(** [typeof v === 'number'] *)
Definition is_number (v : Value) : bool :=
  match v with
  | VNum _ | VNaN | VInfinity _ => true
  | _ => false
  end.

(** [v <= c] and [v > c] for a number [v] and a finite constant [c]: both
    are false of [NaN]. The source applies them to numbers only. *)
Definition number_le (v : Value) (c : QArith_base.Q) : bool :=
  match v with
  | VNum q => QArith_base.Qle_bool q c
  | VInfinity negative => negative
  | _ => false
  end.

Definition number_gt (v : Value) (c : QArith_base.Q) : bool :=
  match v with
  | VNum q => negb (QArith_base.Qle_bool q c)
  | VInfinity negative => negb negative
  | _ => false
  end.

End Js.
Export Js.

Abbreviation Obj := (gmap string Value).

(** ** [db.ts]: the tables *)

(** Primary keys of the entity tables: generated numbers or given strings. *)
Inductive Key := KNum (n : N) | KStr (s : string).

#[export] Instance Key_eq_dec : EqDecision Key.
Proof. solve_decision. Defined.

#[export] Instance Key_countable : Countable Key.
Proof.
  refine (inj_countable'
    (fun k => match k with KNum n => inl n | KStr s => inr s end)
    (fun x => match x with inl n => KNum n | inr s => KStr s end) _).
  by intros [].
Defined.

(** An entity table ([tasks], [habits], ... ): rows by key, and the key
    generator of [++id]. *)
Record Table := mkTable { rows : gmap Key Obj; keygen : N }.

Inductive Operation := OpCreate | OpUpdate | OpDelete.

(** [interface SyncQueue]. The optional [id] is the auto-incremented
    primary key: it is the key of the row in the table, and a row read back
    is the pair of its [id] and the remaining fields. *)
Record SyncQueue := mkSyncQueue {
  tableName : string;
  operation : Operation;
  recordId : string;
  data : option Obj;
  timestamp : Z;
  attempts : Z
}.

Abbreviation Item := (N * SyncQueue)%type.

Record QueueTable := mkQueueTable { qrows : gmap N SyncQueue; qnext : N }.

(** [class LifeOSDatabase]. The AI job queue plays no part in
    synchronisation and is left out. *)
Record LifeOSDatabase := mkDb {
  tasks : Table;
  habits : Table;
  expenses : Table;
  notes : Table;
  studySessions : Table;
  subjects : Table;
  topics : Table;
  documents : Table;
  syncQueue : QueueTable
}.

Definition set_syncQueue (q : QueueTable) (d : LifeOSDatabase) : LifeOSDatabase :=
  mkDb (tasks d) (habits d) (expenses d) (notes d) (studySessions d)
       (subjects d) (topics d) (documents d) q.

Definition set_expenses (t : Table) (d : LifeOSDatabase) : LifeOSDatabase :=
  mkDb (tasks d) (habits d) t (notes d) (studySessions d)
       (subjects d) (topics d) (documents d) (syncQueue d).

(** The entity tables, without the outbox. *)
Definition entity_tables (d : LifeOSDatabase) : list Table :=
  [tasks d; habits d; expenses d; notes d; studySessions d;
   subjects d; topics d; documents d].

Definition table_of (d : LifeOSDatabase) (name : string) : option Table :=
  if String.eqb name "tasks" then Some (tasks d)
  else if String.eqb name "habits" then Some (habits d)
  else if String.eqb name "expenses" then Some (expenses d)
  else if String.eqb name "notes" then Some (notes d)
  else if String.eqb name "studySessions" then Some (studySessions d)
  else if String.eqb name "subjects" then Some (subjects d)
  else if String.eqb name "topics" then Some (topics d)
  else if String.eqb name "documents" then Some (documents d)
  else None.

(** The local entity an outbox entry speaks about: the row of table
    [tableName] whose key is the string [recordId], as [db[tableName].get
    (recordId)] finds it. *)
Definition entity_of (d : LifeOSDatabase) (name rid : string) : option Obj :=
  t ← table_of d name; rows t !! KStr rid.

Definition synced_flag (o : Obj) : Value := prop o "synced".

(** *** Table requests *)

(** [table.add(row)] for a row without [id]: the key generator supplies the
    key, which is also stored in the row's [id]. *)
Definition table_add (row : Obj) (t : Table) : Key * Table :=
  let k := KNum (keygen t) in
  (k, mkTable (<[k := <["id" := num_of_N (keygen t)]> row]> (rows t))
              (N.succ (keygen t))).

(** [db.syncQueue.add(entry)]. *)
Definition queue_add (e : SyncQueue) (q : QueueTable) : N * QueueTable :=
  (qnext q, mkQueueTable (<[qnext q := e]> (qrows q)) (N.succ (qnext q))).

(** [db.syncQueue.delete(id)]: deleting an absent key is not an error. *)
Definition queue_delete (k : N) (q : QueueTable) : QueueTable :=
  mkQueueTable (delete k (qrows q)) (qnext q).

Definition set_attempts (a : Z) (e : SyncQueue) : SyncQueue :=
  mkSyncQueue (tableName e) (operation e) (recordId e) (data e) (timestamp e) a.

(** [db.syncQueue.update(id, { attempts })]: an absent key is left absent. *)
Definition queue_update (k : N) (a : Z) (q : QueueTable) : QueueTable :=
  mkQueueTable (alter (set_attempts a) k (qrows q)) (qnext q).

(** The order of the [timestamp] index: by timestamp, and by primary key
    among equal timestamps. *)
Definition index_le (x y : Item) : Prop :=
  timestamp x.2 < timestamp y.2 ∨
  (timestamp x.2 = timestamp y.2 ∧ (x.1 ≤ y.1)%N).

#[export] Instance index_le_dec x y : Decision (index_le x y).
Proof. unfold index_le. apply _. Defined.

(** [db.syncQueue.orderBy('timestamp').toArray()]. *)
Definition toArray (q : QueueTable) : list Item :=
  merge_sort index_le (map_to_list (qrows q)).

(** ** The remote backend *)

(** The two requests [syncItem] sends: [from(table).upsert(data)] and
    [from(table).delete().eq('id', recordId)]. *)
Inductive Request :=
  | Upsert (table : string) (payload : option Obj)
  | DeleteById (table : string) (rid : string).

(** A remote backend: for a request and a remote state, whether the awaited
    call resolves ([true]) or rejects ([false]), and the next state. *)
Class RemoteBackend (R : Type) := remote_step : Request → R → bool * R.

(** ** Computations over the world *)

Inductive Error := StorageError | RemoteError.

Inductive Result (A : Type) :=
  | Ok (a : A)
  | Throw (e : Error).
Arguments Ok {A} a.
Arguments Throw {A} e.

(** One remote call as observed from outside: the outbox entry it was made
    for, the request, and whether it resolved. *)
Record Call := mkCall { call_id : N; call_request : Request; call_ok : bool }.

Section Engine.

Context {R : Type} `{!RemoteBackend R}.

(** The database, the remote backend, the two fields of [SyncEngine], the
    fault plan of the local store and the trace of remote calls. *)
Record World := mkWorld {
  db : LifeOSDatabase;
  remote : R;
  isOnline : bool;
  isSyncing : bool;
  faults : list bool;
  trace : list Call
}.

Definition set_db (d : LifeOSDatabase) (w : World) : World :=
  mkWorld d (remote w) (isOnline w) (isSyncing w) (faults w) (trace w).
Definition set_isOnline (b : bool) (w : World) : World :=
  mkWorld (db w) (remote w) b (isSyncing w) (faults w) (trace w).
Definition set_isSyncing (b : bool) (w : World) : World :=
  mkWorld (db w) (remote w) (isOnline w) b (faults w) (trace w).
Definition set_faults (fs : list bool) (w : World) : World :=
  mkWorld (db w) (remote w) (isOnline w) (isSyncing w) fs (trace w).

Definition M (A : Type) : Type := World → Result A * World.

Definition ret {A} (a : A) : M A := fun w => (Ok a, w).

Definition bind {A B} (m : M A) (k : A → M B) : M B :=
  fun w => match m w with
           | (Ok a, w') => k a w'
           | (Throw e, w') => (Throw e, w')
           end.

(** [try { body } catch (error) { handler }]. *)
Definition try_catch {A} (body : M A) (handler : Error → M A) : M A :=
  fun w => match body w with
           | (Ok a, w') => (Ok a, w')
           | (Throw e, w') => handler e w'
           end.

(** [try { body } finally { cleanup }], for a cleanup that cannot throw. *)
Definition try_finally {A} (body : M A) (cleanup : World → World) : M A :=
  fun w => let '(r, w') := body w in (r, cleanup w').

(** A call that is not awaited: its outcome is dropped. *)
Definition fire_and_forget {A} (m : M A) : M unit :=
  fun w => (Ok tt, (m w).2).

Definition modify (f : World → World) : M unit := fun w => (Ok tt, f w).

(** Reading a field of [this]. *)
Definition read {A} (f : World → A) : M A := fun w => (Ok (f w), w).

(** A request to the local store: it consumes one flag of the fault plan
    and rejects when the flag is set. *)
Definition storage {A} (f : LifeOSDatabase → A * LifeOSDatabase) : M A :=
  fun w => match faults w with
           | true :: fs => (Throw StorageError, set_faults fs w)
           | false :: fs =>
               let '(a, d) := f (db w) in (Ok a, set_db d (set_faults fs w))
           | [] => let '(a, d) := f (db w) in (Ok a, set_db d w)
           end.

(** An awaited remote call made on behalf of outbox entry [k]. *)
Definition remote_call (k : N) (c : Request) : M unit :=
  fun w => let '(ok, r) := remote_step c (remote w) in
           (if ok then Ok tt else Throw RemoteError,
            mkWorld (db w) r (isOnline w) (isSyncing w) (faults w)
                    (trace w ++ [mkCall k c ok])).

End Engine.

Arguments World R : clear implicits.
Arguments M R A : clear implicits.

#[export] Instance M_ret {R} : MRet (M R) := fun A => @ret R A.
#[export] Instance M_bind {R} : MBind (M R) := fun A B k m => @bind R A B m k.

(** ** [sync-engine.ts]: [class SyncEngine] *)

Section SyncEngine.

Context {R : Type} `{!RemoteBackend R}.

(** The request [syncItem] sends for an entry. *)
Definition request_of (e : SyncQueue) : Request :=
  match operation e with
  | OpCreate | OpUpdate => Upsert (tableName e) (data e)
  | OpDelete => DeleteById (tableName e) (recordId e)
  end.

(** [syncItem(item)]: one awaited call of the Supabase client. [sync]
    takes a replay for failed exactly when this call rejects, that is when
    [syncItem] throws; it does not look at the value the call resolves
    with. *)
Definition syncItem (item : Item) : M R unit :=
  remote_call item.1 (request_of item.2).

Definition db_queue_add (e : SyncQueue) : M R N :=
  storage (fun d => let '(k, q) := queue_add e (syncQueue d) in
                    (k, set_syncQueue q d)).
Definition db_queue_delete (k : N) : M R unit :=
  storage (fun d => (tt, set_syncQueue (queue_delete k (syncQueue d)) d)).
Definition db_queue_update (k : N) (a : Z) : M R unit :=
  storage (fun d => (tt, set_syncQueue (queue_update k a (syncQueue d)) d)).
Definition db_queue_toArray : M R (list Item) :=
  storage (fun d => (toArray (syncQueue d), d)).

(** The body of the [for] loop of [sync], for one entry of the array. The
    test [item.attempts >= 5] reads [item], the entry as it was read into
    the array, not the row that was just updated. *)
Definition sync_entry (item : Item) : M R unit :=
  try_catch
    (syncItem item;;
     db_queue_delete item.1)
    (fun error =>
       db_queue_update item.1 (attempts item.2 + 1)%Z;;
       if (5 <=? attempts item.2)%Z
       then db_queue_delete item.1
       else mret tt).

Fixpoint sync_loop (queue : list Item) : M R unit :=
  match queue with
  | [] => mret tt
  | item :: rest => sync_entry item;; sync_loop rest
  end.

(** [async sync()], run from the call to its completion. *)
Definition sync : M R unit :=
  syncing ← read isSyncing;
  online ← read isOnline;
  if syncing || negb online then mret tt
  else
    modify (set_isSyncing true);;
    try_finally
      (queue ← db_queue_toArray;
       sync_loop queue)
      (set_isSyncing false).

Definition handleOnline : M R unit :=
  modify (set_isOnline true);;
  fire_and_forget sync.

Definition handleOffline : M R unit :=
  modify (set_isOnline false).

(** [async addToQueue(tableName, operation, recordId, data?)]; [now] is the
    value of [new Date()]. The triggered [sync()] is not awaited. *)
Definition addToQueue (tableName : string) (operation : Operation)
    (recordId : string) (data : option Obj) (now : Z) : M R unit :=
  _ ← db_queue_add (mkSyncQueue tableName operation recordId data now 0);
  online ← read isOnline;
  if (online : bool) then fire_and_forget sync else mret tt.

Definition getStatus (w : World R) : bool * bool := (isOnline w, isSyncing w).

(** The two fields as [constructor()] leaves them: [isSyncing] is false and
    [isOnline] is [navigator.onLine], or false where there is no [window]. *)
Definition constructor (navigator_onLine : option bool) : bool * bool :=
  (default false navigator_onLine, false).

End SyncEngine.

(** ** Remote backends used as test doubles *)

Module Doubles.

(** A backend on which every call rejects: no connectivity, or a remote
    that refuses everything. *)
Inductive Unreachable := unreachable.

#[export] Instance unreachable_backend : RemoteBackend Unreachable :=
  fun _ r => (false, r).

(** The string identifier of a payload, when it has one. *)
Definition payload_id (o : Obj) : option string :=
  match prop o "id" with
  | VStr s => Some s
  | _ => None
  end.

(** Modelled from the spec: the Remote Backend collaborator of section 6,
    which stands behind the client of [./supabase], as an in-memory store of
    rows by table and id. [upsert] inserts or replaces by the payload's id
    and rejects a payload without one; [delete] by id is idempotent and
    always resolves. *)
Record Store := mkStore { stored : gmap (string * string) Obj }.

#[export] Instance store_backend : RemoteBackend Store :=
  fun c r =>
    match c with
    | Upsert t (Some o) =>
        match payload_id o with
        | Some i => (true, mkStore (<[(t, i) := o]> (stored r)))
        | None => (false, r)
        end
    | Upsert t None => (false, r)
    | DeleteById t i => (true, mkStore (delete (t, i) (stored r)))
    end.

End Doubles.
Import Doubles.

(** ** A pass over a healthy local store *)

(** With an empty fault plan no storage request rejects, and a pass is
    described by what each remote call answers. *)

Section Pass.

Context {R : Type} `{!RemoteBackend R}.

(** What the loop body leaves in the outbox for [item], given whether its
    remote call resolved. *)
Definition settle_entry (item : Item) (ok : bool) (q : QueueTable) : QueueTable :=
  if ok then queue_delete item.1 q
  else
    let q' := queue_update item.1 (attempts item.2 + 1)%Z q in
    if (5 <=? attempts item.2)%Z then queue_delete item.1 q' else q'.

(** The calls of a pass over [queue], the outbox and the remote state it
    leaves. *)
Fixpoint replay (queue : list Item) (q : QueueTable) (r : R)
    : list Call * QueueTable * R :=
  match queue with
  | [] => ([], q, r)
  | item :: rest =>
      let a := remote_step (request_of item.2) r in
      let p := replay rest (settle_entry item a.1 q) a.2 in
      (mkCall item.1 (request_of item.2) a.1 :: p.1.1, p.1.2, p.2)
  end.

(** The remote calls made by [sync] started in [w]. *)
Definition pass_calls (w : World R) : list Call :=
  drop (length (trace w)) (trace (sync w).2).

(** Every key of the outbox is below the key generator. *)
Definition queue_wf (q : QueueTable) : Prop :=
  map_Forall (fun k _ => (k < qnext q)%N) (qrows q).

End Pass.

(** The row under the key of an entry [e] once its call has answered. *)
Definition settle_row (e : SyncQueue) (ok : bool) (o : option SyncQueue)
    : option SyncQueue :=
  if ok then None
  else if (5 <=? attempts e)%Z then None
  else set_attempts (attempts e + 1)%Z <$> o.

(** ** The engine between suspension points *)

(** [sync] and [addToQueue] are [async]: a call runs to its first [await]
    and is resumed later, and other callbacks run in between. The engine
    below keeps, next to the world, the calls of [sync] that are suspended
    and the number of calls of [addToQueue] waiting for their [add]. An
    event runs one callback or resumes one suspended call up to its next
    [await]. *)

Section Interleaving.

Context {R : Type} `{!RemoteBackend R}.

(** A suspended call of [sync]: waiting for the array, or inside the loop
    with the entries still to visit. *)
Inductive Task :=
  | Reading
  | Looping (rest : list Item).

Record Engine := mkEngine {
  world : World R;
  suspended : list Task;
  enqueuing : nat
}.

Inductive Event :=
  | EvOnline
  | EvOffline
  | EvSync
  | EvAddToQueue (tableName : string) (operation : Operation)
      (recordId : string) (data : option Obj) (now : Z)
  | EvAdded
  | EvResume (i : nat).

(** A call of [sync()], up to its first [await]: the guard, the flag, and
    the request for the array. *)
Definition sync_call (st : Engine) : Engine :=
  if isSyncing (world st) || negb (isOnline (world st)) then st
  else mkEngine (set_isSyncing true (world st)) (suspended st ++ [Reading])
         (enqueuing st).

(** Task [i] leaves through [finally]. *)
Definition finish (i : nat) (w : World R) (st : Engine) : Engine :=
  mkEngine (set_isSyncing false w) (delete i (suspended st)) (enqueuing st).

(** Task [i] goes on with [rest], or leaves when nothing is left. *)
Definition continue (i : nat) (rest : list Item) (w : World R) (st : Engine)
    : Engine :=
  match rest with
  | [] => finish i w st
  | _ :: _ => mkEngine w (<[i := Looping rest]> (suspended st)) (enqueuing st)
  end.

Definition resume (i : nat) (st : Engine) : option Engine :=
  match suspended st !! i with
  | None => None
  | Some Reading =>
      match db_queue_toArray (world st) with
      | (Ok queue, w) => Some (continue i queue w st)
      | (Throw _, w) => Some (finish i w st)
      end
  | Some (Looping []) => Some (finish i (world st) st)
  | Some (Looping (item :: rest)) =>
      match sync_entry item (world st) with
      | (Ok _, w) => Some (continue i rest w st)
      | (Throw _, w) => Some (finish i w st)
      end
  end.

Definition step (ev : Event) (st : Engine) : option Engine :=
  match ev with
  | EvOnline =>
      Some (sync_call
              (mkEngine (set_isOnline true (world st)) (suspended st) (enqueuing st)))
  | EvOffline =>
      Some (mkEngine (set_isOnline false (world st)) (suspended st) (enqueuing st))
  | EvSync => Some (sync_call st)
  | EvAddToQueue name op rid payload now =>
      match db_queue_add (mkSyncQueue name op rid payload now 0) (world st) with
      | (Ok _, w) => Some (mkEngine w (suspended st) (S (enqueuing st)))
      | (Throw _, w) => Some (mkEngine w (suspended st) (enqueuing st))
      end
  | EvAdded =>
      match enqueuing st with
      | O => None
      | S n =>
          let st' := mkEngine (world st) (suspended st) n in
          Some (if isOnline (world st) then sync_call st' else st')
      end
  | EvResume i => resume i st
  end.

(** A freshly constructed engine: the constructor has set the flags and
    nothing is suspended. The listeners it registers are the events
    [EvOnline] and [EvOffline]. *)
Definition initial (st : Engine) : Prop :=
  (∃ navigator_onLine, getStatus (world st) = constructor navigator_onLine) ∧
  suspended st = [] ∧ enqueuing st = O.

Inductive reachable : Engine → Prop :=
  | reachable_initial st : initial st → reachable st
  | reachable_step st ev st' :
      reachable st → step ev st = Some st' → reachable st'.

(** One pass is in flight exactly when [isSyncing] is set. *)
Definition one_pass (st : Engine) : Prop :=
  length (suspended st) = if isSyncing (world st) then 1%nat else 0%nat.

(** The events of a run from a list. *)
Fixpoint run (evs : list Event) (st : Engine) : option Engine :=
  match evs with
  | [] => Some st
  | ev :: evs' =>
      match step ev st with
      | Some st' => run evs' st'
      | None => None
      end
  end.

End Interleaving.

Arguments Engine R : clear implicits.

(** ** [ai-actions/expenses.ts]: [createExpense] *)

Definition VALID_CATEGORIES : list string :=
  ["Food & Dining"; "Transportation"; "Shopping"; "Entertainment";
   "Bills & Utilities"; "Healthcare"; "Education"; "Other"].

(** The [error] of a failed action: the two validation errors, or the
    exception that was caught. *)
Inductive Failure :=
  | InvalidAmount
  | AmountTooLarge
  | Caught (e : Error).

(** [ActionResult], without the texts shown to the user ([message],
    [actionId]). *)
Record ActionResult := mkActionResult {
  success : bool;
  error : option Failure;
  result_data : option Obj
}.

(** Whether an action resolved with [success: true]. *)
Definition succeeded (r : Result ActionResult) : bool :=
  match r with
  | Ok a => success a
  | Throw _ => false
  end.

Definition key_value (k : Key) : Value :=
  match k with
  | KNum n => num_of_N n
  | KStr s => VStr s
  end.

Section CreateExpense.

Context {R : Type} `{!RemoteBackend R}.

(** [sanitizeInput] of the action infrastructure, applied to a parameter. *)
Variable sanitizeInput : Value → string.

Definition db_expenses_add (row : Obj) : M R Key :=
  storage (fun d => let '(k, t) := table_add row (expenses d) in
                    (k, set_expenses t d)).

(** [VALID_CATEGORIES.includes(params.category) ? params.category : 'Other'] *)
Definition category_of (v : Value) : string :=
  match v with
  | VStr c => if bool_decide (c ∈ VALID_CATEGORIES) then c else "Other"
  | _ => "Other"
  end.

(** [createExpense(params, userId)]; [date] and [createdAt] are the values
    of the two [new Date()]. *)
Definition createExpense (params : Obj) (userId : string) (date createdAt : Z)
    : M R ActionResult :=
  let amount := prop params "amount" in
  if negb (is_number amount) || number_le amount (QArith_base.Qmake 0 1)
  then mret (mkActionResult false (Some InvalidAmount) None)
  else if number_gt amount (QArith_base.Qmake 999999 1)
  then mret (mkActionResult false (Some AmountTooLarge) None)
  else
    let category := category_of (prop params "category") in
    let description :=
      if truthy (prop params "description")
      then VStr (sanitizeInput (prop params "description"))
      else VUndefined in
    let expense : Obj :=
      <["amount" := amount]>
      (<["category" := VStr category]>
      (<["description" := description]>
      (<["date" := VDate date]>
      (<["createdAt" := VDate createdAt]>
      (<["owner_id" := VStr userId]>
      (<["synced" := VBool false]> ∅)))))) in
    try_catch
      (expenseId ← db_expenses_add expense;
       mret (mkActionResult true None
               (Some (<["expenseId" := key_value expenseId]>
                     (<["amount" := amount]>
                     (<["category" := VStr category]> ∅))))))
      (fun error => mret (mkActionResult false (Some (Caught error)) None)).

End CreateExpense.

(** ** Replay order and what a replay leaves on the store double *)

(** Timestamps never decrease along the keys of the outbox: the clock did
    not step back between two calls of [addToQueue]. *)
Definition timestamps_monotone (q : QueueTable) : Prop :=
  map_Forall (fun k1 e1 =>
    map_Forall (fun k2 e2 =>
      (k1 < k2)%N → (timestamp e1 ≤ timestamp e2)%Z) (qrows q)) (qrows q).

(** The record of the store double that the request of an entry addresses,
    if the double accepts the request. *)
Definition target (e : SyncQueue) : option (string * string) :=
  match request_of e with
  | Upsert t (Some o) => i ← Doubles.payload_id o; Some (t, i)
  | Upsert t None => None
  | DeleteById t i => Some (t, i)
  end.

(** The state of the record after the mutation an entry stands for. *)
Definition final_state (e : SyncQueue) : option Obj :=
  match request_of e with
  | Upsert _ o => o
  | DeleteById _ _ => None
  end.

(** What one replayed entry makes of the record [key] of the store. *)
Definition store_effect (key : string * string) (o : option Obj) (item : Item)
    : option Obj :=
  if decide (target item.2 = Some key) then final_state item.2 else o.

(** ** Frames of a computation *)

(** [m] takes every world to one related to it by [P], whether it resolves
    or rejects. *)
Definition respects {R A} (P : relation (World R)) (m : M R A) : Prop :=
  ∀ w, P w (m w).2.

(** The two flags of the engine are as before. *)
Definition same_flags {R} : relation (World R) :=
  fun w w' => isSyncing w' = isSyncing w ∧ isOnline w' = isOnline w.

(** No key was added to the outbox, and the entity tables are as before. *)
Definition outbox_shrinks {R} : relation (World R) :=
  fun w w' =>
    (∀ k, is_Some (qrows (syncQueue (db w')) !! k) →
          is_Some (qrows (syncQueue (db w)) !! k)) ∧
    entity_tables (db w') = entity_tables (db w).

(** A well-formed outbox stays well-formed. *)
Definition keeps_wf {R} : relation (World R) :=
  fun w w' => queue_wf (syncQueue (db w)) → queue_wf (syncQueue (db w')).

(** ** Repeated passes *)

(** [n] calls of [sync], each run to completion. *)
Definition passes {R} `{!RemoteBackend R} (n : nat) (w : World R) : World R :=
  Nat.iter n (fun w' => (sync w').2) w.

(** The number of remote calls made so far for the outbox entry [k]. *)
Definition attempts_made {R} (k : N) (w : World R) : nat :=
  length (filter (fun i => i = k) (call_id <$> trace w)).

(** The backend rejects the request of [e] in every state. *)
Definition always_rejected {R} `{!RemoteBackend R} (e : SyncQueue) : Prop :=
  ∀ r : R, (remote_step (request_of e) r).1 = false.

(** A world in which a call of [sync] starts a pass on a healthy store. *)
Definition ready {R} (w : World R) : Prop :=
  faults w = [] ∧ isSyncing w = false ∧ isOnline w = true.

(** ** Mutations of one record made in a row *)

(** One mutation of a record: the operation, the payload snapshot handed
    to [addToQueue], and the time of the call. *)
Record Mutation := mkMutation {
  mut_operation : Operation;
  mut_data : option Obj;
  mut_time : Z
}.

Definition entry_of (t rid : string) (m : Mutation) : SyncQueue :=
  mkSyncQueue t (mut_operation m) rid (mut_data m) (mut_time m) 0.

(** [addToQueue] called once for each mutation, in order. *)
Fixpoint enqueue_all {R} `{!RemoteBackend R} (t rid : string)
    (ms : list Mutation) : M R unit :=
  match ms with
  | [] => mret tt
  | m :: rest =>
      addToQueue t (mut_operation m) rid (mut_data m) (mut_time m);;
      enqueue_all t rid rest
  end.

(** The outbox after the entries of [ms] were added to [q]. *)
Definition enqueue_rows (t rid : string) (ms : list Mutation) (q : QueueTable)
    : QueueTable :=
  foldl (fun q' m => (queue_add (entry_of t rid m) q').2) q ms.

(** ** Errors that leave a computation *)

(** [m] never rejects with the error of a remote call. *)
Definition swallows_remote_errors {R A} (m : M R A) : Prop :=
  ∀ w, (m w).1 ≠ Throw RemoteError.

(** The outbox is as before and no remote call has been made. *)
Definition outbox_kept {R} : relation (World R) :=
  fun w w' => syncQueue (db w') = syncQueue (db w) ∧ trace w' = trace w.

(** ** Concrete worlds *)

Module Examples.

Definition empty_table : Table := mkTable ∅ 1.

Definition empty_db : LifeOSDatabase :=
  mkDb empty_table empty_table empty_table empty_table empty_table
       empty_table empty_table empty_table (mkQueueTable ∅ 1).

(** A note stored locally under the id [n1], not yet synced, in two
    successive states. *)
Definition note_a : Obj :=
  <["id" := VStr "n1"]> (<["title" := VStr "first"]>
  (<["synced" := VBool false]> ∅)).

Definition note_b : Obj :=
  <["id" := VStr "n1"]> (<["title" := VStr "second"]>
  (<["synced" := VBool false]> ∅)).

Definition db_with_note (o : Obj) (q : QueueTable) : LifeOSDatabase :=
  mkDb empty_table empty_table empty_table
       (mkTable (<[KStr "n1" := o]> ∅) 1)
       empty_table empty_table empty_table empty_table q.

Definition create_a (ts : Z) : SyncQueue :=
  mkSyncQueue "notes" OpCreate "n1" (Some note_a) ts 0.

Definition update_b (ts : Z) : SyncQueue :=
  mkSyncQueue "notes" OpUpdate "n1" (Some note_b) ts 0.

(** One pending [create], online and idle, in front of the store double. *)
Definition w_one : World Store :=
  mkWorld (db_with_note note_a (mkQueueTable (<[1%N := create_a 100]> ∅) 2))
          (mkStore ∅) true false [] [].

(** The same outbox in front of a backend that rejects every call. *)
Definition w_unreachable : World Unreachable :=
  mkWorld (db_with_note note_a (mkQueueTable (<[1%N := create_a 100]> ∅) 2))
          unreachable true false [] [].

(** A [create] followed by an [update] of the same note, enqueued in this
    order at the given times. *)
Definition w_two (ts1 ts2 : Z) : World Store :=
  mkWorld (db_with_note note_b
             (mkQueueTable (<[1%N := create_a ts1]> (<[2%N := update_b ts2]> ∅)) 3))
          (mkStore ∅) true false [] [].

Definition w_two_unreachable : World Unreachable :=
  mkWorld (db_with_note note_b
             (mkQueueTable (<[1%N := create_a 100]> (<[2%N := update_b 200]> ∅)) 3))
          unreachable true false [] [].

(** The local store rejects the first request of the pass. *)
Definition w_faulty : World Store :=
  mkWorld (db_with_note note_a (mkQueueTable (<[1%N := create_a 100]> ∅) 2))
          (mkStore ∅) true false [true] [].

Definition w_offline : World Store :=
  mkWorld (db_with_note note_a (mkQueueTable (<[1%N := create_a 100]> ∅) 2))
          (mkStore ∅) false false [] [].

Definition w_fresh : World Store :=
  mkWorld empty_db (mkStore ∅) true false [] [].

Definition expense_params : Obj :=
  <["amount" := VNum (QArith_base.Qmake 500 1)]>
  (<["category" := VStr "Food & Dining"]> ∅).

(** An engine that went online and offline again while its pass was
    waiting for the array. *)
Definition st_idle : Engine Store := mkEngine w_offline [] 0.
Definition st_reading : Engine Store :=
  mkEngine (set_isSyncing true (set_isOnline true w_offline)) [Reading] 0.
Definition st_cut_off : Engine Store :=
  mkEngine (set_isSyncing true w_offline) [Reading] 0.

End Examples.

(** ** Further notions about passes *)

(** A backend on which every call resolves and nothing is stored. *)
Inductive AlwaysUp := always_up.

#[export] Instance always_up_backend : RemoteBackend AlwaysUp :=
  fun _ r => (true, r).

(** The backend resolves every request in every state. *)
Definition accepting {R} `{!RemoteBackend R} : Prop :=
  ∀ c (r : R), (remote_step c r).1 = true.

(** No entry of the outbox has more than five recorded attempts. *)
Definition attempts_bounded (q : QueueTable) : Prop :=
  map_Forall (fun _ e => (attempts e ≤ 5)%Z) (qrows q).

(** Every entry of the outbox of [w'] was in the outbox of [w] under the
    same key, and differs from it at most in [attempts]. *)
Definition fields_kept {R} : relation (World R) :=
  fun w w' =>
    ∀ k e', qrows (syncQueue (db w')) !! k = Some e' →
      ∃ e, qrows (syncQueue (db w)) !! k = Some e ∧
           e' = set_attempts (attempts e') e.

(** The outbox stays well-formed and its key generator does not go back. *)
Definition keys_kept {R} : relation (World R) :=
  fun w w' =>
    (queue_wf (syncQueue (db w)) → queue_wf (syncQueue (db w'))) ∧
    (qnext (syncQueue (db w)) ≤ qnext (syncQueue (db w')))%N.

Module MoreExamples.

Import Examples.

Definition w_always_up : World AlwaysUp :=
  mkWorld (db_with_note note_b
             (mkQueueTable (<[1%N := create_a 100]> (<[2%N := update_b 200]> ∅)) 3))
          always_up true false [] [].

(** The store answers the read of the outbox and rejects the request after
    it, the delete of the first entry. *)
Definition w_delete_fails : World Store :=
  mkWorld (db_with_note note_b
             (mkQueueTable (<[1%N := create_a 100]> (<[2%N := update_b 200]> ∅)) 3))
          (mkStore ∅) true false [false; true] [].

Definition w_fresh_offline : World Store :=
  mkWorld empty_db (mkStore ∅) false false [] [].

Definition st_one : Engine Store := mkEngine w_one [] 0.

End MoreExamples.

(** ** [ai-actions/index.ts]: sanitising and validating *)

(** A string is read as a sequence of UTF-16 code units below 256, one per
    character. On such strings the regular expressions of the source are the
    functions below: the character classes are spelled out, [/i] folds the
    ASCII letters only, and a global [replace] removes the leftmost matches
    from left to right, without rescanning what it has produced. *)

From Stdlib Require Import Ascii.

Module Text.

Definition chars (s : string) : list ascii := String.list_ascii_of_string s.
Definition text (l : list ascii) : string := String.string_of_list_ascii l.

Definition between (lo hi : N) (a : ascii) : bool :=
  (lo <=? N_of_ascii a)%N && (N_of_ascii a <=? hi)%N.

Definition is_char (c : N) (a : ascii) : bool := (N_of_ascii a =? c)%N.

(** [\s]: tab, line feed, vertical tab, form feed, carriage return, space
    and no-break space. *)
Definition is_space (a : ascii) : bool :=
  between 9 13 a || is_char 32 a || is_char 160 a.

Definition is_lower (a : ascii) : bool := between 97 122 a.
Definition is_upper (a : ascii) : bool := between 65 90 a.
Definition is_digit (a : ascii) : bool := between 48 57 a.

(** [\w] *)
Definition is_word (a : ascii) : bool :=
  is_lower a || is_upper a || is_digit a || is_char 95 a.

(** The canonical form of a character under [/i]. *)
Definition fold_case (a : ascii) : ascii :=
  if is_lower a then ascii_of_N (N_of_ascii a - 32) else a.

(** Whether [s] starts with [pattern], ignoring case. *)
Fixpoint starts_with_ci (pattern s : list ascii) : bool :=
  match pattern, s with
  | [], _ => true
  | p :: pattern', c :: s' =>
      Ascii.eqb (fold_case p) (fold_case c) && starts_with_ci pattern' s'
  | _ :: _, [] => false
  end.

(** The length of the longest prefix of [s] made of characters in [p]. *)
Fixpoint span (p : ascii → bool) (s : list ascii) : nat :=
  match s with
  | c :: s' => if p c then S (span p s') else O
  | [] => O
  end.

(** [/javascript:/i] at the start of [s]: the length of the match. *)
Definition match_javascript (s : list ascii) : option nat :=
  if starts_with_ci (chars "javascript:") s then Some 11%nat else None.

(** [/on\w+\s*=/i] at the start of [s]: the length of the match. A word
    character is neither a space nor [=], so the match, when there is one,
    takes the whole run of word characters and the whole run of spaces. *)
Definition match_handler (s : list ascii) : option nat :=
  if starts_with_ci (chars "on") s then
    let after_on := drop 2 s in
    let words := span is_word after_on in
    let spaces := span is_space (drop words after_on) in
    match words, drop spaces (drop words after_on) with
    | S _, c :: _ =>
        if is_char 61 c then Some (2 + words + spaces + 1)%nat else None
    | _, _ => None
    end
  else None.

(** [s.replace(/re/g, '')] for a pattern given by its matches at the start
    of a string; [skip] counts the characters of a match still to drop. *)
Fixpoint remove_matches (m : list ascii → option nat) (skip : nat)
    (s : list ascii) : list ascii :=
  match s with
  | [] => []
  | c :: s' =>
      match skip with
      | S n => remove_matches m n s'
      | O =>
          match m (c :: s') with
          | Some (S n) => remove_matches m n s'
          | _ => c :: remove_matches m O s'
          end
      end
  end.

Fixpoint drop_spaces (s : list ascii) : list ascii :=
  match s with
  | c :: s' => if is_space c then drop_spaces s' else s
  | [] => []
  end.

(** [s.trim()] *)
Definition trim (s : list ascii) : list ascii :=
  rev (drop_spaces (rev (drop_spaces s))).

Definition MAX_STRING_LENGTH : nat := 500.
Definition MAX_NUMBER_VALUE : QArith_base.Q := QArith_base.Qmake 999999 1.

(** [sanitizeInput(input)], on the characters of a string. *)
Definition sanitize_chars (input : list ascii) : list ascii :=
  let sanitized :=
    trim
      (remove_matches match_handler O
         (remove_matches match_javascript O
            (filter (fun c => negb (is_char 60 c || is_char 62 c)) input))) in
  if (MAX_STRING_LENGTH <? length sanitized)%nat
  then take MAX_STRING_LENGTH sanitized
  else sanitized.

(** [sanitizeInput(input)] for the value passed to it: the empty string
    for an empty string and for whatever is not a string. *)
Definition sanitizeInput (input : Value) : string :=
  match input with
  | VStr s =>
      if String.eqb s EmptyString then EmptyString
      else text (sanitize_chars (chars s))
  | _ => EmptyString
  end.

(** The characters of [SAFE_STRING_PATTERN]: letters, digits, [\s] and the
    punctuation of the pattern: hyphen, underscore, period, comma, the marks
    ! ? @ # $ % & *, round, square and curly brackets, colon, semicolon,
    double and single quote, angle brackets, slash, backslash, plus and
    equals sign, given by their codes. *)
Definition safe_char (a : ascii) : bool :=
  is_lower a || is_upper a || is_digit a || is_space a ||
  existsb (fun c => is_char c a)
    [45; 95; 46; 44; 33; 63; 64; 35; 36; 37; 38; 42; 40; 41; 91; 93; 123;
     125; 58; 59; 34; 39; 60; 62; 47; 92; 43; 61]%N.

(** [SAFE_STRING_PATTERN.test(s)] *)
Definition SAFE_STRING_PATTERN (s : string) : bool :=
  forallb safe_char (chars s).

End Text.
Export Text.

(** *** Actions and their validation *)

(** [interface AIAction]. The fields have their declared types; the values
    inside [parameters] are arbitrary. *)
Record AIAction := mkAIAction {
  action_type : string;
  entity : string;
  parameters : Obj;
  requiresConfirmation : bool;
  userId : string;
  action_timestamp : Z
}.

(** The result of a validation: [{ valid, error? }]. *)
Record Validation := mkValidation {
  valid : bool;
  validation_error : option string
}.

Definition accepted : Validation := mkValidation true None.
Definition rejected (why : string) : Validation := mkValidation false (Some why).

(** [v && typeof v === 'string']: a non-empty string. *)
Definition nonempty_string (v : Value) : bool :=
  match v with
  | VStr s => negb (String.eqb s EmptyString)
  | _ => false
  end.

Section Validation.

(** [String(v)] for a value that is not a string, as [RegExp.test] applies
    it to its argument. *)
Variable render : Value → string.

Definition test_safe (v : Value) : bool :=
  match v with
  | VStr s => SAFE_STRING_PATTERN s
  | _ => SAFE_STRING_PATTERN (render v)
  end.

Definition validateTaskAction (action : AIAction) : Validation :=
  let parameters := parameters action in
  if String.eqb (action_type action) "create"
     && negb (nonempty_string (prop parameters "title"))
  then rejected "Task title is required"
  else if String.eqb (action_type action) "create"
          && negb (test_safe (prop parameters "title"))
  then rejected "Task title contains invalid characters"
  else if (String.eqb (action_type action) "update"
           || String.eqb (action_type action) "delete")
          && (negb (truthy (prop parameters "taskId"))
              && negb (truthy (prop parameters "title"))
              && negb (truthy (prop parameters "index")))
  then rejected "Task identifier required"
  else accepted.

Definition validateHabitAction (action : AIAction) : Validation :=
  let parameters := parameters action in
  if negb (String.eqb (action_type action) "create") then accepted
  else if negb (nonempty_string (prop parameters "name"))
  then rejected "Habit name is required"
  else if negb (test_safe (prop parameters "name"))
  then rejected "Habit name contains invalid characters"
  else if truthy (prop parameters "frequency")
          && negb (match prop parameters "frequency" with
                   | VStr f => String.eqb f "daily" || String.eqb f "weekly"
                   | _ => false
                   end)
  then rejected "Invalid frequency - use daily or weekly"
  else accepted.

Definition validateExpenseAction (action : AIAction) : Validation :=
  let parameters := parameters action in
  if negb (String.eqb (action_type action) "create") then accepted
  else if negb (is_number (prop parameters "amount"))
          || number_le (prop parameters "amount") (QArith_base.Qmake 0 1)
  then rejected "Valid expense amount required"
  else if number_gt (prop parameters "amount") MAX_NUMBER_VALUE
  then rejected "Amount exceeds maximum allowed value"
  else if truthy (prop parameters "category")
          && negb (test_safe (prop parameters "category"))
  then rejected "Invalid category"
  else accepted.

Definition validateNoteAction (action : AIAction) : Validation :=
  let parameters := parameters action in
  if negb (String.eqb (action_type action) "create") then accepted
  else if negb (nonempty_string (prop parameters "title"))
  then rejected "Note title is required"
  else if negb (test_safe (prop parameters "title"))
  then rejected "Note title contains invalid characters"
  else accepted.

Definition validTypes : list string :=
  ["create"; "read"; "update"; "delete"; "analyze"].
Definition validEntities : list string :=
  ["task"; "habit"; "note"; "expense"].

(** [validateAction(action)]. The two [typeof] tests hold for fields of
    the declared types, which leaves the test for an empty [userId]. *)
Definition validateAction (action : AIAction) : Validation :=
  if negb (bool_decide (action_type action ∈ validTypes))
  then rejected "Invalid action type"
  else if negb (bool_decide (entity action ∈ validEntities))
  then rejected "Invalid entity type"
  else if String.eqb (userId action) EmptyString
  then rejected "Invalid user ID"
  else if String.eqb (entity action) "task" then validateTaskAction action
  else if String.eqb (entity action) "habit" then validateHabitAction action
  else if String.eqb (entity action) "expense" then validateExpenseAction action
  else if String.eqb (entity action) "note" then validateNoteAction action
  else rejected "Unknown entity type".

End Validation.

(** ** [ai-actions/expenses.ts]: the other actions *)

(** What [table.get(key)] and [table.delete(key)] make of a value given as
    key: a key of the table, a valid key that no row of the table can have
    (a date, a number that is not a natural number), or no valid key. *)
Inductive KeyOf :=
  | ValidKey (k : Key)
  | UnusedKey
  | InvalidKey.

Definition key_of_value (v : Value) : KeyOf :=
  match v with
  | VStr s => ValidKey (KStr s)
  | VNum q =>
      if (0 <=? QArith_base.Qnum q)%Z
         && (QArith_base.Qnum q mod Z.pos (QArith_base.Qden q) =? 0)%Z
      then ValidKey (KNum (Z.to_N (QArith_base.Qnum q / Z.pos (QArith_base.Qden q))))
      else UnusedKey
  | VDate _ | VInfinity _ => UnusedKey
  | VBool _ | VUndefined | VNaN => InvalidKey
  end.

(** The row of every key carries the key in its [id], as a table with the
    in-line key [++id] has it, and generated keys are below the generator. *)
Definition table_wf (t : Table) : Prop :=
  map_Forall (fun k o =>
    prop o "id" = key_value k ∧
    match k with KNum n => (n < keygen t)%N | KStr _ => True end) (rows t).

(** [expense.owner_id !== userId] *)
Definition owner_differs (o : Obj) (userId : string) : bool :=
  match prop o "owner_id" with
  | VStr s => negb (String.eqb s userId)
  | _ => true
  end.

(** The [error] of a failed expense action. *)
Inductive ExpenseError :=
  | ErrCreate (f : Failure)
  | ErrUnauthorized
  | ErrNotFound
  | ErrInvalidType
  | ErrThrown.

(** [ActionResult] as the other expense actions fill it, without the texts
    shown to the user. *)
Record Outcome := mkOutcome {
  ok : bool;
  problem : option ExpenseError;
  outcome_data : option Obj
}.

Definition failed (e : ExpenseError) : Outcome := mkOutcome false (Some e) None.

Definition outcome_of (r : ActionResult) : Outcome :=
  mkOutcome (success r) (ErrCreate <$> error r) (result_data r).

Section ExpenseActions.

Context {R : Type} `{!RemoteBackend R}.

(** [db.expenses.where('owner_id').equals(userId).reverse().sortBy('date')],
    a query of the store: all that is used of it is that it yields rows of
    the table owned by [userId]. *)
Variable recent_expenses : Table → string → list Obj.

Definition recent_owned : Prop :=
  ∀ t userId o, o ∈ recent_expenses t userId →
    (∃ k, rows t !! k = Some o) ∧ owner_differs o userId = false.

Definition raise {A} (e : Error) : M R A := fun w => (Throw e, w).

(** [db.expenses.get(key)]: a value that is no valid key is refused
    before any request is made. *)
Definition db_expenses_get (key : Value) : M R (option Obj) :=
  match key_of_value key with
  | ValidKey k => storage (fun d => (rows (expenses d) !! k, d))
  | UnusedKey => storage (fun d => (None, d))
  | InvalidKey => raise StorageError
  end.

Definition db_expenses_recent (userId : string) : M R (list Obj) :=
  storage (fun d => (recent_expenses (expenses d) userId, d)).

(** [db.expenses.delete(key)]: deleting an absent key is not an error. *)
Definition db_expenses_delete (key : Value) : M R unit :=
  match key_of_value key with
  | ValidKey k =>
      storage (fun d =>
        (tt, set_expenses (mkTable (delete k (rows (expenses d)))
                             (keygen (expenses d))) d))
  | UnusedKey => storage (fun d => (tt, d))
  | InvalidKey => raise StorageError
  end.

(** [deleteExpense(params, userId)]. The search either returns early with
    a result or yields the expense found, if any. Building the result calls
    [expense.amount.toFixed], which throws into the enclosing [catch] when
    the amount is not a number. *)
Definition deleteExpense (params : Obj) (userId : string) : M R Outcome :=
  try_catch
    (found ←
       (if truthy (prop params "expenseId")
        then
          expense ← db_expenses_get (prop params "expenseId");
          mret (match expense with
                | Some o =>
                    if owner_differs o userId then inl (failed ErrUnauthorized)
                    else inr (Some o)
                | None => inr None
                end)
        else
          expenses ← db_expenses_recent userId;
          mret (inr (head expenses)));
     match found with
     | inl early => mret early
     | inr None => mret (failed ErrNotFound)
     | inr (Some expense) =>
         db_expenses_delete (prop expense "id");;
         mret (if is_number (prop expense "amount")
               then mkOutcome true None
                      (Some (<["expenseId" := prop expense "id"]>
                            (<["amount" := prop expense "amount"]> ∅)))
               else failed ErrThrown)
     end)
    (fun error => mret (failed ErrThrown)).

(** [readExpenses] and [analyzeExpenses] format dates and amounts for the
    user; they are left open here. *)
Variable readExpenses : Obj → string → M R Outcome.
Variable analyzeExpenses : Obj → string → M R Outcome.

(** [executeExpenseAction(action)]; [date] and [createdAt] are the values of
    [new Date()] in [createExpense]. *)
Definition executeExpenseAction (action : AIAction) (date createdAt : Z)
    : M R Outcome :=
  try_catch
    (if String.eqb (action_type action) "create" then
       r ← createExpense sanitizeInput (parameters action) (userId action)
              date createdAt;
       mret (outcome_of r)
     else if String.eqb (action_type action) "read" then
       readExpenses (parameters action) (userId action)
     else if String.eqb (action_type action) "delete" then
       deleteExpense (parameters action) (userId action)
     else if String.eqb (action_type action) "analyze" then
       analyzeExpenses (parameters action) (userId action)
     else mret (failed ErrInvalidType))
    (fun error => mret (failed ErrThrown)).

End ExpenseActions.

(** Whether an expense action resolved with [success: true]. *)
Definition resolved_ok (r : Result Outcome) : bool :=
  match r with
  | Ok o => ok o
  | Throw _ => false
  end.

(** A query that yields rows of the table owned by [userId]: all of them,
    in the order of the table. *)
Definition owned_rows (t : Table) (userId : string) : list Obj :=
  filter (fun o => owner_differs o userId = false) (map_to_list (rows t)).*2.

(** The world differs from [w] at most in the fault plan of the store. *)
Definition only_faults_used {R} (w w0 : World R) : Prop :=
  db w0 = db w ∧ remote w0 = remote w ∧ isOnline w0 = isOnline w ∧
  isSyncing w0 = isSyncing w ∧ trace w0 = trace w.

(** ** Concrete actions and expenses *)

Module ActionExamples.

Import Examples.

Definition expense_of (id : N) (owner : string) (amount : Value) : Obj :=
  <["id" := num_of_N id]> (<["amount" := amount]>
  (<["owner_id" := VStr owner]> ∅)).

(** Two expenses of the user [u1], the second with an amount stored as a
    string, and one of the user [u2]. *)
Definition expenses_table : Table :=
  mkTable (<[KNum 1 := expense_of 1 "u1" (VNum (QArith_base.Qmake 500 1))]>
          (<[KNum 2 := expense_of 2 "u2" (VNum (QArith_base.Qmake 70 1))]>
          (<[KNum 3 := expense_of 3 "u1" (VStr "12")]> ∅))) 4.

Definition w_expenses : World Store :=
  mkWorld (set_expenses expenses_table empty_db) (mkStore ∅) true false [] [].

Definition by_id (id : N) : Obj := <["expenseId" := num_of_N id]> ∅.

Definition create_expense : AIAction :=
  mkAIAction "create" "expense" expense_params false "u1" 0.

(** What [detectAction] makes of a request to delete the first task. *)
Definition delete_first_task : AIAction :=
  mkAIAction "delete" "task" (<["index" := num_of_N 0]> ∅) true "u1" 0.

(** Stand-ins for the parts left open. *)
Definition no_render : Value → string := fun _ => EmptyString.
Definition not_modelled : Obj → string → M Store Outcome :=
  fun _ _ => mret (failed ErrInvalidType).

End ActionExamples.

(** * [ai-queue.ts]: [class AIQueueManager] *)

Module AIQueueManager.

(** [interface AIQueue] of [db.ts]; the [id] is the key of the row. The
    [result] holds what was assigned to it, [undefined] when absent. *)
Inductive TaskType := Summary | Quiz | Question | Evaluation.
Inductive InputType := Note | Document | Text.
Inductive Status := Pending | Processing | Done | Failed.

#[export] Instance Status_eq_dec : EqDecision Status.
Proof. solve_decision. Defined.

Record AIQueue := mkAIQueue {
  taskType : TaskType;
  inputType : InputType;
  inputRef : option string;
  inputText : option string;
  status : Status;
  result : Value;
  timestamp : Z;
  owner_id : string
}.

(** [{ status }] and [{ status, result }] as the changes of an update. *)
Definition set_status (s : Status) (t : AIQueue) : AIQueue :=
  mkAIQueue (taskType t) (inputType t) (inputRef t) (inputText t) s
            (result t) (timestamp t) (owner_id t).

Definition set_outcome (s : Status) (r : Value) (t : AIQueue) : AIQueue :=
  mkAIQueue (taskType t) (inputType t) (inputRef t) (inputText t) s
            r (timestamp t) (owner_id t).

Definition Task : Type := N * AIQueue.

(** The body posted to [/api/ai]. *)
Record Body := mkBody {
  body_taskType : TaskType;
  body_inputType : InputType;
  body_inputRef : option string;
  body_inputText : option string;
  body_ownerId : string
}.

Definition body_of (t : AIQueue) : Body :=
  mkBody (taskType t) (inputType t) (inputRef t) (inputText t) (owner_id t).

(** The service behind [fetch('/api/ai')], with a state of its own: for a
    body it yields [result.output], or nothing when the [fetch], the
    [response.json()] or the read of [result.output] throws. The status of
    the response is not looked at. *)
Class AIService (S : Type) := ai_step : Body → S → option Value * S.

Section Device.

Context {S : Type} `{!AIService S}.

(** The device: the [aiQueue] table with its key generator,
    [navigator.onLine], the fault plan of the local store, the service and
    the bodies posted so far. *)
Record Device := mkDevice {
  aiQueue : gmap N AIQueue;
  aiNext : N;
  onLine : bool;
  faults : list bool;
  service : S;
  posted : list Body
}.

Definition set_aiQueue (q : gmap N AIQueue) (d : Device) : Device :=
  mkDevice q (aiNext d) (onLine d) (faults d) (service d) (posted d).
Definition set_faults (fs : list bool) (d : Device) : Device :=
  mkDevice (aiQueue d) (aiNext d) (onLine d) fs (service d) (posted d).

Definition Q (A : Type) : Type := Device → Result A * Device.

Definition ret {A} (a : A) : Q A := fun d => (Ok a, d).

Definition bind {A B} (m : Q A) (k : A → Q B) : Q B :=
  fun d => match m d with
           | (Ok a, d') => k a d'
           | (Throw e, d') => (Throw e, d')
           end.

(** [try { body } catch (error) { handler }]. *)
Definition try_catch {A} (body : Q A) (handler : Error → Q A) : Q A :=
  fun d => match body d with
           | (Ok a, d') => (Ok a, d')
           | (Throw e, d') => handler e d'
           end.

(** A call that is not awaited: its outcome is dropped. *)
Definition fire_and_forget {A} (m : Q A) : Q unit :=
  fun d => (Ok tt, (m d).2).

(** Reading [navigator.onLine]. *)
Definition read {A} (f : Device → A) : Q A := fun d => (Ok (f d), d).

(** A request to the local store: it consumes one flag of the fault plan
    and rejects when the flag is set. *)
Definition storage {A} (f : Device → A * Device) : Q A :=
  fun d => match faults d with
           | true :: fs => (Throw StorageError, set_faults fs d)
           | false :: fs => let '(a, d') := f (set_faults fs d) in (Ok a, d')
           | [] => let '(a, d') := f d in (Ok a, d')
           end.

(** [await fetch('/api/ai', ...)], [await response.json()] and
    [result.output]. *)
Definition fetch_output (b : Body) : Q Value :=
  fun d => let '(r, s) := ai_step b (service d) in
           (match r with Some v => Ok v | None => Throw RemoteError end,
            mkDevice (aiQueue d) (aiNext d) (onLine d) (faults d) s
                     (posted d ++ [b])%list).

End Device.

Arguments Device S : clear implicits.
Arguments Q S A : clear implicits.

#[export] Instance Q_ret {S} : MRet (Q S) := fun A => @ret S A.
#[export] Instance Q_bind {S} : MBind (Q S) := fun A B k m => @bind S A B m k.

Section Manager.

Context {S : Type} `{!AIService S}.

(** The order of the primary key. *)
Definition key_le (x y : Task) : Prop := (x.1 ≤ y.1)%N.

#[export] Instance key_le_dec x y : Decision (key_le x y).
Proof. unfold key_le. apply _. Defined.

(** [db.aiQueue.where('status').equals('pending').toArray()]: the pending
    tasks, in the order of the [status] index, which is the order of the
    primary key among tasks of one status. *)
Definition pending (q : gmap N AIQueue) : list Task :=
  filter (fun x => status x.2 = Pending) (merge_sort key_le (map_to_list q)).

Definition db_aiQueue_add (t : AIQueue) : Q S N :=
  storage (fun d => (aiNext d,
                     mkDevice (<[aiNext d := t]> (aiQueue d)) (N.succ (aiNext d))
                              (onLine d) (faults d) (service d) (posted d))).

(** [db.aiQueue.update(key, changes)]: no error when the key is absent. *)
Definition db_aiQueue_update (k : N) (f : AIQueue → AIQueue) : Q S unit :=
  storage (fun d => (tt, set_aiQueue (alter f k (aiQueue d)) d)).

Definition db_aiQueue_pending : Q S (list Task) :=
  storage (fun d => (pending (aiQueue d), d)).

(** The body of the [for] loop of [processQueue], for one task of the
    array. *)
Definition process_task (task : Task) : Q S unit :=
  try_catch
    (db_aiQueue_update task.1 (set_status Processing);;
     output ← fetch_output (body_of task.2);
     db_aiQueue_update task.1 (set_outcome Done output))
    (fun error =>
       db_aiQueue_update task.1
         (set_outcome Failed (VStr "Failed to process AI request"))).

Fixpoint process_tasks (pendingTasks : list Task) : Q S unit :=
  match pendingTasks with
  | [] => mret tt
  | task :: rest => process_task task;; process_tasks rest
  end.

(** [processQueue()] *)
Definition processQueue : Q S unit :=
  pendingTasks ← db_aiQueue_pending;
  process_tasks pendingTasks.

(** [addToQueue(taskType, inputType, ownerId, options)]; [now] is the value
    of [new Date()]. The call of [processQueue] is not awaited. *)
Definition addToQueue (taskType : TaskType) (inputType : InputType)
    (ownerId : string) (inputRef inputText : option string) (now : Z)
    : Q S N :=
  id ← db_aiQueue_add
         (mkAIQueue taskType inputType inputRef inputText Pending VUndefined
                    now ownerId);
  online ← read onLine;
  (if (online : bool) then fire_and_forget processQueue else mret tt);;
  mret id.

(** [getResult(id)] *)
Definition getResult (id : N) : Q S (option AIQueue) :=
  storage (fun d => (aiQueue d !! id, d)).

(** [getPendingCount()] *)
Definition getPendingCount : Q S nat :=
  storage (fun d => (length (pending (aiQueue d)), d)).

(** What a task of the array has become when its turn of the loop is over,
    on a store that answers its requests: [done] with the output of the
    service, or [error] with the text of the [catch] block. *)
Definition settled (output : option Value) (t : AIQueue) : AIQueue :=
  match output with
  | Some v => set_outcome Done v t
  | None => set_outcome Failed (VStr "Failed to process AI request") t
  end.

(** The loop on a store that answers its requests, as a function of the
    table, the service and the bodies posted. *)
Fixpoint answer_all (tasks : list Task)
    (x : gmap N AIQueue * S * list Body) : gmap N AIQueue * S * list Body :=
  match tasks with
  | [] => x
  | task :: rest =>
      let '(q, s, sent) := x in
      let '(r, s') := ai_step (body_of task.2) s in
      answer_all rest
        (alter (settled r) task.1 q, s', (sent ++ [body_of task.2])%list)
  end.

(** The state of the service when it has answered the requests of
    [tasks], in order. *)
Definition service_after (tasks : list Task) (s : S) : S :=
  foldl (fun s' task => (ai_step (body_of task.2) s').2) s tasks.

(** Every key of the table is below the key generator. *)
Definition device_wf (d : Device S) : Prop :=
  map_Forall (fun k _ => (k < aiNext d)%N) (aiQueue d).

(** The fields of a task that no update of the manager writes. *)
Definition same_request (t t' : AIQueue) : Prop :=
  body_of t' = body_of t ∧ timestamp t' = timestamp t.

(** The row under [k] has been updated by the manager: it is no longer
    pending, and its request is as it was. *)
Definition moved (q q' : gmap N AIQueue) (k : N) : Prop :=
  ∃ t t', q !! k = Some t ∧ q' !! k = Some t' ∧
          status t' ≠ Pending ∧ same_request t t'.

(** *** Calls of [processQueue] that overlap *)

(** Where a call of [processQueue] stands between two of its [await]s:
    before the read of the pending tasks; in the loop, before one of the
    requests made for the task at hand, with the tasks still to come; or
    over, resolved or rejected. The requests made for a task are the update
    to [processing], the [fetch] with the reading of the response, the update
    to [done] with the output, and the update of the [catch] block. *)
Inductive Stage :=
  | Marking
  | Fetching
  | Storing (output : Value)
  | Failing.

Inductive Run :=
  | Reading
  | Working (stage : Stage) (task : Task) (rest : list Task)
  | Over (outcome : Result unit).

(** The head of the [for] loop. *)
Definition next_task (tasks : list Task) : Run :=
  match tasks with
  | [] => Over (Ok tt)
  | task :: rest => Working Marking task rest
  end.

(** One request of a call takes effect, and the call goes on to its next
    request: a rejected request inside the [try] block leads into the
    [catch] block, one inside the [catch] block rejects the call. *)
Definition advance (c : Run) (d : Device S) : Run * Device S :=
  match c with
  | Reading =>
      match db_aiQueue_pending d with
      | (Ok tasks, d') => (next_task tasks, d')
      | (Throw e, d') => (Over (Throw e), d')
      end
  | Working Marking task rest =>
      match db_aiQueue_update task.1 (set_status Processing) d with
      | (Ok _, d') => (Working Fetching task rest, d')
      | (Throw _, d') => (Working Failing task rest, d')
      end
  | Working Fetching task rest =>
      match fetch_output (body_of task.2) d with
      | (Ok output, d') => (Working (Storing output) task rest, d')
      | (Throw _, d') => (Working Failing task rest, d')
      end
  | Working (Storing output) task rest =>
      match db_aiQueue_update task.1 (set_outcome Done output) d with
      | (Ok _, d') => (next_task rest, d')
      | (Throw _, d') => (Working Failing task rest, d')
      end
  | Working Failing task rest =>
      match db_aiQueue_update task.1
              (set_outcome Failed (VStr "Failed to process AI request")) d with
      | (Ok _, d') => (next_task rest, d')
      | (Throw e, d') => (Over (Throw e), d')
      end
  | Over outcome => (Over outcome, d)
  end.

(** One call on its own, for [n] requests. *)
Fixpoint run_alone (n : nat) (c : Run) (d : Device S) : Run * Device S :=
  match n with
  | O => (c, d)
  | Datatypes.S n' => let '(c', d') := advance c d in run_alone n' c' d'
  end.

(** Two calls on one device, and a schedule that says which of the two
    has its next request take effect. A call that is over does nothing. *)
Inductive Turn := FirstCall | SecondCall.

Definition Overlap : Type := Device S * Run * Run.

Definition turn (t : Turn) (st : Overlap) : Overlap :=
  let '(d, c1, c2) := st in
  match t with
  | FirstCall => let '(c1', d') := advance c1 d in (d', c1', c2)
  | SecondCall => let '(c2', d') := advance c2 d in (d', c1, c2')
  end.

Definition run_two (schedule : list Turn) (st : Overlap) : Overlap :=
  foldl (fun st' t => turn t st') st schedule.

(** The bodies a call has yet to post, on a store that answers its
    requests. *)
Definition to_post (c : Run) : list Body :=
  match c with
  | Working Marking task rest | Working Fetching task rest =>
      body_of task.2 :: (body_of <$> rest.*2)
  | Working (Storing _) _ rest | Working Failing _ rest =>
      body_of <$> rest.*2
  | Reading | Over _ => []
  end.

(** A call in its loop, or over and resolved. *)
Definition under_way (c : Run) : Prop :=
  match c with
  | Reading | Over (Throw _) => False
  | Working _ _ _ | Over (Ok _) => True
  end.

(** [n] calls of [processQueue], one after the other. *)
Definition processed (n : nat) (d : Device S) : Device S :=
  Nat.iter n (fun d' => (processQueue d').2) d.

End Manager.

(** A service that is down, and one that answers every body with the same
    output. *)
Inductive Down := down.
#[export] Instance down_service : AIService Down := fun _ s => (None, s).

Inductive Echo := echo.
#[export] Instance echo_service : AIService Echo :=
  fun _ s => (Some (VStr "ok"), s).

End AIQueueManager.

(** ** Concrete devices *)

Module AIQueueExamples.

Import AIQueueManager.

Definition task_done : AIQueue :=
  mkAIQueue Question Text None (Some "why") Done (VStr "ok") 50 "u1".
Definition task_a : AIQueue :=
  mkAIQueue Summary Note (Some "n1") None Pending VUndefined 100 "u1".
Definition task_b : AIQueue :=
  mkAIQueue Quiz Text None (Some "what") Pending VUndefined 200 "u1".

Definition three_tasks : gmap N AIQueue :=
  <[1%N := task_done]> (<[2%N := task_a]> (<[3%N := task_b]> ∅)).

(** Online, in front of a service that answers, on a store that answers. *)
Definition d_online : Device Echo := mkDevice three_tasks 4 true [] echo [].

(** The store answers the read of the pending tasks and the first update,
    and rejects the request after them; the service answers, or is down. *)
Definition d_rejecting : Device Echo :=
  mkDevice three_tasks 4 true [false; false; true] echo [].
Definition d_down : Device Down :=
  mkDevice three_tasks 4 true [false; false; true] down [].

(** A schedule in which the two calls take turns. *)
Definition in_turns : list Turn :=
  concat (replicate 7 [FirstCall; SecondCall]).

End AIQueueExamples.

(** * [ai-security.ts]: [sanitizeFilename] *)

Module Security.

(** The class of the first pattern: slash, backslash, question mark, percent
    sign, asterisk, colon, vertical bar, double quote and angle brackets,
    given by their codes. *)
Definition special (a : ascii) : bool :=
  existsb (fun c => is_char c a) [47; 92; 63; 37; 42; 58; 124; 34; 60; 62]%N.

(** The class of the second pattern: a period or [\s]. *)
Definition dot_or_space (a : ascii) : bool := is_char 46 a || is_space a.

Fixpoint drop_dots (s : list ascii) : list ascii :=
  match s with
  | c :: s' => if dot_or_space c then drop_dots s' else s
  | [] => []
  end.

(** Removing the matches of the second pattern: the run of periods and
    spaces at the start, and the one at the end. *)
Definition strip (s : list ascii) : list ascii :=
  rev (drop_dots (rev (drop_dots s))).

(** [s.lastIndexOf(c)], with no index for [-1]. *)
Fixpoint lastIndexOf (c : N) (s : list ascii) : option nat :=
  match s with
  | [] => None
  | a :: s' =>
      match lastIndexOf c s' with
      | Some i => Some (S i)
      | None => if is_char c a then Some O else None
      end
  end.

(** [safe.substring(safe.lastIndexOf('.'))]: from [-1] the substring
    starts at 0. *)
Definition extension (safe : list ascii) : list ascii :=
  match lastIndexOf 46 safe with
  | Some i => drop i safe
  | None => safe
  end.

(** [safe] after the two replacements. *)
Definition cleaned (filename : list ascii) : list ascii :=
  strip ((fun c => if special c then ascii_of_N 45 else c) <$> filename).

(** [sanitizeFilename(filename)], on the characters of a string. A negative
    end of a substring counts as 0. *)
Definition sanitize_name (filename : list ascii) : list ascii :=
  let safe := cleaned filename in
  let safe :=
    if (255 <? length safe)%nat
    then let ext := extension safe in
         (take (255 - length ext) safe ++ ext)%list
    else safe in
  match safe with
  | [] => chars "unnamed-file"
  | _ => safe
  end.

Definition sanitizeFilename (filename : string) : string :=
  text (sanitize_name (chars filename)).

End Security.

(** ** The Supabase client behind [syncItem] *)

(** What an awaited call of the client comes to. The module [./supabase]
    that creates the client is not among the sources, so the client is a
    parameter. By its convention, on which the other callers in the
    repository rely ([const { data, error } = await ...; if (error) throw
    error]), a call resolves also when the request failed or was refused,
    and carries the failure in the value it resolves with. *)
Inductive Reply :=
  | Data
  | ErrorValue
  | Rejects.

Class SupabaseClient (R : Type) := client_step : Request → R → Reply * R.

(** The client as [syncItem] uses it: the call is awaited and the value it
    resolves with is not looked at. *)
Definition awaited {R} `{!SupabaseClient R} : RemoteBackend R :=
  fun c r =>
    let '(reply, r') := client_step c r in
    (match reply with Rejects => false | Data | ErrorValue => true end, r').

(** The request of [e] fails in every state of the remote, and the client
    reports it in the value the call resolves with. *)
Definition always_refused {R} `{!SupabaseClient R} (e : SyncQueue) : Prop :=
  ∀ r : R, (client_step (request_of e) r).1 = ErrorValue.

(** A client in front of a backend that refuses every request, or cannot be
    reached: every call resolves with [{ error }] and nothing is stored. *)
Inductive Refusing := refusing.

#[export] Instance refusing_client : SupabaseClient Refusing :=
  fun _ r => (ErrorValue, r).

#[export] Instance refusing_backend : RemoteBackend Refusing := awaited.

Module ClientExamples.

Import Examples.

(** One pending [create], online and idle, in front of the refusing
    client. *)
Definition w_refused : World Refusing :=
  mkWorld (db_with_note note_a (mkQueueTable (<[1%N := create_a 100]> ∅) 2))
          refusing true false [] [].

End ClientExamples.

(** * Proofs *)

Ltac unfold_m :=
  unfold mbind, M_bind, mret, M_ret, bind, ret, try_catch, try_finally,
    fire_and_forget, modify, read in *.

Section PassFacts.

Context {R : Type} `{!RemoteBackend R}.

Implicit Types (w : World R) (q : QueueTable) (item : Item).

Lemma storage_healthy {A} (f : LifeOSDatabase → A * LifeOSDatabase) w :
  faults w = [] →
  storage f w = (Ok (f (db w)).1, set_db (f (db w)).2 w).
Proof. intros Hf. unfold storage. rewrite Hf. by destruct (f (db w)). Qed.

Lemma sync_entry_healthy item w :
  faults w = [] →
  sync_entry item w =
    (Ok tt,
     mkWorld
       (set_syncQueue
          (settle_entry item (remote_step (request_of item.2) (remote w)).1
             (syncQueue (db w))) (db w))
       (remote_step (request_of item.2) (remote w)).2
       (isOnline w) (isSyncing w) []
       (trace w ++ [mkCall item.1 (request_of item.2)
                      (remote_step (request_of item.2) (remote w)).1])).
Proof.
  intros Hf. unfold sync_entry, syncItem, remote_call, settle_entry.
  unfold db_queue_delete, db_queue_update. unfold_m.
  destruct (remote_step (request_of item.2) (remote w)) as [[] r']; simpl.
  - rewrite storage_healthy by done. simpl. by rewrite Hf.
  - rewrite storage_healthy by done. simpl.
    destruct (5 <=? attempts item.2)%Z.
    + rewrite storage_healthy by done. simpl. by rewrite Hf.
    + simpl. by rewrite Hf.
Qed.

Lemma sync_loop_healthy queue w :
  faults w = [] →
  sync_loop queue w =
    (Ok tt,
     mkWorld
       (set_syncQueue (replay queue (syncQueue (db w)) (remote w)).1.2 (db w))
       (replay queue (syncQueue (db w)) (remote w)).2
       (isOnline w) (isSyncing w) []
       (trace w ++ (replay queue (syncQueue (db w)) (remote w)).1.1)).
Proof.
  revert w. induction queue as [|item rest IH]; intros w Hf.
  - simpl. unfold_m. destruct w as [[] ?]; simpl in *. subst.
    by rewrite app_nil_r.
  - simpl. unfold_m. rewrite sync_entry_healthy by done.
    rewrite IH by done. simpl. by rewrite <- app_assoc.
Qed.

Lemma sync_healthy w :
  faults w = [] → isSyncing w = false → isOnline w = true →
  sync w =
    (Ok tt,
     mkWorld
       (set_syncQueue
          (replay (toArray (syncQueue (db w))) (syncQueue (db w)) (remote w)).1.2
          (db w))
       (replay (toArray (syncQueue (db w))) (syncQueue (db w)) (remote w)).2
       true false []
       (trace w ++
        (replay (toArray (syncQueue (db w))) (syncQueue (db w)) (remote w)).1.1)).
Proof.
  intros Hf Hs Ho. unfold sync, db_queue_toArray. unfold_m.
  rewrite Hs, Ho. simpl.
  rewrite storage_healthy by done. simpl.
  rewrite sync_loop_healthy by done. simpl.
  unfold set_isSyncing. simpl. by rewrite Ho.
Qed.

Lemma pass_calls_healthy w :
  faults w = [] → isSyncing w = false → isOnline w = true →
  pass_calls w =
    (replay (toArray (syncQueue (db w))) (syncQueue (db w)) (remote w)).1.1.
Proof.
  intros Hf Hs Ho. unfold pass_calls. rewrite sync_healthy by done. simpl.
  by rewrite drop_app_length.
Qed.

End PassFacts.

(** ** The array read by [sync] *)

#[export] Instance index_le_total : Total index_le.
Proof.
  intros [k1 e1] [k2 e2]. unfold index_le. simpl.
  destruct (Z.lt_total (timestamp e1) (timestamp e2)) as [?|[?|?]]; auto.
  destruct (N.le_ge_cases k1 k2); auto.
Qed.

#[export] Instance index_le_trans : Transitive index_le.
Proof. intros [? ?] [? ?] [? ?]. unfold index_le. simpl. lia. Qed.

Lemma toArray_elem q k e : (k, e) ∈ toArray q ↔ qrows q !! k = Some e.
Proof.
  unfold toArray. rewrite merge_sort_Permutation. apply elem_of_map_to_list.
Qed.

Lemma toArray_NoDup q : NoDup (toArray q).*1.
Proof.
  unfold toArray. rewrite merge_sort_Permutation.
  apply NoDup_fst_map_to_list.
Qed.

Lemma toArray_sorted q : StronglySorted index_le (toArray q).
Proof. apply StronglySorted_merge_sort; apply _. Qed.

Lemma toArray_keys q k : k ∈ (toArray q).*1 ↔ is_Some (qrows q !! k).
Proof.
  rewrite list_elem_of_fmap. split.
  - intros [[k' e] [-> Hin]]. apply toArray_elem in Hin. by exists e.
  - intros [e He]. exists (k, e). split; [done|]. by apply toArray_elem.
Qed.

(** ** What a pass leaves in the outbox *)

Section ReplayFacts.

Context {R : Type} `{!RemoteBackend R}.

Implicit Types (q : QueueTable) (item : Item) (r : R).

Lemma settle_entry_lookup item ok q k :
  qrows (settle_entry item ok q) !! k =
    if decide (k = item.1) then settle_row item.2 ok (qrows q !! k)
    else qrows q !! k.
Proof.
  unfold settle_entry, settle_row, queue_delete, queue_update.
  destruct ok; simpl.
  - case_decide; subst; [apply lookup_delete_eq | by apply lookup_delete_ne].
  - destruct (5 <=? attempts item.2)%Z; simpl.
    + case_decide; subst; [apply lookup_delete_eq |].
      rewrite lookup_delete_ne by done. by apply lookup_alter_ne.
    + case_decide; subst; [apply lookup_alter_eq | by apply lookup_alter_ne].
Qed.

Lemma settle_entry_qnext item ok q : qnext (settle_entry item ok q) = qnext q.
Proof.
  unfold settle_entry. destruct ok; [done|].
  by destruct (5 <=? attempts item.2)%Z.
Qed.

Lemma replay_ids queue q r :
  call_id <$> (replay queue q r).1.1 = queue.*1.
Proof.
  revert q r. induction queue as [|item rest IH]; intros q r; [done|].
  simpl. by rewrite IH.
Qed.

Lemma replay_requests queue q r :
  call_request <$> (replay queue q r).1.1 = (fun item => request_of item.2) <$> queue.
Proof.
  revert q r. induction queue as [|item rest IH]; intros q r; [done|].
  simpl. by rewrite IH.
Qed.

Lemma replay_qnext queue q r : qnext (replay queue q r).1.2 = qnext q.
Proof.
  revert q r. induction queue as [|item rest IH]; intros q r; [done|].
  simpl. rewrite IH. apply settle_entry_qnext.
Qed.

Lemma replay_call_id queue q r c :
  c ∈ (replay queue q r).1.1 → call_id c ∈ queue.*1.
Proof.
  intros Hc. rewrite <- (replay_ids queue q r).
  apply list_elem_of_fmap. by exists c.
Qed.

Lemma replay_lookup_notin queue q r k :
  k ∉ queue.*1 → qrows (replay queue q r).1.2 !! k = qrows q !! k.
Proof.
  revert q r. induction queue as [|item rest IH]; intros q r Hk; [done|].
  simpl in *. apply not_elem_of_cons in Hk as [Hne Hk].
  rewrite IH by done. rewrite settle_entry_lookup. by case_decide.
Qed.

Lemma replay_lookup_in queue q r k e c :
  NoDup queue.*1 → (k, e) ∈ queue →
  c ∈ (replay queue q r).1.1 → call_id c = k →
  call_request c = request_of e ∧
  qrows (replay queue q r).1.2 !! k = settle_row e (call_ok c) (qrows q !! k).
Proof.
  revert q r. induction queue as [|item rest IH]; intros q r Hnd Hin Hc Hid.
  { by apply elem_of_nil in Hin. }
  simpl in *. apply NoDup_cons in Hnd as [Hfresh Hnd].
  apply elem_of_cons in Hin as [<-|Hin].
  - apply elem_of_cons in Hc as [->|Hc].
    + simpl. split; [done|].
      rewrite replay_lookup_notin by done.
      rewrite settle_entry_lookup. by case_decide.
    + apply replay_call_id in Hc. by rewrite Hid in Hc.
  - assert (k ≠ item.1) as Hne.
    { intros ->. apply Hfresh. apply list_elem_of_fmap. by exists (item.1, e). }
    apply elem_of_cons in Hc as [->|Hc]; [done|].
    destruct (IH _ _ Hnd Hin Hc Hid) as [Hreq Hlk]. split; [done|].
    rewrite Hlk, settle_entry_lookup. by case_decide.
Qed.

Lemma replay_called queue q r k e :
  (k, e) ∈ queue → ∃ c, c ∈ (replay queue q r).1.1 ∧ call_id c = k.
Proof.
  intros Hin.
  assert (k ∈ call_id <$> (replay queue q r).1.1) as Hk.
  { rewrite replay_ids. apply list_elem_of_fmap. by exists (k, e). }
  apply list_elem_of_fmap in Hk as [c [-> Hc]]. by exists c.
Qed.

End ReplayFacts.

(** ** Frame rules *)

Section Frames.

Context {R : Type} `{!RemoteBackend R}.
Context (P : relation (World R)) `{!PreOrder P}.

Lemma respects_ret {A} (a : A) : respects P (mret a : M R A).
Proof. intros w. simpl. reflexivity. Qed.

Lemma respects_bind {A B} (m : M R A) (k : A → M R B) :
  respects P m → (∀ a, respects P (k a)) → respects P (m ≫= k).
Proof.
  intros Hm Hk w. unfold_m. specialize (Hm w).
  destruct (m w) as [[a|e] w1]; simpl in *; [|done].
  etrans; [done|]. apply Hk.
Qed.

Lemma respects_try_catch {A} (m : M R A) (h : Error → M R A) :
  respects P m → (∀ e, respects P (h e)) → respects P (try_catch m h).
Proof.
  intros Hm Hh w. unfold_m. specialize (Hm w).
  destruct (m w) as [[a|e] w1]; simpl in *; [done|].
  etrans; [done|]. apply Hh.
Qed.

Lemma respects_try_finally {A} (m : M R A) (cleanup : World R → World R) :
  respects P m → (∀ w, P w (cleanup w)) → respects P (try_finally m cleanup).
Proof.
  intros Hm Hc w. unfold_m. specialize (Hm w).
  destruct (m w) as [r w1]; simpl in *. etrans; [done|]. apply Hc.
Qed.

Lemma respects_fire_and_forget {A} (m : M R A) :
  respects P m → respects P (fire_and_forget m).
Proof. intros Hm w. apply Hm. Qed.

Lemma respects_read {A} (f : World R → A) : respects P (read f).
Proof. intros w. simpl. reflexivity. Qed.

Lemma respects_modify (f : World R → World R) :
  (∀ w, P w (f w)) → respects P (modify f).
Proof. intros Hf w. apply Hf. Qed.

Lemma respects_storage {A} (f : LifeOSDatabase → A * LifeOSDatabase) :
  (∀ w fs, P w (set_faults fs w)) →
  (∀ w, P w (set_db (f (db w)).2 w)) →
  respects P (storage f).
Proof.
  intros Hfs Hf w. unfold storage.
  destruct (faults w) as [|[] fs]; simpl.
  - specialize (Hf w). by destruct (f (db w)).
  - apply Hfs.
  - etrans; [apply (Hfs w fs)|]. specialize (Hf (set_faults fs w)).
    simpl in Hf. by destruct (f (db w)).
Qed.

End Frames.

Section FrameInstances.

Context {R : Type} `{!RemoteBackend R}.

#[export] Instance same_flags_preorder : PreOrder (@same_flags R).
Proof.
  split; [by intros w|]. intros w1 w2 w3 [? ?] [? ?].
  unfold same_flags. split; congruence.
Qed.

#[export] Instance outbox_shrinks_preorder : PreOrder (@outbox_shrinks R).
Proof.
  split; [by intros w|]. intros w1 w2 w3 [H1 E1] [H2 E2].
  split; [auto | congruence].
Qed.

Lemma storage_flags {A} (f : LifeOSDatabase → A * LifeOSDatabase) :
  respects (@same_flags R) (storage f).
Proof. by apply respects_storage; [apply _|..]. Qed.

Lemma remote_call_flags k c : respects (@same_flags R) (remote_call k c).
Proof.
  intros w. unfold remote_call. by destruct (remote_step c (remote w)) as [[] r].
Qed.

Lemma sync_entry_flags item : respects (@same_flags R) (sync_entry item).
Proof.
  unfold sync_entry. apply respects_try_catch; [apply _|..].
  - apply respects_bind; [apply _|apply remote_call_flags|].
    intros _. apply storage_flags.
  - intros _. apply respects_bind; [apply _|apply storage_flags|].
    intros _. destruct (5 <=? attempts item.2)%Z;
      [apply storage_flags | by apply respects_ret; apply _].
Qed.

Lemma remote_call_shrinks k c : respects (@outbox_shrinks R) (remote_call k c).
Proof.
  intros w. unfold remote_call. by destruct (remote_step c (remote w)) as [[] r].
Qed.

Lemma queue_delete_shrinks k :
  respects (@outbox_shrinks R) (db_queue_delete k).
Proof.
  apply respects_storage; [apply _|done|]. intros w. split; [|done].
  intros k' [e He]. simpl in He. apply lookup_delete_Some in He as [_ He].
  by exists e.
Qed.

Lemma queue_update_shrinks k a :
  respects (@outbox_shrinks R) (db_queue_update k a).
Proof.
  apply respects_storage; [apply _|done|]. intros w. split; [|done].
  intros k' Hk'. simpl in Hk'. by apply lookup_alter_is_Some in Hk'.
Qed.

Lemma sync_entry_shrinks item : respects (@outbox_shrinks R) (sync_entry item).
Proof.
  unfold sync_entry. apply respects_try_catch; [apply _|..].
  - apply respects_bind; [apply _|apply remote_call_shrinks|].
    intros _. apply queue_delete_shrinks.
  - intros _. apply respects_bind; [apply _|apply queue_update_shrinks|].
    intros _. destruct (5 <=? attempts item.2)%Z;
      [apply queue_delete_shrinks | by apply respects_ret; apply _].
Qed.

Lemma sync_loop_shrinks queue : respects (@outbox_shrinks R) (sync_loop queue).
Proof.
  induction queue as [|item rest IH]; simpl.
  - by apply respects_ret; apply _.
  - apply respects_bind; [apply _|apply sync_entry_shrinks|]. by intros _.
Qed.

Lemma sync_shrinks : respects (@outbox_shrinks R) sync.
Proof.
  unfold sync. apply respects_bind; [apply _|by apply respects_read; apply _|].
  intros syncing.
  apply respects_bind; [apply _|by apply respects_read; apply _|].
  intros online. destruct (syncing || negb online).
  { by apply respects_ret; apply _. }
  apply respects_bind; [apply _|by apply respects_modify|]. intros _.
  apply respects_try_finally; [apply _| |done].
  apply respects_bind; [apply _| |intros queue; apply sync_loop_shrinks].
  unfold db_queue_toArray. by apply respects_storage; [apply _|..].
Qed.

End FrameInstances.

(** ** Well-formed outboxes *)

Lemma queue_add_wf e q : queue_wf q → queue_wf (queue_add e q).2.
Proof.
  unfold queue_wf. simpl. intros Hwf. apply map_Forall_insert_2; [lia|].
  intros k e' He'. apply Hwf in He'. simpl in He'. lia.
Qed.

Lemma queue_delete_wf k q : queue_wf q → queue_wf (queue_delete k q).
Proof.
  unfold queue_wf. simpl. intros Hwf k' e He.
  apply lookup_delete_Some in He as [_ He]. by apply Hwf in He.
Qed.

Lemma queue_update_wf k a q : queue_wf q → queue_wf (queue_update k a q).
Proof.
  unfold queue_wf. simpl. intros Hwf k' e He.
  assert (is_Some (qrows q !! k')) as [e' He'].
  { apply (lookup_alter_is_Some (set_attempts a) (qrows q) k k'). by exists e. }
  by apply Hwf in He'.
Qed.

Section WellFormed.

Context {R : Type} `{!RemoteBackend R}.

#[export] Instance keeps_wf_preorder : PreOrder (@keeps_wf R).
Proof.
  split; [intros w Hwf; exact Hwf|].
  intros w1 w2 w3 H1 H2 Hwf. apply H2, H1, Hwf.
Qed.

Lemma remote_call_wf k c : respects (@keeps_wf R) (remote_call k c).
Proof.
  intros w Hwf. unfold remote_call.
  by destruct (remote_step c (remote w)) as [[] r].
Qed.

Lemma sync_entry_wf item : respects (@keeps_wf R) (sync_entry item).
Proof.
  unfold sync_entry, db_queue_delete, db_queue_update.
  apply respects_try_catch; [apply _|..].
  - apply respects_bind; [apply _|apply remote_call_wf|]. intros _.
    apply respects_storage; [apply _|by intros ? ? ?|]. intros w Hwf. by apply queue_delete_wf.
  - intros _. apply respects_bind; [apply _| |].
    + apply respects_storage; [apply _|by intros ? ? ?|]. intros w Hwf. by apply queue_update_wf.
    + intros _. destruct (5 <=? attempts item.2)%Z.
      * apply respects_storage; [apply _|by intros ? ? ?|]. intros w Hwf. by apply queue_delete_wf.
      * by apply respects_ret; apply _.
Qed.

Lemma sync_loop_wf queue : respects (@keeps_wf R) (sync_loop queue).
Proof.
  induction queue as [|item rest IH]; simpl.
  - by apply respects_ret; apply _.
  - apply respects_bind; [apply _|apply sync_entry_wf|]. by intros _.
Qed.

Lemma sync_wf : respects (@keeps_wf R) sync.
Proof.
  unfold sync. apply respects_bind; [apply _|by apply respects_read; apply _|].
  intros syncing.
  apply respects_bind; [apply _|by apply respects_read; apply _|].
  intros online. destruct (syncing || negb online).
  { by apply respects_ret; apply _. }
  apply respects_bind; [apply _|by apply respects_modify; intros ? ?|]. intros _.
  apply respects_try_finally; [apply _| |by intros ? ?].
  apply respects_bind; [apply _| |intros queue; apply sync_loop_wf].
  unfold db_queue_toArray.
  by apply respects_storage; [apply _|intros ? ? ?|intros ? ?].
Qed.

Lemma addToQueue_wf name op rid payload now :
  respects (@keeps_wf R) (addToQueue name op rid payload now).
Proof.
  unfold addToQueue, db_queue_add.
  apply respects_bind; [apply _| |].
  - apply respects_storage; [apply _|by intros ? ? ?|]. intros w Hwf. by apply queue_add_wf.
  - intros _. apply respects_bind; [apply _|by apply respects_read; apply _|].
    intros [].
    + apply respects_fire_and_forget. apply sync_wf.
    + by apply respects_ret; apply _.
Qed.

End WellFormed.

(** ** Properties of a pass *)

Section PassClaims.

Context {R : Type} `{!RemoteBackend R}.

Implicit Types (w : World R).

Lemma entity_of_tables d d' name rid :
  entity_tables d = entity_tables d' → entity_of d name rid = entity_of d' name rid.
Proof.
  unfold entity_tables, entity_of, table_of. intros Heq.
  injection Heq as -> -> -> -> -> -> -> ->. done.
Qed.

Lemma pass_call_entry w c :
  faults w = [] → isSyncing w = false → isOnline w = true →
  c ∈ pass_calls w →
  ∃ e, qrows (syncQueue (db w)) !! call_id c = Some e ∧
       call_request c = request_of e ∧
       qrows (syncQueue (db (sync w).2)) !! call_id c =
         settle_row e (call_ok c) (Some e).
Proof.
  intros Hf Hs Ho Hc. rewrite pass_calls_healthy in Hc by done.
  pose proof (replay_call_id _ _ _ _ Hc) as Hk.
  apply list_elem_of_fmap in Hk as [[k e] [Hk Hin]]. simpl in Hk.
  exists e. pose proof Hin as He. apply toArray_elem in He.
  rewrite Hk. split; [done|].
  destruct (replay_lookup_in _ _ _ _ _ _ (toArray_NoDup _) Hin Hc Hk)
    as [Hreq Hlk].
  split; [done|]. rewrite sync_healthy by done. simpl.
  by rewrite Hlk, He.
Qed.

(** C2 (amended). A drain leaves every local entity record as it was, so
    it does not set the [synced] flag of any entity; and when the local store
    is healthy, every outbox entry whose remote replay succeeds during the
    drain is removed from the outbox. *)
Theorem sync_success_removes_entry w c :
  entity_tables (db (sync w).2) = entity_tables (db w) ∧
  (∀ name rid, entity_of (db (sync w).2) name rid = entity_of (db w) name rid) ∧
  (faults w = [] → isSyncing w = false → isOnline w = true →
   c ∈ pass_calls w → call_ok c = true →
   qrows (syncQueue (db (sync w).2)) !! call_id c = None).
Proof.
  split_and!.
  - apply sync_shrinks.
  - intros. apply entity_of_tables. apply sync_shrinks.
  - intros Hf Hs Ho Hc Hok.
    destruct (pass_call_entry w c) as (e & _ & _ & ->); [done..|].
    by rewrite Hok.
Qed.

(** X28. When the awaited call of the client rejects during a drain and
    the entry's attempt count is below the bound of 5, the drain increments
    its attempt counter by one and leaves the entry in the outbox. *)
Theorem sync_failure_increments_attempts w k e c :
  faults w = [] → isSyncing w = false → isOnline w = true →
  qrows (syncQueue (db w)) !! k = Some e → (attempts e < 5)%Z →
  c ∈ pass_calls w → call_id c = k → call_ok c = false →
  qrows (syncQueue (db (sync w).2)) !! k =
    Some (set_attempts (attempts e + 1) e).
Proof.
  intros Hf Hs Ho He Ha Hc Hid Hok.
  destruct (pass_call_entry w c) as (e' & He' & _ & Hlk); [done..|].
  rewrite Hid in *. rewrite He in He'. injection He' as <-.
  rewrite Hlk, Hok. unfold settle_row.
  destruct (Z.leb_spec 5 (attempts e)); [lia|done].
Qed.

Lemma swallows_storage {A} (f : LifeOSDatabase → A * LifeOSDatabase) :
  swallows_remote_errors (storage f : M R A).
Proof.
  intros w. unfold storage. destruct (faults w) as [|[] fs]; simpl; [|done|].
  all: by destruct (f (db w)).
Qed.

Lemma swallows_bind {A B} (m : M R A) (k : A → M R B) :
  swallows_remote_errors m → (∀ a, swallows_remote_errors (k a)) →
  swallows_remote_errors (m ≫= k).
Proof.
  intros Hm Hk w. unfold_m. specialize (Hm w).
  destruct (m w) as [[a|e] w1]; simpl in *; [apply Hk|].
  intros Heq. injection Heq as ->. by apply Hm.
Qed.

Lemma swallows_try_catch {A} (m : M R A) (h : Error → M R A) :
  (∀ e, swallows_remote_errors (h e)) →
  swallows_remote_errors (try_catch m h).
Proof.
  intros Hh w. unfold_m. destruct (m w) as [[a|e] w1]; simpl; [done|apply Hh].
Qed.

Lemma swallows_sync_entry item : swallows_remote_errors (sync_entry item).
Proof.
  unfold sync_entry. apply swallows_try_catch. intros _.
  apply swallows_bind; [apply swallows_storage|]. intros _.
  destruct (5 <=? attempts item.2)%Z; [apply swallows_storage|by intros w].
Qed.

Lemma swallows_sync_loop queue : swallows_remote_errors (sync_loop queue).
Proof.
  induction queue as [|item rest IH]; simpl; [by intros w|].
  apply swallows_bind; [apply swallows_sync_entry|by intros _].
Qed.

Lemma swallows_sync : swallows_remote_errors sync.
Proof.
  intros w. unfold sync. unfold_m.
  destruct (isSyncing w || negb (isOnline w)); simpl; [done|].
  pose proof (swallows_bind db_queue_toArray sync_loop
                (swallows_storage _) swallows_sync_loop
                (set_isSyncing true w)) as Hb.
  unfold_m.
  by destruct (match db_queue_toArray _ with (Ok a, w') => _ | _ => _ end).
Qed.

(** C9. The failure of a replay never leaves [sync]: whatever the remote
    backend answers and whatever the local store does, [sync] does not
    reject with the error of a remote call, which is caught in the loop
    body. And on a healthy local store the loop visits every entry of the
    array read at the start of the pass, in the order of the array, whatever
    the remote answers to each call, and [sync] resolves. *)
Theorem sync_continues_past_failures w :
  (sync w).1 ≠ Throw RemoteError ∧
  (faults w = [] → isSyncing w = false → isOnline w = true →
   (sync w).1 = Ok tt ∧
   call_id <$> pass_calls w = (toArray (syncQueue (db w))).*1 ∧
   call_request <$> pass_calls w =
     (fun item => request_of item.2) <$> toArray (syncQueue (db w))).
Proof.
  split; [apply swallows_sync|].
  intros Hf Hs Ho. rewrite pass_calls_healthy by done.
  rewrite sync_healthy by done. simpl.
  split; [done|]. split; [apply replay_ids | apply replay_requests].
Qed.

(** C10. A call of [sync] that starts a pass leaves [isSyncing] false when
    it completes, for every fault plan of the local store and every remote
    backend: also when a storage request rejects while the outbox is read or
    an entry is updated, and the exception leaves [sync]. *)
Theorem sync_resets_isSyncing w :
  isSyncing w = false → isOnline w = true →
  isSyncing (sync w).2 = false.
Proof.
  intros Hs Ho. unfold sync. unfold_m. rewrite Hs, Ho. simpl.
  by destruct (match db_queue_toArray _ with (Ok a, w') => _ | _ => _ end).
Qed.

(** C8. A call of [addToQueue] made while offline, on a healthy and
    well-formed outbox, resolves; it adds under a fresh key one entry with
    [attempts = 0] and the given timestamp, leaves every other entry alone,
    makes no remote call and starts no pass. *)
Theorem addToQueue_offline w name op rid payload now :
  isOnline w = false → faults w = [] → queue_wf (syncQueue (db w)) →
  (addToQueue name op rid payload now w).1 = Ok tt ∧
  qrows (syncQueue (db w)) !! qnext (syncQueue (db w)) = None ∧
  qrows (syncQueue (db (addToQueue name op rid payload now w).2)) =
    <[qnext (syncQueue (db w)) := mkSyncQueue name op rid payload now 0]>
      (qrows (syncQueue (db w))) ∧
  trace (addToQueue name op rid payload now w).2 = trace w ∧
  remote (addToQueue name op rid payload now w).2 = remote w ∧
  isSyncing (addToQueue name op rid payload now w).2 = isSyncing w ∧
  isOnline (addToQueue name op rid payload now w).2 = false.
Proof.
  intros Ho Hf Hwf. unfold addToQueue, db_queue_add. unfold_m.
  rewrite storage_healthy by done. simpl. rewrite Ho. simpl.
  repeat split; try done.
  destruct (qrows (syncQueue (db w)) !! qnext (syncQueue (db w))) eqn:E; [|done].
  apply Hwf in E. simpl in E. lia.
Qed.

End PassClaims.

(** ** Properties of the interleaved engine *)

Section InterleavingFacts.

Context {R : Type} `{!RemoteBackend R}.

Implicit Types (w : World R) (st : Engine R).

Lemma one_pass_sync_call st : one_pass st → one_pass (sync_call st).
Proof.
  unfold one_pass, sync_call.
  destruct (isSyncing (world st)) eqn:Hs; simpl; [by rewrite Hs|].
  destruct (isOnline (world st)); simpl; [|by rewrite Hs].
  intros Hl. rewrite length_app, Hl. done.
Qed.

Lemma one_pass_finish st i w :
  one_pass st → is_Some (suspended st !! i) → one_pass (finish i w st).
Proof.
  unfold one_pass, finish. simpl. intros Hl [t Ht].
  pose proof (lookup_lt_Some _ _ _ Ht) as Hi.
  rewrite length_delete by eauto.
  destruct (isSyncing (world st)); lia.
Qed.

Lemma one_pass_continue st i rest w :
  one_pass st → is_Some (suspended st !! i) →
  isSyncing w = isSyncing (world st) →
  one_pass (continue i rest w st).
Proof.
  intros Hl Hi Hw. destruct rest as [|item rest]; simpl.
  - by apply one_pass_finish.
  - unfold one_pass in *. simpl. by rewrite length_insert, Hw.
Qed.

Lemma one_pass_step st ev st' :
  one_pass st → step ev st = Some st' → one_pass st'.
Proof.
  intros Hl Hstep. destruct ev; simpl in Hstep.
  - injection Hstep as <-. by apply one_pass_sync_call.
  - by injection Hstep as <-.
  - injection Hstep as <-. by apply one_pass_sync_call.
  - unfold db_queue_add in Hstep.
    match type of Hstep with context [storage ?f ?w0] =>
      pose proof (storage_flags f w0) as [Hs _];
      destruct (storage f w0) as [[] w1] end; simpl in *;
      injection Hstep as <-; unfold one_pass in *; simpl; by rewrite Hs.
  - destruct (enqueuing st) as [|n]; [done|]. injection Hstep as <-.
    destruct (isOnline (world st)); [by apply one_pass_sync_call | done].
  - unfold resume in Hstep.
    destruct (suspended st !! i) as [t|] eqn:Ht; [|done].
    destruct t as [|[|item rest]].
    + unfold db_queue_toArray in Hstep.
      match type of Hstep with context [storage ?f ?w0] =>
        pose proof (storage_flags f w0) as [Hs _];
        destruct (storage f w0) as [[] w1] end; simpl in *;
        injection Hstep as <-.
      * by apply one_pass_continue.
      * by apply one_pass_finish.
    + injection Hstep as <-. by apply one_pass_finish.
    + pose proof (sync_entry_flags item (world st)) as [Hs _].
      destruct (sync_entry item (world st)) as [[] w1]; simpl in *;
        injection Hstep as <-.
      * by apply one_pass_continue.
      * by apply one_pass_finish.
Qed.

Lemma reachable_one_pass st : reachable st → one_pass st.
Proof.
  induction 1 as [st ([o Hs] & Ht & _)|st ev st' _ IH Hstep].
  - unfold one_pass. injection Hs as _ Hs. by rewrite Hs, Ht.
  - by eapply one_pass_step.
Qed.

(** A pass that no other callback interrupts is the run of [sync]. *)
Lemma loop_uninterrupted item rest w n :
  ∃ k, run (replicate k (EvResume 0)) (mkEngine w [Looping (item :: rest)] n)
       = Some (mkEngine (set_isSyncing false (sync_loop (item :: rest) w).2) [] n).
Proof.
  revert item w. induction rest as [|next rest IH]; intros item w.
  - exists 1%nat. simpl. unfold resume. simpl. unfold_m.
    by destruct (sync_entry item w) as [[[]|e] w1].
  - destruct (sync_entry item w) as [[[]|e] w1] eqn:E.
    + destruct (IH next w1) as [k Hk]. exists (S k).
      simpl in *. unfold resume. simpl. rewrite E. simpl. rewrite Hk.
      unfold_m. by rewrite E.
    + exists 1%nat. simpl. unfold resume. simpl. rewrite E. simpl.
      unfold_m. by rewrite E.
Qed.

Lemma sync_uninterrupted st :
  suspended st = [] → isSyncing (world st) = false → isOnline (world st) = true →
  ∃ k, run (EvSync :: replicate k (EvResume 0)) st
       = Some (mkEngine (sync (world st)).2 [] (enqueuing st)).
Proof.
  destruct st as [w l n]. simpl. intros -> Hs Ho.
  unfold sync_call, sync. simpl. unfold_m. rewrite Hs, Ho. simpl.
  destruct (db_queue_toArray (set_isSyncing true w)) as [[queue|e] w1] eqn:E.
  - destruct queue as [|item rest].
    + exists 1%nat. simpl. unfold resume. simpl. by rewrite E.
    + destruct (loop_uninterrupted item rest w1 n) as [k Hk].
      exists (S k). simpl in *. unfold resume. simpl. rewrite E. simpl.
      rewrite Hk. simpl.
      by destruct ((sync_entry item ≫= λ _, sync_loop rest) w1).
  - exists 1%nat. simpl. unfold resume. simpl. by rewrite E.
Qed.

(** C6. In every reachable state at most one pass is in flight; and while
    [isSyncing] is set, a further call of [sync] returns at its guard: the
    engine, with its outbox, remote backend, trace of calls and flags, is
    exactly as before, so the flag does not drop and rise again. *)
Theorem sync_reentrancy st :
  reachable st →
  (length (suspended st) ≤ 1)%nat ∧
  (isSyncing (world st) = true →
     length (suspended st) = 1%nat ∧
     step EvSync st = Some st ∧
     sync (world st) = (Ok tt, world st)).
Proof.
  intros Hr. apply reachable_one_pass in Hr. unfold one_pass in Hr. split.
  - destruct (isSyncing (world st)); lia.
  - intros Hs. rewrite Hs in Hr. split; [done|]. split.
    + simpl. unfold sync_call. by rewrite Hs.
    + unfold sync. unfold_m. by rewrite Hs.
Qed.

(** C7 (amended). A pass is started only while online: every event that
    takes [isSyncing] from false to true ends in a state where [isOnline] is
    true, and adds the one pass it starts. *)
Theorem sync_starts_only_online st ev st' :
  step ev st = Some st' →
  isSyncing (world st) = false → isSyncing (world st') = true →
  isOnline (world st') = true ∧ suspended st' = (suspended st ++ [Reading])%list.
Proof.
  intros Hstep Hs Hs'.
  assert (∀ st1, isSyncing (world st1) = false →
            isSyncing (world (sync_call st1)) = true →
            isOnline (world (sync_call st1)) = true ∧
            suspended (sync_call st1) = (suspended st1 ++ [Reading])%list) as Hcall.
  { intros st1 H1. unfold sync_call. rewrite H1. simpl.
    destruct (isOnline (world st1)) eqn:Ho; simpl; [by rewrite Ho|congruence]. }
  destruct ev; simpl in Hstep.
  - injection Hstep as <-. by apply Hcall in Hs'.
  - injection Hstep as <-. simpl in *. congruence.
  - injection Hstep as <-. by apply Hcall.
  - unfold db_queue_add in Hstep.
    match type of Hstep with context [storage ?f ?w0] =>
      pose proof (storage_flags f w0) as [Hf _];
      destruct (storage f w0) as [[] w1] end; simpl in *;
      injection Hstep as <-; simpl in *; congruence.
  - destruct (enqueuing st) as [|n]; [done|]. injection Hstep as <-.
    destruct (isOnline (world st)); [|simpl in *; congruence].
    by apply Hcall in Hs'.
  - unfold resume in Hstep.
    destruct (suspended st !! i) as [t|]; [|done].
    destruct t as [|[|item rest]].
    + unfold db_queue_toArray in Hstep.
      match type of Hstep with context [storage ?f ?w0] =>
        pose proof (storage_flags f w0) as [Hf _];
        destruct (storage f w0) as [[queue|] w1] end; simpl in *;
        injection Hstep as <-; [|done].
      destruct queue; simpl in *; congruence.
    + by injection Hstep as <-.
    + pose proof (sync_entry_flags item (world st)) as [Hf _].
      destruct (sync_entry item (world st)) as [[] w1]; simpl in *;
        injection Hstep as <-; [|done].
      destruct rest; simpl in *; congruence.
Qed.

End InterleavingFacts.

(** ** Replay order *)

Lemma toArray_ids_ascending q :
  timestamps_monotone q → StronglySorted N.lt (toArray q).*1.
Proof.
  intros Hmono.
  pose proof (toArray_sorted q) as Hs. pose proof (toArray_NoDup q) as Hnd.
  assert (∀ k e, (k, e) ∈ toArray q → qrows q !! k = Some e) as Hin.
  { intros k e. apply toArray_elem. }
  induction Hs as [|[k e] l Hs IH Hall]; simpl in *; [constructor|].
  apply NoDup_cons in Hnd as [Hfresh Hnd].
  constructor.
  - apply IH; [done|]. intros k' e' H'. apply Hin. by right.
  - apply Forall_fmap. rewrite Forall_forall in Hall |- *.
    intros [k' e'] H'. simpl.
    assert (k ≠ k') as Hne.
    { intros ->. apply Hfresh. apply list_elem_of_fmap. by exists (k', e'). }
    pose proof (Hin k e ltac:(left)) as Hk.
    pose proof (Hin k' e' ltac:(by right)) as Hk'.
    destruct (N.lt_total k k') as [?|[?|Hgt]]; [done..|].
    pose proof (Hmono _ _ Hk' _ _ Hk Hgt) as Hts. simpl in Hts.
    destruct (Hall _ H') as [Hlt|[_ Hle]]; simpl in *; lia.
Qed.

(** ** The store double under replay *)

Lemma store_step_lookup (e : SyncQueue) (r : Doubles.Store) key :
  Doubles.stored (remote_step (request_of e) r).2 !! key =
    if decide (target e = Some key) then final_state e
    else Doubles.stored r !! key.
Proof.
  unfold target, final_state, remote_step, Doubles.store_backend.
  destruct (request_of e) as [t [o|]|t i]; simpl.
  - destruct (Doubles.payload_id o) as [i|]; simpl; [|done].
    case_decide as Hk.
    + injection Hk as <-. apply lookup_insert_eq.
    + apply lookup_insert_ne. congruence.
  - done.
  - case_decide as Hk.
    + injection Hk as <-. apply lookup_delete_eq.
    + apply lookup_delete_ne. congruence.
Qed.

Lemma replay_store_lookup queue q (r : Doubles.Store) key :
  Doubles.stored (replay queue q r).2 !! key =
    foldl (store_effect key) (Doubles.stored r !! key) queue.
Proof.
  revert q r. induction queue as [|item rest IH]; intros q r; [done|].
  simpl. rewrite IH. f_equal. apply store_step_lookup.
Qed.

Lemma store_effect_others key o (l : list Item) :
  Forall (fun item => target item.2 ≠ Some key) l →
  foldl (store_effect key) o l = o.
Proof.
  revert o. induction l as [|item rest IH]; intros o Hall; [done|].
  apply Forall_cons in Hall as [Hne Hall]. simpl.
  rewrite IH by done. unfold store_effect. by case_decide.
Qed.

Lemma store_effect_last key o (l : list Item) k e :
  StronglySorted N.lt l.*1 →
  (k, e) ∈ l → target e = Some key →
  (∀ k' e', (k', e') ∈ l → target e' = Some key → (k' ≤ k)%N) →
  foldl (store_effect key) o l = final_state e.
Proof.
  revert o. induction l as [|item rest IH]; intros o Hs Hin Ht Hmax.
  { by apply elem_of_nil in Hin. }
  simpl in *. apply StronglySorted_inv in Hs as [Hs Hall].
  apply elem_of_cons in Hin as [<-|Hin].
  - rewrite store_effect_others.
    + unfold store_effect. simpl. by case_decide.
    + rewrite Forall_forall. intros [k' e'] H' Ht'. simpl in *.
      rewrite Forall_forall in Hall.
      assert (k < k')%N as Hlt.
      { apply Hall. apply list_elem_of_fmap. by exists (k', e'). }
      specialize (Hmax k' e' ltac:(by right) Ht'). lia.
  - apply IH; [done..|]. intros k' e' H'. apply Hmax. by right.
Qed.

Lemma sync_store_last (w : World Doubles.Store) key k e :
  faults w = [] → isSyncing w = false → isOnline w = true →
  timestamps_monotone (syncQueue (db w)) →
  qrows (syncQueue (db w)) !! k = Some e →
  target e = Some key →
  map_Forall (fun k' e' => target e' = Some key → (k' ≤ k)%N)
    (qrows (syncQueue (db w))) →
  Doubles.stored (remote (sync w).2) !! key = final_state e.
Proof.
  intros Hf Hs Ho Hmono He Ht Hmax.
  rewrite sync_healthy by done. simpl. rewrite replay_store_lookup.
  apply store_effect_last with (k := k).
  - by apply toArray_ids_ascending.
  - by apply toArray_elem.
  - done.
  - intros k' e' H'. apply Hmax. by apply toArray_elem.
Qed.

(** ** The calls of a pass follow the array *)

Section PassOrder.

Context {R : Type} `{!RemoteBackend R}.

Implicit Types (w : World R).

Lemma sync_entry_trace item w :
  ∃ ok, trace (sync_entry item w).2
        = (trace w ++ [mkCall item.1 (request_of item.2) ok])%list.
Proof.
  exists (remote_step (request_of item.2) (remote w)).1.
  unfold sync_entry, syncItem, remote_call, db_queue_delete, db_queue_update,
    storage. unfold_m.
  destruct (remote_step (request_of item.2) (remote w)) as [[] r]; simpl;
    destruct (faults w) as [|[] [|[] [|[] fs]]]; simpl;
    destruct (5 <=? attempts item.2)%Z; simpl; done.
Qed.

Lemma sync_loop_trace queue w :
  ∃ calls,
    trace (sync_loop queue w).2 = (trace w ++ calls)%list ∧
    (fun c => (call_id c, call_request c)) <$> calls
      `prefix_of` (fun item => (item.1, request_of item.2)) <$> queue.
Proof.
  revert w. induction queue as [|item rest IH]; intros w.
  { exists []. split; [by rewrite app_nil_r|done]. }
  simpl. unfold_m. destruct (sync_entry_trace item w) as [ok Hok].
  destruct (sync_entry item w) as [[[]|e] w1]; simpl in *.
  - destruct (IH w1) as (calls & Ht & Hp).
    exists (mkCall item.1 (request_of item.2) ok :: calls). split.
    + rewrite Ht, Hok. by rewrite <- app_assoc.
    + rewrite !fmap_cons. simpl. by apply prefix_cons.
  - exists [mkCall item.1 (request_of item.2) ok]. split; [done|].
    rewrite !fmap_cons. simpl. apply prefix_cons, prefix_nil.
Qed.

(** Whatever the store and the backend do, the calls of a pass are made
    for the entries of the array, in the order of the array. *)
Lemma pass_calls_prefix w :
  (fun c => (call_id c, call_request c)) <$> pass_calls w
    `prefix_of` (fun item => (item.1, request_of item.2))
                  <$> toArray (syncQueue (db w)).
Proof.
  unfold pass_calls, sync. unfold_m.
  destruct (isSyncing w || negb (isOnline w)).
  { simpl. rewrite drop_all. apply prefix_nil. }
  unfold db_queue_toArray, storage. simpl.
  destruct (faults w) as [|[] fs]; simpl.
  - destruct (sync_loop_trace (toArray (syncQueue (db w)))
                (set_db (db w) (set_isSyncing true w))) as (calls & Ht & Hp).
    destruct (sync_loop _ _) as [r w1]. simpl in *.
    rewrite Ht. by rewrite drop_app_length.
  - rewrite drop_all. apply prefix_nil.
  - destruct (sync_loop_trace (toArray (syncQueue (db w)))
                (set_db (db w) (set_faults fs (set_isSyncing true w))))
      as (calls & Ht & Hp).
    destruct (sync_loop _ _) as [r w1]. simpl in *.
    rewrite Ht. by rewrite drop_app_length.
Qed.

End PassOrder.

(** C3 (amended). A drain pass replays the outbox in ascending order of
    enqueue timestamp, by sequence id among equal timestamps: for every
    backend and whatever the local store does, the array of the pass holds
    the entries of the outbox in that order and the calls of the pass are
    made for its entries in the order of the array, for all of them when the
    local store answers its requests. When the timestamps never decrease
    along the sequence ids this is the ascending order of sequence ids; and
    then, on a healthy local store and against the store double, the remote
    record addressed by the mutations of one record ends in the state of the
    last of them. *)
Theorem sync_order_and_convergence :
  (∀ R (backend : RemoteBackend R) (w : World R),
     StronglySorted index_le (toArray (syncQueue (db w))) ∧
     (∀ k e, (k, e) ∈ toArray (syncQueue (db w)) ↔
             qrows (syncQueue (db w)) !! k = Some e) ∧
     (fun c => (call_id c, call_request c)) <$> pass_calls w
       `prefix_of` (fun item => (item.1, request_of item.2))
                     <$> toArray (syncQueue (db w)) ∧
     (faults w = [] → isSyncing w = false → isOnline w = true →
      call_id <$> pass_calls w = (toArray (syncQueue (db w))).*1) ∧
     (timestamps_monotone (syncQueue (db w)) →
      StronglySorted N.lt (toArray (syncQueue (db w))).*1)) ∧
  (∀ (w : World Doubles.Store) key k e,
     faults w = [] → isSyncing w = false → isOnline w = true →
     timestamps_monotone (syncQueue (db w)) →
     qrows (syncQueue (db w)) !! k = Some e →
     target e = Some key →
     map_Forall (fun k' e' => target e' = Some key → (k' ≤ k)%N)
       (qrows (syncQueue (db w))) →
     Doubles.stored (remote (sync w).2) !! key = final_state e).
Proof.
  split.
  - intros R backend w. split_and!.
    + apply toArray_sorted.
    + intros k e. apply toArray_elem.
    + apply pass_calls_prefix.
    + intros Hf Hs Ho. rewrite pass_calls_healthy by done. apply replay_ids.
    + apply toArray_ids_ascending.
  - intros w key k e. apply sync_store_last.
Qed.

(** Enqueueing at a time not before any timestamp of the outbox keeps the
    timestamps monotone, and the new entry has the greatest key. *)
Lemma queue_add_monotone e q :
  queue_wf q → timestamps_monotone q →
  map_Forall (fun _ e' => (timestamp e' ≤ timestamp e)%Z) (qrows q) →
  queue_wf (queue_add e q).2 ∧ timestamps_monotone (queue_add e q).2.
Proof.
  intros Hwf Hmono Hnow. unfold queue_wf, timestamps_monotone in *. simpl.
  assert (qrows q !! qnext q = None) as Hfresh.
  { destruct (qrows q !! qnext q) eqn:E; [|done].
    apply Hwf in E. simpl in E. lia. }
  split.
  - apply map_Forall_insert; [done|]. split; [lia|].
    intros k e' H'. apply Hwf in H'. simpl in *. lia.
  - apply map_Forall_insert; [done|]. split.
    + apply map_Forall_insert; [done|]. split; [lia|].
      intros k e' H' Hlt. apply Hwf in H'. simpl in *. lia.
    + intros k1 e1 H1. apply map_Forall_insert; [done|]. split.
      * intros _. by apply (Hnow k1).
      * by apply Hmono.
Qed.

(** ** Retries of an entry that always fails *)

Section Retry.

Context {R : Type} `{!RemoteBackend R}.

Implicit Types (w : World R).

Lemma ready_sync w : ready w → ready (sync w).2.
Proof. intros (Hf & Hs & Ho). by rewrite sync_healthy. Qed.

Lemma ready_passes n w : ready w → ready (passes n w).
Proof. intros Hw. induction n as [|n IH]; [done|]. by apply ready_sync. Qed.

Lemma count_NoDup (l : list N) k :
  NoDup l → length (filter (fun i => i = k) l) = if decide (k ∈ l) then 1%nat else 0%nat.
Proof.
  induction 1 as [|i l Hi Hnd IH]; [done|].
  rewrite filter_cons. destruct (decide (i = k)) as [->|Hne]; simpl.
  - rewrite IH. destruct (decide (k ∈ l)) as [|_]; [done|].
    by destruct (decide (k ∈ k :: l)) as [_|[]]; [|left].
  - rewrite IH. destruct (decide (k ∈ l)) as [Hin|Hin].
    + by destruct (decide (k ∈ i :: l)) as [_|[]]; [|right].
    + destruct (decide (k ∈ i :: l)) as [[?|?]%elem_of_cons|_];
        [congruence|done..].
Qed.

Lemma replay_call_ok queue q (r : R) c :
  c ∈ (replay queue q r).1.1 →
  ∃ r', call_ok c = (remote_step (call_request c) r').1.
Proof.
  revert q r. induction queue as [|item rest IH]; intros q r Hc; simpl in Hc.
  { by apply elem_of_nil in Hc. }
  apply elem_of_cons in Hc as [->|Hc]; [by exists r|]. by eapply IH.
Qed.

Lemma attempts_made_sync w k :
  ready w →
  attempts_made k (sync w).2 =
    (attempts_made k w +
     if decide (is_Some (qrows (syncQueue (db w)) !! k)) then 1 else 0)%nat.
Proof.
  intros (Hf & Hs & Ho). unfold attempts_made.
  rewrite sync_healthy by done. simpl.
  rewrite fmap_app, filter_app, length_app, replay_ids. f_equal.
  rewrite count_NoDup by apply toArray_NoDup.
  destruct (decide (k ∈ (toArray (syncQueue (db w))).*1)) as [Hin|Hin];
    rewrite toArray_keys in Hin.
  - by rewrite decide_True.
  - by rewrite decide_False.
Qed.

Lemma passes_entities n w :
  entity_tables (db (passes n w)) = entity_tables (db w).
Proof.
  induction n as [|n IH]; [done|].
  change (passes (S n) w) with (sync (passes n w)).2.
  destruct (sync_shrinks (passes n w)) as [_ ->]. done.
Qed.

(** One pass over an entry whose replay is rejected. *)
Lemma sync_rejected_entry w k e :
  ready w → qrows (syncQueue (db w)) !! k = Some e → always_rejected e →
  qrows (syncQueue (db (sync w).2)) !! k = settle_row e false (Some e).
Proof.
  intros (Hf & Hs & Ho) He Hrej.
  assert ((k, e) ∈ toArray (syncQueue (db w))) as Hin by by apply toArray_elem.
  destruct (replay_called _ (syncQueue (db w)) (remote w) _ _ Hin)
    as (c & Hc & Hid).
  destruct (replay_lookup_in _ _ _ _ _ _ (toArray_NoDup _) Hin Hc Hid)
    as [Hreq Hlk].
  destruct (replay_call_ok _ _ _ _ Hc) as [r' Hok].
  rewrite Hreq, Hrej in Hok.
  rewrite sync_healthy by done. simpl. by rewrite Hlk, Hok, He.
Qed.

Lemma always_rejected_set_attempts a e :
  always_rejected e → always_rejected (set_attempts a e).
Proof. intros Hrej r. apply Hrej. Qed.

(** From [attempts = 0], [n ≤ 5] failed passes leave the entry in the
    outbox with [attempts = n], after [n] remote calls. *)
Lemma passes_rejected_entry w k e n :
  ready w → qrows (syncQueue (db w)) !! k = Some e →
  attempts e = 0%Z → always_rejected e → (n ≤ 5)%nat →
  qrows (syncQueue (db (passes n w))) !! k = Some (set_attempts (Z.of_nat n) e) ∧
  attempts_made k (passes n w) = (attempts_made k w + n)%nat.
Proof.
  intros Hw He Ha Hrej. induction n as [|n IH]; intros Hn.
  - simpl. split; [|lia]. rewrite He. f_equal. destruct e. simpl in *. by subst.
  - destruct IH as [IH1 IH2]; [lia|].
    change (passes (S n) w) with (sync (passes n w)).2.
    pose proof (ready_passes n w Hw) as Hr. split.
    + rewrite (sync_rejected_entry _ _ _ Hr IH1)
        by by apply always_rejected_set_attempts.
      unfold settle_row. simpl.
      destruct (Z.leb_spec 5 (Z.of_nat n)); [lia|]. simpl. f_equal.
      unfold set_attempts. simpl. f_equal. lia.
    + rewrite attempts_made_sync by done. rewrite IH1, IH2.
      rewrite decide_True by done. lia.
Qed.

(** X1. For every backend and every entry whose replay is always rejected:
    enqueued with [attempts = 0], the entry is still in the outbox after five
    failed passes, with [attempts = 5]; the sixth failed pass is the one that
    removes it, six remote calls have been made for it by then, and the
    entity tables are as they were. *)
Lemma sixth_pass_evicts w k e :
  ready w → qrows (syncQueue (db w)) !! k = Some e →
  attempts e = 0%Z → always_rejected e →
  qrows (syncQueue (db (passes 5 w))) !! k = Some (set_attempts 5 e) ∧
  qrows (syncQueue (db (passes 6 w))) !! k = None ∧
  attempts_made k (passes 6 w) = (attempts_made k w + 6)%nat ∧
  entity_tables (db (passes 6 w)) = entity_tables (db w).
Proof.
  intros Hw He Ha Hrej.
  destruct (passes_rejected_entry w k e 5 Hw He Ha Hrej) as [H5 N5]; [lia|].
  pose proof (ready_passes 5 w Hw) as Hr.
  split; [done|].
  change (passes 6 w) with (sync (passes 5 w)).2. split_and!.
  - rewrite (sync_rejected_entry _ _ _ Hr H5)
      by by apply always_rejected_set_attempts.
    done.
  - rewrite attempts_made_sync by done. rewrite H5, N5.
    rewrite decide_True by done. lia.
  - apply (passes_entities 6 w).
Qed.

End Retry.

(** ** Replays that fail without rejecting *)

Section RefusedReplay.

Context {R : Type} `{!SupabaseClient R}.

#[local] Existing Instance awaited.

Implicit Types (w : World R).

(** C4. The drain does not see a replay that fails the way the client
    reports failures. For an entry whose request is refused in every state
    of the remote, with the client resolving with [{ error }]: the pass makes
    one call for it, takes it for a success and deletes the entry, whatever
    its attempt count; the counter is not incremented and the entry is not
    left for a later drain. *)
Theorem refused_replay_is_dropped w k e :
  faults w = [] → isSyncing w = false → isOnline w = true →
  qrows (syncQueue (db w)) !! k = Some e → always_refused e →
  (sync w).1 = Ok tt ∧
  qrows (syncQueue (db (sync w).2)) !! k = None ∧
  attempts_made k (sync w).2 = (attempts_made k w + 1)%nat ∧
  ∀ c, c ∈ pass_calls w → call_id c = k →
       call_request c = request_of e ∧ call_ok c = true.
Proof.
  intros Hf Hs Ho He Href.
  assert ((k, e) ∈ toArray (syncQueue (db w))) as Hin by by apply toArray_elem.
  assert (∀ c, c ∈ pass_calls w → call_id c = k →
            call_request c = request_of e ∧ call_ok c = true ∧
            qrows (syncQueue (db (sync w).2)) !! k = None) as Hcalls.
  { intros c Hc Hid. rewrite pass_calls_healthy in Hc by done.
    destruct (replay_lookup_in _ _ _ _ _ _ (toArray_NoDup _) Hin Hc Hid)
      as [Hreq Hlk].
    destruct (replay_call_ok _ _ _ _ Hc) as [r' Hok].
    rewrite Hreq in Hok. unfold remote_step, awaited in Hok.
    specialize (Href r'). destruct (client_step (request_of e) r') as [reply r''].
    simpl in *. subst reply. split_and!; [done..|].
    rewrite sync_healthy by done. simpl. by rewrite Hlk, Hok. }
  split_and!.
  - by rewrite sync_healthy.
  - destruct (replay_called _ (syncQueue (db w)) (remote w) _ _ Hin)
      as (c & Hc & Hid).
    rewrite <- pass_calls_healthy in Hc by done.
    by destruct (Hcalls c Hc Hid) as (_ & _ & ?).
  - rewrite attempts_made_sync by done. rewrite He.
    by rewrite decide_True.
  - intros c Hc Hid. by destruct (Hcalls c Hc Hid) as (? & ? & _).
Qed.

End RefusedReplay.

(** ** Mutations made offline and replayed at the next pass *)

Section OfflineMutations.

Context {R : Type} `{!RemoteBackend R}.

Lemma enqueue_all_offline t rid ms (w : World R) :
  faults w = [] → isOnline w = false →
  (enqueue_all t rid ms w).2 =
    set_db (set_syncQueue (enqueue_rows t rid ms (syncQueue (db w))) (db w)) w.
Proof.
  revert w. induction ms as [|m rest IH]; intros w Hf Ho; simpl.
  - by destruct w as [[] ? ? ? ? ?].
  - unfold addToQueue, db_queue_add. unfold_m.
    rewrite storage_healthy by done. simpl. rewrite Ho. simpl.
    rewrite IH by done. by destruct w as [[] ? ? ? ? ?].
Qed.

End OfflineMutations.

Lemma enqueue_rows_snoc t rid ms m q :
  enqueue_rows t rid (ms ++ [m])%list q =
    (queue_add (entry_of t rid m) (enqueue_rows t rid ms q)).2.
Proof. unfold enqueue_rows. by rewrite foldl_app. Qed.

Lemma enqueue_rows_monotone t rid ms q :
  queue_wf q → timestamps_monotone q →
  StronglySorted Z.le (mut_time <$> ms) →
  (∀ m, m ∈ ms → map_Forall (fun _ e => (timestamp e ≤ mut_time m)%Z) (qrows q)) →
  queue_wf (enqueue_rows t rid ms q) ∧
  timestamps_monotone (enqueue_rows t rid ms q).
Proof.
  revert q. induction ms as [|m rest IH]; intros q Hwf Hmono Hs Hle; [done|].
  simpl in *. apply StronglySorted_inv in Hs as [Hs Hall].
  destruct (queue_add_monotone (entry_of t rid m) q Hwf Hmono) as [Hwf' Hmono'].
  { apply Hle. left. }
  apply IH; [done..|].
  intros m' Hm'. simpl. apply map_Forall_insert_2.
  - simpl. rewrite Forall_forall in Hall. apply Hall.
    apply list_elem_of_fmap. by exists m'.
  - apply Hle. by right.
Qed.

(** The array is the one list of the entries of the outbox that is in the
    order of the index. *)
Lemma toArray_eq q (l : list Item) :
  StronglySorted index_le l → l ≡ₚ map_to_list (qrows q) → toArray q = l.
Proof.
  intros Hs Hp. apply (StronglySorted_unique_strong index_le).
  - intros [k1 e1] [k2 e2] H1 H2 Hle1 Hle2.
    apply toArray_elem in H1. rewrite Hp in H2.
    apply elem_of_map_to_list in H2.
    unfold index_le in *. simpl in *.
    assert (k1 = k2) as -> by lia. congruence.
  - apply toArray_sorted.
  - done.
  - unfold toArray. by rewrite merge_sort_Permutation, Hp.
Qed.

(** An entry enqueued at a time not before any timestamp of the outbox
    comes last in the array. *)
Lemma toArray_snoc e q :
  queue_wf q →
  map_Forall (fun _ e' => (timestamp e' ≤ timestamp e)%Z) (qrows q) →
  toArray (queue_add e q).2 = (toArray q ++ [(qnext q, e)])%list.
Proof.
  intros Hwf Hle.
  assert (qrows q !! qnext q = None) as Hfresh.
  { destruct (qrows q !! qnext q) eqn:E; [|done].
    apply Hwf in E. simpl in E. lia. }
  apply toArray_eq.
  - apply StronglySorted_app_2.
    + intros [k1 e1] x2 H1 H2. apply list_elem_of_singleton in H2 as ->.
      apply toArray_elem in H1. pose proof (Hle _ _ H1) as Ht.
      pose proof (Hwf _ _ H1) as Hk. unfold index_le. simpl in *. lia.
    + apply toArray_sorted.
    + repeat constructor.
  - simpl. rewrite map_to_list_insert by done.
    rewrite <- Permutation_cons_append. constructor.
    unfold toArray. apply merge_sort_Permutation.
Qed.

Lemma toArray_enqueue_rows t rid ms q :
  queue_wf q →
  StronglySorted Z.le (mut_time <$> ms) →
  (∀ m, m ∈ ms → map_Forall (fun _ e => (timestamp e ≤ mut_time m)%Z) (qrows q)) →
  (toArray (enqueue_rows t rid ms q)).*2
    = ((toArray q).*2 ++ (entry_of t rid <$> ms))%list.
Proof.
  revert q. induction ms as [|m rest IH]; intros q Hwf Hs Hle.
  { simpl. by rewrite app_nil_r. }
  change (enqueue_rows t rid (m :: rest) q)
    with (enqueue_rows t rid rest (queue_add (entry_of t rid m) q).2).
  rewrite fmap_cons in Hs. apply StronglySorted_inv in Hs as [Hs Hall].
  rewrite IH; [| |done|].
  - rewrite toArray_snoc; [|done|by apply Hle; left].
    rewrite fmap_app, fmap_cons. simpl. by rewrite <- app_assoc.
  - by apply queue_add_wf.
  - intros m' Hm'. simpl. apply map_Forall_insert_2.
    + simpl. rewrite Forall_forall in Hall. apply Hall.
      apply list_elem_of_fmap. by exists m'.
    + apply Hle. by right.
Qed.

(** X17. Mutations of one record enqueued offline, at times that never
    decrease, into an empty outbox, and replayed by the pass that starts when
    the engine comes online: the pass sends the requests of the mutations,
    one for each and in the order in which they were enqueued, and the store
    double ends holding the state of the last mutation. *)
Lemma offline_mutations_converge (w : World Store) t rid ms m :
  faults w = [] → isSyncing w = false → isOnline w = false →
  qrows (syncQueue (db w)) = ∅ →
  StronglySorted Z.le (mut_time <$> (ms ++ [m])%list) →
  target (entry_of t rid m) = Some (t, rid) →
  call_request <$>
    drop (length (trace w))
      (trace (handleOnline (enqueue_all t rid (ms ++ [m])%list w).2).2)
    = (fun m' => request_of (entry_of t rid m')) <$> (ms ++ [m])%list ∧
  stored (remote (handleOnline (enqueue_all t rid (ms ++ [m])%list w).2).2)
    !! (t, rid) = final_state (entry_of t rid m).
Proof.
  intros Hf Hs Ho Hempty Htimes Ht.
  rewrite enqueue_all_offline by done.
  set (q := syncQueue (db w)).
  assert (queue_wf q) as Hwf0.
  { unfold queue_wf, q. rewrite Hempty. apply map_Forall_empty. }
  assert (timestamps_monotone q) as Hmono0.
  { unfold timestamps_monotone, q. rewrite Hempty. apply map_Forall_empty. }
  assert (∀ l : list Mutation, (∀ m', m' ∈ l →
            map_Forall (fun _ e => (timestamp e ≤ mut_time m')%Z) (qrows q))) as Hle0.
  { intros l m' _. unfold q. rewrite Hempty. apply map_Forall_empty. }
  destruct (enqueue_rows_monotone t rid (ms ++ [m])%list q Hwf0 Hmono0 Htimes (Hle0 _))
    as [_ Hmono].
  pose proof (toArray_enqueue_rows t rid (ms ++ [m])%list q Hwf0 Htimes (Hle0 _))
    as Harr.
  assert (toArray q = []) as Hnil.
  { unfold toArray, q. by rewrite Hempty, map_to_list_empty. }
  rewrite Hnil in Harr. simpl in Harr.
  rewrite fmap_app in Htimes. apply StronglySorted_app_1_l in Htimes.
  destruct (enqueue_rows_monotone t rid ms q Hwf0 Hmono0 Htimes (Hle0 _))
    as [Hwf _].
  unfold handleOnline. unfold_m. simpl.
  set (w1 := set_isOnline true _).
  assert (syncQueue (db w1) = enqueue_rows t rid (ms ++ [m])%list q) as Hq by done.
  split.
  - change (call_request <$> pass_calls w1
            = (fun m' => request_of (entry_of t rid m')) <$> (ms ++ [m])%list).
    rewrite pass_calls_healthy by done. rewrite replay_requests, Hq.
    transitivity (request_of <$>
                    (toArray (enqueue_rows t rid (ms ++ [m])%list q)).*2);
      [by rewrite <- list_fmap_compose|].
    rewrite Harr. by rewrite <- list_fmap_compose.
  - assert (Doubles.stored (remote (sync w1).2) !! (t, rid)
            = final_state (entry_of t rid m)) as Hconv; [|done].
    apply (sync_store_last w1 (t, rid)
                (qnext (enqueue_rows t rid ms q)) (entry_of t rid m)); try done.
    + rewrite Hq, enqueue_rows_snoc. simpl. apply lookup_insert_eq.
    + rewrite Hq, enqueue_rows_snoc. simpl.
      apply map_Forall_insert_2; [lia|].
      intros k e He _. apply Hwf in He. simpl in He. lia.
Qed.

(** ** Write paths into the outbox *)

Section WritePaths.

Context {R : Type} `{!RemoteBackend R}.

#[local] Instance outbox_kept_preorder : PreOrder (@outbox_kept R).
Proof.
  split; [by intros w|]. intros w1 w2 w3 [? ?] [? ?].
  unfold outbox_kept. split; congruence.
Qed.

Lemma storage_outbox_kept {A} (f : LifeOSDatabase → A * LifeOSDatabase) :
  (∀ d, syncQueue (f d).2 = syncQueue d) →
  respects (@outbox_kept R) (storage f).
Proof.
  intros Hf. apply respects_storage; [apply _|done|].
  intros w. split; [apply Hf|done].
Qed.

Lemma createExpense_outbox sanitizeInput params userId date createdAt :
  respects (@outbox_kept R)
    (createExpense sanitizeInput params userId date createdAt).
Proof.
  unfold createExpense.
  destruct (negb _ || _); [by apply respects_ret; apply _|].
  destruct (number_gt _ _); [by apply respects_ret; apply _|].
  apply respects_try_catch; [apply _| |intros e; by apply respects_ret; apply _].
  apply respects_bind; [apply _| |intros k; by apply respects_ret; apply _].
  by apply storage_outbox_kept.
Qed.

Lemma deleteExpense_outbox recent_expenses params userId :
  respects (@outbox_kept R) (deleteExpense recent_expenses params userId).
Proof.
  assert (∀ key, respects (@outbox_kept R) (db_expenses_delete key)) as Hdel.
  { intros key. unfold db_expenses_delete.
    destruct (key_of_value key); [by apply storage_outbox_kept..|done]. }
  unfold deleteExpense.
  apply respects_try_catch; [apply _| |intros e; by apply respects_ret; apply _].
  apply respects_bind; [apply _| |].
  - destruct (truthy _).
    + apply respects_bind; [apply _| |intros o; by apply respects_ret; apply _].
      unfold db_expenses_get.
      destruct (key_of_value _); [by apply storage_outbox_kept..|done].
    + apply respects_bind; [apply _| |intros o; by apply respects_ret; apply _].
      by apply storage_outbox_kept.
  - intros [early|[expense|]]; [by apply respects_ret; apply _| |
                                by apply respects_ret; apply _].
    apply respects_bind; [apply _|apply Hdel|].
    intros _. by apply respects_ret; apply _.
Qed.

Lemma handlers_shrink (w : World R) :
  outbox_shrinks w (handleOnline w).2 ∧ outbox_shrinks w (handleOffline w).2.
Proof.
  split; [|done].
  apply (respects_bind outbox_shrinks);
    [by apply respects_modify|intros _].
  apply respects_fire_and_forget, sync_shrinks.
Qed.

(** C5 (amended). Of the operations of the sync engine only [addToQueue]
    appends to the outbox: [sync] and the two connectivity handlers add no
    key to it. The expense operations [createExpense] and [deleteExpense] do
    not enqueue: they leave the outbox as it was and make no remote call. *)
Theorem outbox_write_paths (w : World R) sanitizeInput recent_expenses
    params userId date createdAt :
  syncQueue (db (createExpense sanitizeInput params userId date createdAt w).2)
    = syncQueue (db w) ∧
  trace (createExpense sanitizeInput params userId date createdAt w).2
    = trace w ∧
  syncQueue (db (deleteExpense recent_expenses params userId w).2)
    = syncQueue (db w) ∧
  trace (deleteExpense recent_expenses params userId w).2 = trace w ∧
  outbox_shrinks w (sync w).2 ∧
  outbox_shrinks w (handleOnline w).2 ∧
  outbox_shrinks w (handleOffline w).2.
Proof.
  destruct (createExpense_outbox sanitizeInput params userId date createdAt w)
    as [? ?].
  destruct (deleteExpense_outbox recent_expenses params userId w) as [? ?].
  split_and!; [done..|apply sync_shrinks|apply handlers_shrink
              |apply handlers_shrink].
Qed.

Lemma reachable_run (st st' : Engine R) evs :
  reachable st → run evs st = Some st' → reachable st'.
Proof.
  revert st. induction evs as [|ev evs IH]; intros st Hr Hrun; simpl in Hrun.
  - by injection Hrun as <-.
  - destruct (step ev st) as [st1|] eqn:Hstep; [|done].
    eapply IH; [|done]. by eapply reachable_step.
Qed.

End WritePaths.

(** ** The claims on concrete worlds *)

Import Examples ClientExamples.

Ltac by_evaluation := apply (bool_decide_unpack _); vm_compute; exact I.

(** C1 (evaluation). Against a backend that rejects every call, an entry
    enqueued with [attempts = 0] is still in the outbox after five failed
    passes, with [attempts = 5]; the sixth pass replays it once more and
    only then removes it. The local note keeps [synced = false]. *)
Theorem retry_bound_evaluation :
  qrows (syncQueue (db (passes 5 w_unreachable))) !! 1%N
    = Some (set_attempts 5 (create_a 100)) ∧
  call_id <$> trace (passes 5 w_unreachable) = [1; 1; 1; 1; 1]%N ∧
  qrows (syncQueue (db (passes 6 w_unreachable))) !! 1%N = None ∧
  call_id <$> trace (passes 6 w_unreachable) = [1; 1; 1; 1; 1; 1]%N ∧
  synced_flag <$> entity_of (db (passes 6 w_unreachable)) "notes" "n1"
    = Some (VBool false).
Proof. split_and!; vm_compute; reflexivity. Qed.

(** C2 (counterexample). The replay of the pending [create] succeeds and
    the entry is removed, yet the local note still has [synced = false]. *)
Lemma drain_leaves_synced_false :
  pass_calls w_one = [mkCall 1 (Upsert "notes" (Some note_a)) true] ∧
  qrows (syncQueue (db (sync w_one).2)) !! 1%N = None ∧
  synced_flag <$> entity_of (db (sync w_one).2) "notes" "n1"
    = Some (VBool false) ∧
  synced_flag <$> entity_of (db (sync w_one).2) "notes" "n1"
    ≠ Some (VBool true).
Proof. split_and!; vm_compute; congruence. Qed.

Lemma sync_success_removes_entry_witness :
  qrows (syncQueue (db (sync w_one).2)) !! 1%N = None.
Proof.
  apply (sync_success_removes_entry w_one
           (mkCall 1 (Upsert "notes" (Some note_a)) true));
    [reflexivity | reflexivity | reflexivity | | reflexivity].
  vm_compute. apply list_elem_of_here.
Defined.

(** C3 (counterexample). The [create] was enqueued at time 100 and the
    [update] after it at time 50: the pass replays entry 2 before entry 1,
    and the store ends with the first state of the note, not the last. *)
Lemma replay_order_follows_timestamps :
  call_id <$> pass_calls (w_two 100 50) = [2; 1]%N ∧
  ¬ StronglySorted N.lt (call_id <$> pass_calls (w_two 100 50)) ∧
  (fun o => prop o "title") <$>
    stored (remote (sync (w_two 100 50)).2) !! ("notes", "n1")
    = Some (VStr "first") ∧
  (fun o => prop o "title") <$>
    entity_of (db (sync (w_two 100 50)).2) "notes" "n1"
    = Some (VStr "second").
Proof.
  assert (call_id <$> pass_calls (w_two 100 50) = [2; 1]%N) as Hids
    by (vm_compute; reflexivity).
  split_and!; [done | | vm_compute; reflexivity..].
  rewrite Hids. intros Hs. apply StronglySorted_inv in Hs as [_ Hall].
  apply Forall_cons in Hall as [Hlt _]. lia.
Qed.

Lemma sync_order_and_convergence_witness :
  StronglySorted index_le (toArray (syncQueue (db (w_two 100 100)))) ∧
  call_id <$> pass_calls (w_two 100 100)
    = (toArray (syncQueue (db (w_two 100 100)))).*1 ∧
  StronglySorted N.lt (call_id <$> pass_calls (w_two 100 100)) ∧
  stored (remote (sync (w_two 100 100)).2) !! ("notes", "n1")
    = final_state (update_b 100).
Proof.
  destruct sync_order_and_convergence as [Horder Hconv].
  destruct (Horder Store _ (w_two 100 100)) as (Hsorted & _ & _ & Hids & Hasc).
  assert (timestamps_monotone (syncQueue (db (w_two 100 100)))) as Hmono
    by (unfold timestamps_monotone; by_evaluation).
  split_and!.
  - exact Hsorted.
  - apply Hids; reflexivity.
  - rewrite Hids by reflexivity. exact (Hasc Hmono).
  - apply (Hconv (w_two 100 100) ("notes", "n1") 2%N (update_b 100));
      [reflexivity | reflexivity | reflexivity | exact Hmono
      | vm_compute; reflexivity | reflexivity | by_evaluation].
Defined.

Lemma refused_replay_is_dropped_witness :
  (sync w_refused).1 = Ok tt ∧
  qrows (syncQueue (db (sync w_refused).2)) !! 1%N = None ∧
  attempts_made 1 (sync w_refused).2 = (attempts_made 1 w_refused + 1)%nat ∧
  ∀ c, c ∈ pass_calls w_refused → call_id c = 1%N →
       call_request c = request_of (create_a 100) ∧ call_ok c = true.
Proof.
  apply (refused_replay_is_dropped w_refused 1 (create_a 100));
    [reflexivity | reflexivity | reflexivity | reflexivity
    | intros r; reflexivity].
Defined.

(** C4 (evaluation). One pending [create] with [attempts = 0], online, in
    front of a client that answers the request with [{ error }]: after the
    pass the outbox is empty, one call has been made, and the attempt
    counter was never written. *)
Example refused_replay_evaluation :
  qrows (syncQueue (db w_refused)) !! 1%N = Some (create_a 100) ∧
  attempts (create_a 100) = 0%Z ∧
  qrows (syncQueue (db (sync w_refused).2)) = ∅ ∧
  length (pass_calls w_refused) = 1%nat.
Proof. split_and!; vm_compute; reflexivity. Qed.

Lemma sync_failure_increments_attempts_witness :
  qrows (syncQueue (db (sync w_unreachable).2)) !! 1%N
    = Some (set_attempts (attempts (create_a 100) + 1) (create_a 100)).
Proof.
  apply (sync_failure_increments_attempts w_unreachable 1 (create_a 100)
           (mkCall 1 (Upsert "notes" (Some note_a)) false));
    [reflexivity | reflexivity | reflexivity | | | | reflexivity | reflexivity].
  - vm_compute. reflexivity.
  - simpl. lia.
  - vm_compute. apply list_elem_of_here.
Defined.

(** C5 (counterexample). [createExpense] with a valid amount succeeds and
    stores the expense, and the outbox is still empty. *)
Lemma createExpense_appends_nothing :
  succeeded (createExpense (fun _ => "") expense_params "u1" 7 7 w_fresh).1
    = true ∧
  is_Some (rows (expenses
    (db (createExpense (fun _ => "") expense_params "u1" 7 7 w_fresh).2))
      !! KNum 1) ∧
  qrows (syncQueue
    (db (createExpense (fun _ => "") expense_params "u1" 7 7 w_fresh).2)) = ∅.
Proof.
  split_and!; [vm_compute; reflexivity | | vm_compute; reflexivity].
  vm_compute. eexists. reflexivity.
Qed.

Lemma sync_reentrancy_witness :
  (length (suspended st_reading) ≤ 1)%nat ∧
  (isSyncing (world st_reading) = true →
     length (suspended st_reading) = 1%nat ∧
     step EvSync st_reading = Some st_reading ∧
     sync (world st_reading) = (Ok tt, world st_reading)).
Proof.
  apply (sync_reentrancy st_reading).
  apply (reachable_step st_idle EvOnline); [|reflexivity].
  apply reachable_initial. split; [by exists (Some false)|done].
Defined.

(** C7 (counterexample). The engine goes online, starts a pass, and goes
    offline while the pass is waiting: [isSyncing] is true and [isOnline]
    is false. *)
Lemma syncing_while_offline :
  reachable st_cut_off ∧
  isSyncing (world st_cut_off) = true ∧
  isOnline (world st_cut_off) = false.
Proof.
  split_and!; [|reflexivity..].
  apply (reachable_run st_idle _ [EvOnline; EvOffline]); [|reflexivity].
  apply reachable_initial. split; [by exists (Some false)|done].
Qed.

Lemma sync_starts_only_online_witness :
  isOnline (world st_reading) = true ∧
  suspended st_reading = (suspended st_idle ++ [Reading])%list.
Proof.
  apply (sync_starts_only_online st_idle EvOnline st_reading);
    reflexivity.
Defined.

Lemma addToQueue_offline_witness :
  (addToQueue "notes" OpUpdate "n1" (Some note_b) 200 w_offline).1 = Ok tt ∧
  qrows (syncQueue (db w_offline)) !! qnext (syncQueue (db w_offline)) = None ∧
  qrows (syncQueue
    (db (addToQueue "notes" OpUpdate "n1" (Some note_b) 200 w_offline).2)) =
    <[qnext (syncQueue (db w_offline)) :=
        mkSyncQueue "notes" OpUpdate "n1" (Some note_b) 200 0]>
      (qrows (syncQueue (db w_offline))) ∧
  trace (addToQueue "notes" OpUpdate "n1" (Some note_b) 200 w_offline).2
    = trace w_offline ∧
  remote (addToQueue "notes" OpUpdate "n1" (Some note_b) 200 w_offline).2
    = remote w_offline ∧
  isSyncing (addToQueue "notes" OpUpdate "n1" (Some note_b) 200 w_offline).2
    = isSyncing w_offline ∧
  isOnline (addToQueue "notes" OpUpdate "n1" (Some note_b) 200 w_offline).2
    = false.
Proof.
  apply (addToQueue_offline w_offline "notes" OpUpdate "n1" (Some note_b) 200);
    [reflexivity | reflexivity | ].
  unfold queue_wf. by_evaluation.
Defined.

Lemma sync_continues_past_failures_witness :
  (sync w_two_unreachable).1 = Ok tt ∧
  call_id <$> pass_calls w_two_unreachable
    = (toArray (syncQueue (db w_two_unreachable))).*1 ∧
  call_request <$> pass_calls w_two_unreachable =
    (fun item => request_of item.2) <$> toArray (syncQueue (db w_two_unreachable)).
Proof.
  apply (sync_continues_past_failures w_two_unreachable); reflexivity.
Defined.

Lemma sync_resets_isSyncing_witness :
  isSyncing (sync w_faulty).2 = false.
Proof. apply (sync_resets_isSyncing w_faulty); reflexivity. Defined.

(** On [w_faulty] the exception does leave [sync], and both entries of
    [w_two_unreachable] are replayed although the first one fails. *)
Example sync_rejects_on_faulty_store :
  (sync w_faulty).1 = Throw StorageError.
Proof. reflexivity. Qed.

Example sync_visits_both_entries :
  pass_calls w_two_unreachable =
    [mkCall 1 (Upsert "notes" (Some note_a)) false;
     mkCall 2 (Upsert "notes" (Some note_b)) false].
Proof. vm_compute. reflexivity. Qed.

(** * Further properties *)

(** ** The sync engine *)

Section MorePasses.

Context {R : Type} `{!RemoteBackend R}.

Implicit Types (w : World R).

Lemma set_attempts_same e : set_attempts (attempts e) e = e.
Proof. by destruct e. Qed.

Lemma set_attempts_twice a b e :
  set_attempts a (set_attempts b e) = set_attempts a e.
Proof. done. Qed.

#[export] Instance fields_kept_preorder : PreOrder (@fields_kept R).
Proof.
  split.
  - intros w k e He. exists e. by rewrite set_attempts_same.
  - intros w1 w2 w3 H12 H23 k e3 H3.
    destruct (H23 k e3 H3) as (e2 & H2 & E3).
    destruct (H12 k e2 H2) as (e1 & H1 & E2).
    exists e1. split; [done|]. rewrite E3, E2. done.
Qed.

Lemma remote_call_fields k c : respects (@fields_kept R) (remote_call k c).
Proof.
  intros w k' e' He'. unfold remote_call in He'.
  destruct (remote_step c (remote w)) as [[] r]; simpl in He';
    exists e'; by rewrite set_attempts_same.
Qed.

Lemma storage_fields {A} (f : LifeOSDatabase → A * LifeOSDatabase) :
  (∀ w, fields_kept w (set_db (f (db w)).2 w)) →
  respects (@fields_kept R) (storage f).
Proof.
  intros Hf. apply respects_storage; [apply _| |done].
  intros w fs k e He. exists e. by rewrite set_attempts_same.
Qed.

Lemma queue_delete_fields k : respects (@fields_kept R) (db_queue_delete k).
Proof.
  apply storage_fields. intros w k' e' He'. simpl in He'.
  apply lookup_delete_Some in He' as [_ He'].
  exists e'. by rewrite set_attempts_same.
Qed.

Lemma queue_update_fields k a : respects (@fields_kept R) (db_queue_update k a).
Proof.
  apply storage_fields. intros w k' e' He'. simpl in He'.
  destruct (decide (k = k')) as [<-|Hne].
  - rewrite lookup_alter_eq in He'.
    destruct (qrows (syncQueue (db w)) !! k) as [e|] eqn:E; [|done].
    injection He' as <-. by exists e.
  - rewrite lookup_alter_ne in He' by done.
    exists e'. by rewrite set_attempts_same.
Qed.

Lemma sync_entry_fields item : respects (@fields_kept R) (sync_entry item).
Proof.
  unfold sync_entry. apply respects_try_catch; [apply _|..].
  - apply respects_bind; [apply _|apply remote_call_fields|].
    intros _. apply queue_delete_fields.
  - intros _. apply respects_bind; [apply _|apply queue_update_fields|].
    intros _. destruct (5 <=? attempts item.2)%Z;
      [apply queue_delete_fields | by apply respects_ret; apply _].
Qed.

Lemma sync_loop_fields queue : respects (@fields_kept R) (sync_loop queue).
Proof.
  induction queue as [|item rest IH]; simpl.
  - by apply respects_ret; apply _.
  - apply respects_bind; [apply _|apply sync_entry_fields|]. by intros _.
Qed.

Lemma fields_kept_flag b w : fields_kept w (set_isSyncing b w).
Proof. intros k e He. exists e. by rewrite set_attempts_same. Qed.

(** X3. Whatever the remote backend answers and whatever the local store
    does, a call of [sync] leaves in the outbox only entries that were there
    before under the same key, and changes nothing of them but [attempts]:
    table name, operation, record id, payload and timestamp are as they were
    enqueued. *)
Theorem sync_changes_only_attempts w k e' :
  qrows (syncQueue (db (sync w).2)) !! k = Some e' →
  ∃ e, qrows (syncQueue (db w)) !! k = Some e ∧
       tableName e' = tableName e ∧ operation e' = operation e ∧
       recordId e' = recordId e ∧ data e' = data e ∧
       timestamp e' = timestamp e.
Proof.
  intros He'.
  assert (respects (@fields_kept R) sync) as Hsync.
  { unfold sync.
    apply respects_bind; [apply _|by apply respects_read; apply _|].
    intros syncing.
    apply respects_bind; [apply _|by apply respects_read; apply _|].
    intros online. destruct (syncing || negb online).
    { by apply respects_ret; apply _. }
    apply respects_bind;
      [apply _|apply respects_modify; apply fields_kept_flag|]. intros _.
    apply respects_try_finally; [apply _| |apply fields_kept_flag].
    apply respects_bind; [apply _| |intros queue; apply sync_loop_fields].
    unfold db_queue_toArray. apply storage_fields.
    intros w0 k0 e0 H0. exists e0. by rewrite set_attempts_same. }
  destruct (Hsync w k e' He') as (e & He & ->). by exists e.
Qed.

Lemma pass_row w k e' :
  ready w → qrows (syncQueue (db (sync w).2)) !! k = Some e' →
  ∃ e, qrows (syncQueue (db w)) !! k = Some e ∧
       (attempts e < 5)%Z ∧ e' = set_attempts (attempts e + 1) e ∧
       ∃ c, c ∈ pass_calls w ∧ call_id c = k ∧ call_ok c = false.
Proof.
  intros (Hf & Hs & Ho) He'.
  destruct (sync_shrinks w) as [Hshrink _].
  destruct (Hshrink k) as [e He]; [by exists e'|].
  assert ((k, e) ∈ toArray (syncQueue (db w))) as Hin by by apply toArray_elem.
  destruct (replay_called _ (syncQueue (db w)) (remote w) _ _ Hin)
    as (c & Hc & Hid).
  destruct (replay_lookup_in _ _ _ _ _ _ (toArray_NoDup _) Hin Hc Hid)
    as [_ Hlk].
  rewrite sync_healthy in He' by done. simpl in He'.
  rewrite Hlk, He in He'. unfold settle_row in He'.
  destruct (call_ok c) eqn:Hok; [done|].
  destruct (Z.leb_spec 5 (attempts e)); [done|].
  injection He' as <-. exists e. split_and!; [done|lia|done|].
  exists c. by rewrite pass_calls_healthy.
Qed.

(** X2. On a healthy local store a pass keeps the recorded attempts within
    the bound: if no entry of the outbox has [attempts] above 5 before any
    number of passes, none has afterwards. *)
Theorem sync_keeps_attempts_bounded w n :
  ready w → attempts_bounded (syncQueue (db w)) →
  attempts_bounded (syncQueue (db (passes n w))).
Proof.
  intros Hw Hb. induction n as [|n IH]; [done|].
  change (passes (S n) w) with (sync (passes n w)).2.
  intros k e' He'.
  destruct (pass_row _ _ _ (ready_passes n w Hw) He') as (e & He & Ha & -> & _).
  simpl. lia.
Qed.

(** X4. Against a backend that resolves every call, one pass on a healthy
    local store replays every entry of the outbox and leaves the outbox
    empty. *)
Theorem accepting_backend_drains w :
  accepting → ready w →
  qrows (syncQueue (db (sync w).2)) = ∅ ∧
  call_id <$> pass_calls w = (toArray (syncQueue (db w))).*1 ∧
  Forall (fun c => call_ok c = true) (pass_calls w).
Proof.
  intros Hacc Hw. pose proof Hw as (Hf & Hs & Ho). split_and!.
  - apply map_eq. intros k. rewrite lookup_empty.
    destruct (qrows (syncQueue (db (sync w).2)) !! k) as [e'|] eqn:He'; [|done].
    destruct (pass_row _ _ _ Hw He') as (_ & _ & _ & _ & c & Hc & _ & Hok).
    rewrite pass_calls_healthy in Hc by done.
    destruct (replay_call_ok _ _ _ _ Hc) as [r' Hr'].
    rewrite Hacc in Hr'. congruence.
  - rewrite pass_calls_healthy by done. apply replay_ids.
  - rewrite pass_calls_healthy by done. apply Forall_forall. intros c Hc.
    destruct (replay_call_ok _ _ _ _ Hc) as [r' ->]. apply Hacc.
Qed.

Lemma sync_entry_delete_fails item w :
  faults w = [true] →
  (remote_step (request_of item.2) (remote w)).1 = true →
  sync_entry item w =
    (Ok tt,
     mkWorld
       (set_syncQueue (settle_entry item false (syncQueue (db w))) (db w))
       (remote_step (request_of item.2) (remote w)).2
       (isOnline w) (isSyncing w) []
       (trace w ++ [mkCall item.1 (request_of item.2) true])).
Proof.
  intros Hf Hok. unfold sync_entry, syncItem, remote_call, settle_entry.
  unfold db_queue_delete, db_queue_update, storage. unfold_m.
  destruct (remote_step (request_of item.2) (remote w)) as [ok r'].
  simpl in Hok. subst ok. simpl. rewrite Hf. simpl.
  by destruct (5 <=? attempts item.2)%Z.
Qed.

(** X5. A replay that the remote accepted counts as failed when the local
    delete after it is rejected: the request has been applied remotely, and
    the entry is settled like a failed one, kept with [attempts + 1] (or
    evicted when [attempts] was already 5 or more), so that the next pass
    sends the same request again. *)
Theorem delete_failure_keeps_entry w k e rest :
  isSyncing w = false → isOnline w = true → faults w = [false; true] →
  toArray (syncQueue (db w)) = (k, e) :: rest →
  (remote_step (request_of e) (remote w)).1 = true →
  (sync w).1 = Ok tt ∧
  head (pass_calls w) = Some (mkCall k (request_of e) true) ∧
  qrows (syncQueue (db (sync w).2)) !! k = settle_row e false (Some e).
Proof.
  intros Hs Ho Hf Harr Hok.
  assert (qrows (syncQueue (db w)) !! k = Some e) as He.
  { apply toArray_elem. rewrite Harr. left. }
  assert (k ∉ rest.*1) as Hfresh.
  { pose proof (toArray_NoDup (syncQueue (db w))) as Hnd.
    rewrite Harr in Hnd. simpl in Hnd. by apply NoDup_cons in Hnd as [? _]. }
  set (w1 := set_db (db w) (set_faults [true] (set_isSyncing true w))).
  assert (sync w =
    (((sync_entry (k, e) ≫= λ _, sync_loop rest) w1).1,
     set_isSyncing false
       ((sync_entry (k, e) ≫= λ _, sync_loop rest) w1).2)) as Hsync.
  { unfold sync, db_queue_toArray, storage. unfold_m. rewrite Hs, Ho. simpl.
    rewrite Hf. simpl. rewrite Harr. simpl. fold w1.
    unfold_m. destruct (sync_entry (k, e) w1) as [[[]|] w2]; simpl; [|done].
    by destruct (sync_loop rest w2). }
  unfold pass_calls. rewrite Hsync. clear Hsync. unfold_m.
  rewrite sync_entry_delete_fails by done. simpl.
  rewrite sync_loop_healthy by done. simpl.
  rewrite replay_lookup_notin by done.
  rewrite <- app_assoc, drop_app_length. simpl.
  split_and!; [done..|].
  unfold settle_row. destruct (5 <=? attempts e)%Z; simpl.
  - apply lookup_delete_eq.
  - by rewrite lookup_alter_eq, He.
Qed.

(** The relation [keys_kept] along the steps of the engine. *)
#[export] Instance keys_kept_preorder : PreOrder (@keys_kept R).
Proof.
  split; [by intros w|].
  intros w1 w2 w3 [H1 L1] [H2 L2]. split; [auto|lia].
Qed.

Lemma storage_keys {A} (f : LifeOSDatabase → A * LifeOSDatabase) :
  (∀ w, keys_kept w (set_db (f (db w)).2 w)) →
  respects (@keys_kept R) (storage f).
Proof. intros Hf. by apply respects_storage; [apply _|..]. Qed.

Lemma sync_entry_keys item : respects (@keys_kept R) (sync_entry item).
Proof.
  assert (∀ k, respects (@keys_kept R) (db_queue_delete k)) as Hdel.
  { intros k. apply storage_keys. intros w. split; [|done].
    simpl. apply queue_delete_wf. }
  assert (∀ k a, respects (@keys_kept R) (db_queue_update k a)) as Hupd.
  { intros k a. apply storage_keys. intros w. split; [|done].
    simpl. apply queue_update_wf. }
  unfold sync_entry. apply respects_try_catch; [apply _|..].
  - apply respects_bind; [apply _| |by intros _].
    intros w. unfold syncItem, remote_call.
    by destruct (remote_step _ (remote w)) as [[] r].
  - intros _. apply respects_bind; [apply _|apply Hupd|].
    intros _. destruct (5 <=? attempts item.2)%Z;
      [apply Hdel | by apply respects_ret; apply _].
Qed.

Lemma keys_kept_sync_call (st : Engine R) :
  keys_kept (world st) (world (sync_call st)).
Proof.
  unfold sync_call.
  by destruct (isSyncing (world st) || negb (isOnline (world st))).
Qed.

Lemma keys_kept_continue i rest w (st : Engine R) :
  keys_kept w (world (continue i rest w st)).
Proof. by destruct rest. Qed.

Lemma step_keys (st st' : Engine R) ev :
  step ev st = Some st' → keys_kept (world st) (world st').
Proof.
  intros Hstep. destruct ev as [| | |name op rid payload now| |i];
    simpl in Hstep.
  - injection Hstep as <-.
    etrans; [|apply keys_kept_sync_call]. done.
  - by injection Hstep as <-.
  - injection Hstep as <-. apply keys_kept_sync_call.
  - assert (respects (@keys_kept R)
              (db_queue_add (mkSyncQueue name op rid payload now 0)))
      as Hadd.
    { apply storage_keys. intros w. split; simpl; [apply queue_add_wf|lia]. }
    specialize (Hadd (world st)).
    destruct (db_queue_add _ (world st)) as [[] w1]; simpl in *;
      by injection Hstep as <-.
  - destruct (enqueuing st) as [|n]; [done|]. injection Hstep as <-.
    destruct (isOnline (world st)); [|done].
    apply (keys_kept_sync_call (mkEngine (world st) (suspended st) n)).
  - unfold resume in Hstep.
    destruct (suspended st !! i) as [t|]; [|done].
    destruct t as [|[|item rest]].
    + assert (respects (@keys_kept R) db_queue_toArray) as Hread.
      { apply storage_keys. by intros w. }
      specialize (Hread (world st)).
      destruct (db_queue_toArray (world st)) as [[queue|] w1]; simpl in *;
        injection Hstep as <-; [|done].
      etrans; [done|]. apply keys_kept_continue.
    + by injection Hstep as <-.
    + pose proof (sync_entry_keys item (world st)) as Hent.
      destruct (sync_entry item (world st)) as [[] w1]; simpl in *;
        injection Hstep as <-; [|done].
      etrans; [done|]. apply keys_kept_continue.
Qed.

(** X6. Under every interleaving of connectivity events, calls of
    [addToQueue] and [sync] and resumptions of a pass, a well-formed outbox
    stays well-formed and its key generator never goes back: the key given
    to a new entry is above every key in the outbox, so enqueueing never
    overwrites a pending entry. *)
Theorem run_keeps_outbox_keys (st st' : Engine R) evs :
  run evs st = Some st' →
  queue_wf (syncQueue (db (world st))) →
  queue_wf (syncQueue (db (world st'))) ∧
  (qnext (syncQueue (db (world st))) ≤ qnext (syncQueue (db (world st'))))%N ∧
  qrows (syncQueue (db (world st'))) !! qnext (syncQueue (db (world st'))) = None.
Proof.
  intros Hrun Hwf.
  assert (keys_kept (world st) (world st')) as [Hk Hl].
  { revert st Hrun Hwf. induction evs as [|ev evs IH]; intros st Hrun Hwf.
    - by injection Hrun as <-.
    - simpl in Hrun. destruct (step ev st) as [st1|] eqn:Hstep; [|done].
      pose proof (step_keys _ _ _ Hstep) as H1.
      etrans; [exact H1|]. apply IH; [done|]. by apply H1. }
  split_and!; [auto|done|].
  destruct (qrows _ !! qnext _) eqn:E; [|done].
  apply Hk in E; [|done]. simpl in E. lia.
Qed.

End MorePasses.

(** ** [sanitizeInput] *)

Lemma text_length l : String.length (text l) = length l.
Proof. induction l as [|c l IH]; simpl; [done|]. by rewrite IH. Qed.

Lemma chars_text l : chars (text l) = l.
Proof. apply String.list_ascii_of_string_of_list_ascii. Qed.

Lemma remove_matches_sublist m skip s :
  remove_matches m skip s `sublist_of` s.
Proof.
  revert skip. induction s as [|c s IH]; intros skip; simpl; [done|].
  destruct skip as [|n]; [|by apply sublist_cons].
  destruct (m (c :: s)) as [[|n]|];
    [by apply sublist_skip | by apply sublist_cons | by apply sublist_skip].
Qed.

Lemma drop_spaces_drop s : ∃ n, drop_spaces s = drop n s.
Proof.
  induction s as [|c s [n IH]]; [by exists 0%nat|]. simpl.
  destruct (is_space c); [by exists (S n) | by exists 0%nat].
Qed.

Lemma drop_spaces_head s c : head (drop_spaces s) = Some c → is_space c = false.
Proof.
  induction s as [|c' s IH]; simpl; [done|].
  destruct (is_space c') eqn:E; [done|]. simpl. by intros [= <-].
Qed.

Lemma trim_take s : ∃ m, trim s = take m (drop_spaces s).
Proof.
  unfold trim. destruct (drop_spaces_drop (rev (drop_spaces s))) as [n ->].
  exists (length (drop_spaces s) - n)%nat.
  rewrite List.skipn_rev. apply List.rev_involutive.
Qed.

Lemma trim_sublist s : trim s `sublist_of` s.
Proof.
  destruct (trim_take s) as [m ->].
  destruct (drop_spaces_drop s) as [n ->].
  etrans; [apply sublist_take | apply sublist_drop].
Qed.

Lemma take_head_not_space m s c :
  head (take m (drop_spaces s)) = Some c → is_space c = false.
Proof.
  destruct m as [|m]; [done|]. intros Hc.
  apply (drop_spaces_head s). by destruct (drop_spaces s).
Qed.

Lemma sanitize_chars_sublist input : sanitize_chars input `sublist_of` input.
Proof.
  unfold sanitize_chars.
  assert (trim (remove_matches match_handler 0
            (remove_matches match_javascript 0
               (filter (fun c => negb (is_char 60 c || is_char 62 c)) input)))
          `sublist_of` input) as Hs.
  { etrans; [apply trim_sublist|].
    etrans; [apply remove_matches_sublist|].
    etrans; [apply remove_matches_sublist|]. apply sublist_filter. }
  destruct (_ <? _)%nat; [|done]. etrans; [apply sublist_take|done].
Qed.

Lemma sanitize_chars_length input :
  (length (sanitize_chars input) ≤ MAX_STRING_LENGTH)%nat.
Proof.
  unfold sanitize_chars.
  destruct (Nat.ltb_spec MAX_STRING_LENGTH
              (length (trim (remove_matches match_handler 0
                 (remove_matches match_javascript 0
                    (filter (fun c => negb (is_char 60 c || is_char 62 c))
                       input)))))) as [Hlt|Hge]; [|done].
  rewrite length_take. lia.
Qed.

Lemma sanitize_chars_angle input c :
  c ∈ sanitize_chars input → is_char 60 c || is_char 62 c = false.
Proof.
  unfold sanitize_chars. intros Hc.
  assert (c ∈ filter (fun c => negb (is_char 60 c || is_char 62 c)) input) as Hf.
  { eapply elem_of_sublist; [exact Hc|].
    assert (∀ l : list ascii,
      (if (MAX_STRING_LENGTH <? length l)%nat then take MAX_STRING_LENGTH l else l)
        `sublist_of` l) as Htake.
    { intros l. destruct (MAX_STRING_LENGTH <? length l)%nat;
        [apply sublist_take|done]. }
    etrans; [apply Htake|].
    etrans; [apply trim_sublist|].
    etrans; [apply remove_matches_sublist|]. apply remove_matches_sublist. }
  apply list_elem_of_filter in Hf as [Hf _].
  by destruct (is_char 60 c || is_char 62 c).
Qed.

Lemma sanitize_chars_head input c :
  head (sanitize_chars input) = Some c → is_space c = false.
Proof.
  unfold sanitize_chars.
  destruct (trim_take (remove_matches match_handler 0
              (remove_matches match_javascript 0
                 (filter (fun c => negb (is_char 60 c || is_char 62 c)) input))))
    as [m ->].
  destruct (_ <? _)%nat.
  - rewrite take_take. apply take_head_not_space.
  - apply take_head_not_space.
Qed.

Lemma sanitizeInput_length (input : Value) :
  (String.length (sanitizeInput input) ≤ 500)%nat.
Proof.
  unfold sanitizeInput. destruct input as [| | |s| | |]; simpl; try lia.
  destruct (String.eqb s EmptyString); simpl; [lia|].
  rewrite text_length. apply sanitize_chars_length.
Qed.

(** X7. Whatever it is given, [sanitizeInput] returns a string of at most
    500 characters that contains neither [<] nor [>] and does not start
    with white space. *)
Theorem sanitizeInput_bounds (input : Value) :
  (String.length (sanitizeInput input) ≤ 500)%nat ∧
  (∀ c, c ∈ chars (sanitizeInput input) →
        is_char 60 c = false ∧ is_char 62 c = false) ∧
  (∀ c, head (chars (sanitizeInput input)) = Some c → is_space c = false).
Proof.
  unfold sanitizeInput. destruct input as [| | |s| | |]; try (by split_and!; simpl; try lia; intros c Hc; [apply elem_of_nil in Hc|]).
  destruct (String.eqb s EmptyString).
  { split_and!; simpl; [lia| |done]. intros c Hc. by apply elem_of_nil in Hc. }
  rewrite text_length, chars_text. split_and!.
  - apply sanitize_chars_length.
  - intros c Hc. apply sanitize_chars_angle in Hc.
    by apply orb_false_elim in Hc.
  - apply sanitize_chars_head.
Qed.

(** X8. [sanitizeInput] only deletes characters: its result is a
    subsequence of the string it is given. *)
Theorem sanitizeInput_subsequence (s : string) :
  chars (sanitizeInput (VStr s)) `sublist_of` chars s.
Proof.
  unfold sanitizeInput. destruct (String.eqb s EmptyString).
  - apply sublist_nil_l.
  - rewrite chars_text. apply sanitize_chars_sublist.
Qed.

(** The pattern for [javascript:] is applied once, from left to right, and
    what the removal puts together is not looked at again. *)
Example sanitizeInput_is_one_pass :
  sanitizeInput (VStr "javajavascript:script:") = "javascript:".
Proof. reflexivity. Qed.

(** ** [createExpense] *)

Lemma category_of_valid v : category_of v ∈ VALID_CATEGORIES.
Proof.
  assert ("Other" ∈ VALID_CATEGORIES) as Hother.
  { unfold VALID_CATEGORIES. repeat (first [left | right]). }
  destruct v as [| | |c| | |]; simpl; try done.
  destruct (bool_decide (c ∈ VALID_CATEGORIES)) eqn:E; [|done].
  by apply bool_decide_eq_true in E.
Qed.

Lemma key_of_key_value k : key_of_value (key_value k) = ValidKey k.
Proof.
  destruct k as [n|s]; [|done]. unfold key_value, num_of_N, key_of_value.
  simpl QArith_base.Qnum. simpl QArith_base.Qden.
  rewrite Z.mod_1_r, Z.div_1_r, N2Z.id.
  by destruct (Z.leb_spec 0 (Z.of_N n)); [|lia].
Qed.

Lemma table_add_wf row t : table_wf t → table_wf (table_add row t).2.
Proof.
  unfold table_wf, table_add. simpl. intros Hwf.
  apply map_Forall_insert_2.
  - split; [|lia]. unfold prop. by rewrite lookup_insert_eq.
  - intros k o Hk. destruct (Hwf k o Hk) as [Hid Hlt]. split; [done|].
    destruct k; [lia|done].
Qed.

Lemma table_add_fresh t : table_wf t → rows t !! KNum (keygen t) = None.
Proof.
  intros Hwf. destruct (rows t !! KNum (keygen t)) eqn:E; [|done].
  destruct (Hwf _ _ E) as [_ Hlt]. lia.
Qed.

(** The amounts that pass the two tests of [createExpense] and of
    [validateExpenseAction]: [NaN], of which both comparisons are false, and
    the numbers above 0 and at most 999999. *)
Lemma valid_amount v :
  negb (is_number v) || number_le v (QArith_base.Qmake 0 1) = false →
  number_gt v (QArith_base.Qmake 999999 1) = false →
  v = VNaN ∨
  ∃ q, v = VNum q ∧ QArith_base.Qlt (QArith_base.Qmake 0 1) q ∧
       QArith_base.Qle q (QArith_base.Qmake 999999 1).
Proof.
  destruct v as [| |q| | | |[]]; simpl; try done; [|by left].
  intros Hle Hgt. right. exists q. split_and!; [done| |].
  - apply QArith_base.Qnot_le_lt. intros H.
    apply QArith_base.Qle_bool_iff in H. congruence.
  - apply QArith_base.Qle_bool_iff. by apply negb_false_iff.
Qed.

Section CreateExpenseFacts.

Context {R : Type} `{!RemoteBackend R}.

Implicit Types (w : World R).

(** The expense that [createExpense] builds from valid parameters. *)
Lemma createExpense_success w params userId date createdAt :
  succeeded (createExpense sanitizeInput params userId date createdAt w).1 = true →
  (prop params "amount" = VNaN ∨
   ∃ q, prop params "amount" = VNum q ∧
        QArith_base.Qlt (QArith_base.Qmake 0 1) q ∧
        QArith_base.Qle q (QArith_base.Qmake 999999 1)) ∧
  db (createExpense sanitizeInput params userId date createdAt w).2 =
    set_expenses
      (table_add
         (<["amount" := prop params "amount"]>
          (<["category" := VStr (category_of (prop params "category"))]>
          (<["description" :=
               if truthy (prop params "description")
               then VStr (sanitizeInput (prop params "description"))
               else VUndefined]>
          (<["date" := VDate date]>
          (<["createdAt" := VDate createdAt]>
          (<["owner_id" := VStr userId]>
          (<["synced" := VBool false]> ∅)))))))
         (expenses (db w))).2 (db w).
Proof.
  unfold createExpense.
  destruct (negb _ || _) eqn:E1; [done|].
  destruct (number_gt _ _) eqn:E2; [done|].
  unfold db_expenses_add, storage. unfold_m.
  destruct (faults w) as [|[] fs] eqn:Hf; simpl; intros Hok; try done.
  all: split; [by apply valid_amount|done].
Qed.

Lemma createExpense_failure w params userId date createdAt :
  succeeded (createExpense sanitizeInput params userId date createdAt w).1 = false →
  db (createExpense sanitizeInput params userId date createdAt w).2 = db w.
Proof.
  unfold createExpense.
  destruct (negb _ || _); [done|]. destruct (number_gt _ _); [done|].
  unfold db_expenses_add, storage. unfold_m.
  by destruct (faults w) as [|[] fs].
Qed.

(** X9. When [createExpense] reports success it has added exactly one row
    to the expenses table, under the next generated key. The row carries
    that key as its [id], the [owner_id] of the caller, [synced = false], the
    two dates, and the amount of the parameters, which is [NaN] or a number
    above 0 and at most 999999; its category is the one of the parameters
    when that is one of [VALID_CATEGORIES] and [Other] otherwise; its
    description is [undefined] when the parameters give none, and otherwise
    the description of the parameters as [sanitizeInput] returns it, of at
    most 500 characters. *)
Theorem createExpense_stores_valid_row w params userId date createdAt :
  succeeded (createExpense sanitizeInput params userId date createdAt w).1 = true →
  ∃ row,
    rows (expenses (db (createExpense sanitizeInput params userId date createdAt w).2))
      = <[KNum (keygen (expenses (db w))) := row]> (rows (expenses (db w))) ∧
    keygen (expenses (db (createExpense sanitizeInput params userId date createdAt w).2))
      = N.succ (keygen (expenses (db w))) ∧
    prop row "id" = num_of_N (keygen (expenses (db w))) ∧
    prop row "owner_id" = VStr userId ∧
    prop row "synced" = VBool false ∧
    prop row "date" = VDate date ∧
    prop row "createdAt" = VDate createdAt ∧
    prop row "amount" = prop params "amount" ∧
    (prop params "amount" = VNaN ∨
     ∃ q, prop params "amount" = VNum q ∧
          QArith_base.Qlt (QArith_base.Qmake 0 1) q ∧
          QArith_base.Qle q (QArith_base.Qmake 999999 1)) ∧
    prop row "category" = VStr (category_of (prop params "category")) ∧
    category_of (prop params "category") ∈ VALID_CATEGORIES ∧
    (∀ c, prop params "category" = VStr c → c ∈ VALID_CATEGORIES →
          category_of (prop params "category") = c) ∧
    prop row "description" =
      (if truthy (prop params "description")
       then VStr (sanitizeInput (prop params "description"))
       else VUndefined) ∧
    (String.length (sanitizeInput (prop params "description")) ≤ 500)%nat.
Proof.
  intros Hok.
  destruct (createExpense_success _ _ _ _ _ Hok) as (Ha & ->).
  eexists. simpl. split; [reflexivity|]. split; [done|].
  unfold prop at 1 2 3 4 5 6 8 9. split_and!; try by simplify_map_eq.
  - apply category_of_valid.
  - intros c -> Hc. simpl. by rewrite bool_decide_eq_true_2.
  - apply sanitizeInput_length.
Qed.

(** X10. [createExpense] does not write unless it reports success: when
    the result is a failure (an amount that is no number, not positive or
    above 999999, or a rejected request to the store) the database is as it
    was. On a well-formed expenses table a success keeps the table
    well-formed and the new row takes a key that no expense had, so no
    stored expense is overwritten. *)
Theorem createExpense_writes_only_on_success w params userId date createdAt :
  (succeeded (createExpense sanitizeInput params userId date createdAt w).1 = false →
   db (createExpense sanitizeInput params userId date createdAt w).2 = db w) ∧
  (table_wf (expenses (db w)) →
   table_wf (expenses (db (createExpense sanitizeInput params userId date createdAt w).2)) ∧
   ∀ k o, rows (expenses (db w)) !! k = Some o →
     rows (expenses (db (createExpense sanitizeInput params userId date createdAt w).2))
       !! k = Some o).
Proof.
  split; [apply createExpense_failure|].
  intros Hwf.
  destruct (succeeded (createExpense sanitizeInput params userId date createdAt w).1)
    eqn:Hok.
  - destruct (createExpense_success _ _ _ _ _ Hok) as (_ & ->).
    simpl. split; [by apply (table_add_wf _ _ Hwf)|].
    intros k o Hk. rewrite lookup_insert_ne; [done|].
    intros <-. by rewrite (table_add_fresh _ Hwf) in Hk.
  - by rewrite (createExpense_failure _ _ _ _ _ Hok).
Qed.

End CreateExpenseFacts.

(** ** [deleteExpense] *)

Lemma owned_rows_owned : recent_owned owned_rows.
Proof.
  intros t userId o Ho. unfold owned_rows in Ho.
  apply list_elem_of_filter in Ho as [Hown Ho].
  apply list_elem_of_fmap in Ho as [[k o'] [-> Hin]].
  apply elem_of_map_to_list in Hin. split; [by exists k|done].
Qed.

Section DeleteExpenseFacts.

Context {R : Type} `{!RemoteBackend R}.
Variable recent_expenses : Table → string → list Obj.

Implicit Types (w : World R).

Lemma storage_cases {A} (f : LifeOSDatabase → A * LifeOSDatabase) w :
  (∃ w0, only_faults_used w w0 ∧ storage f w = (Throw StorageError, w0)) ∨
  (∃ w0, only_faults_used w w0 ∧
         storage f w = (Ok (f (db w)).1, set_db (f (db w)).2 w0)).
Proof.
  unfold storage. destruct (faults w) as [|[] fs].
  - right. exists w. split; [done|]. by destruct (f (db w)).
  - left. by exists (set_faults fs w).
  - right. exists (set_faults fs w). split; [done|]. by destruct (f (db w)).
Qed.

Lemma set_db_same w w1 : only_faults_used w w1 → set_db (db w) w1 = w1.
Proof. intros (Hdb & _). destruct w1; simpl in *. by subst. Qed.

(** What [deleteExpense] does once it has found the expense [row] under
    the key [k]. *)
Lemma delete_found w k row :
  table_wf (expenses (db w)) → rows (expenses (db w)) !! k = Some row →
  ∃ w0, only_faults_used w w0 ∧
    ((db_expenses_delete (prop row "id") w = (Throw StorageError, w0)) ∨
     (db_expenses_delete (prop row "id") w =
        (Ok tt,
         set_db (set_expenses
                   (mkTable (delete k (rows (expenses (db w))))
                            (keygen (expenses (db w)))) (db w)) w0))).
Proof.
  intros Hwf Hk. destruct (Hwf k row Hk) as [Hid _].
  unfold db_expenses_delete. rewrite Hid, key_of_key_value.
  destruct (storage_cases
    (fun d => (tt, set_expenses (mkTable (delete k (rows (expenses d)))
                                   (keygen (expenses d))) d)) w)
    as [(w0 & H0 & ->)|(w0 & H0 & ->)]; exists w0; auto.
Qed.

(** The outcomes of [deleteExpense]: nothing is changed and a failure is
    reported, or one expense of the user is deleted, and success is reported
    when the amount of that expense is a number. *)
Lemma deleteExpense_cases w params userId :
  recent_owned recent_expenses → table_wf (expenses (db w)) →
  ∃ o w0, only_faults_used w w0 ∧
    ((deleteExpense recent_expenses params userId w = (Ok o, w0) ∧ ok o = false) ∨
     (∃ k row,
        rows (expenses (db w)) !! k = Some row ∧
        owner_differs row userId = false ∧
        (truthy (prop params "expenseId") = true →
         key_of_value (prop params "expenseId") = ValidKey k) ∧
        deleteExpense recent_expenses params userId w =
          (Ok o,
           set_db (set_expenses
                     (mkTable (delete k (rows (expenses (db w))))
                              (keygen (expenses (db w)))) (db w)) w0) ∧
        ok o = is_number (prop row "amount"))).
Proof.
  intros Hrecent Hwf.
  assert (∀ w1 k row, only_faults_used w w1 →
            rows (expenses (db w)) !! k = Some row →
            owner_differs row userId = false →
            (truthy (prop params "expenseId") = true →
             key_of_value (prop params "expenseId") = ValidKey k) →
            ∃ o w0, only_faults_used w w0 ∧
              ((try_catch
                  (db_expenses_delete (prop row "id");;
                   mret (if is_number (prop row "amount")
                         then mkOutcome true None
                                (Some (<["expenseId" := prop row "id"]>
                                      (<["amount" := prop row "amount"]> ∅)))
                         else failed ErrThrown))
                  (fun error => mret (failed ErrThrown)) w1 = (Ok o, w0) ∧
                ok o = false) ∨
               (try_catch
                  (db_expenses_delete (prop row "id");;
                   mret (if is_number (prop row "amount")
                         then mkOutcome true None
                                (Some (<["expenseId" := prop row "id"]>
                                      (<["amount" := prop row "amount"]> ∅)))
                         else failed ErrThrown))
                  (fun error => mret (failed ErrThrown)) w1 =
                  (Ok o,
                   set_db (set_expenses
                             (mkTable (delete k (rows (expenses (db w))))
                                      (keygen (expenses (db w)))) (db w)) w0) ∧
                ok o = is_number (prop row "amount")))) as Hfound.
  { intros w1 k row H1 Hk Hown Hkey.
    pose proof H1 as (Hdb & _).
    destruct (delete_found w1 k row) as (w0 & H0 & [Hd|Hd]).
    { by rewrite Hdb. } { by rewrite Hdb. }
    - exists (failed ErrThrown), w0. split.
      { destruct H0 as (?&?&?&?&?), H1 as (?&?&?&?&?).
        repeat split; congruence. }
      left. unfold_m. by rewrite Hd.
    - eexists _, w0. split.
      { destruct H0 as (?&?&?&?&?), H1 as (?&?&?&?&?).
        repeat split; congruence. }
      right. unfold_m. rewrite Hd, Hdb. simpl.
      split; [reflexivity|]. by destruct (is_number (prop row "amount")). }
  unfold deleteExpense.
  destruct (truthy (prop params "expenseId")) eqn:Ht.
  - unfold db_expenses_get.
    destruct (key_of_value (prop params "expenseId")) as [k| |] eqn:Hkey.
    + destruct (storage_cases (fun d => (rows (expenses d) !! k, d)) w)
        as [(w1 & H1 & Hs)|(w1 & H1 & Hs)].
      { exists (failed ErrThrown), w1. split; [done|]. left.
        unfold_m. by rewrite Hs. }
      simpl in Hs.
      destruct (rows (expenses (db w)) !! k) as [row|] eqn:Hk.
      * destruct (owner_differs row userId) eqn:Hown.
        { exists (failed ErrUnauthorized), w1. split; [done|]. left.
          unfold_m. rewrite Hs. simpl. rewrite Hown.
          by rewrite (set_db_same w w1). }
        destruct (Hfound w1 k row H1 Hk Hown (fun _ => eq_refl))
          as (o & w0 & H0 & Hcase).
        exists o, w0. split; [done|].
        pose proof (set_db_same w w1 H1) as Hw1.
        unfold_m. rewrite Hs. simpl. rewrite Hown, Hw1.
        unfold_m. destruct Hcase as [[Hc Hno]|[Hc Hyes]].
        -- left. by rewrite <- Hc.
        -- right. exists k, row. split_and!; try done; try by rewrite <- Hc.
      * exists (failed ErrNotFound), w1. split; [done|]. left.
        unfold_m. rewrite Hs. simpl.
        by rewrite (set_db_same w w1).
    + destruct (storage_cases (fun d => (@None Obj, d)) w)
        as [(w1 & H1 & Hs)|(w1 & H1 & Hs)].
      { exists (failed ErrThrown), w1. split; [done|]. left.
        unfold_m. by rewrite Hs. }
      exists (failed ErrNotFound), w1. split; [done|]. left.
      unfold_m. rewrite Hs. simpl.
      by rewrite (set_db_same w w1).
    + exists (failed ErrThrown), w. split; [done|]. by left.
  - unfold db_expenses_recent.
    destruct (storage_cases
                (fun d => (recent_expenses (expenses d) userId, d)) w)
      as [(w1 & H1 & Hs)|(w1 & H1 & Hs)].
    { exists (failed ErrThrown), w1. split; [done|]. left.
      unfold_m. by rewrite Hs. }
    simpl in Hs.
    pose proof (set_db_same w w1 H1) as Hw1.
    destruct (recent_expenses (expenses (db w)) userId) as [|row others] eqn:Hq.
    + exists (failed ErrNotFound), w1. split; [done|]. left.
      unfold_m. rewrite Hs. simpl. by rewrite Hw1.
    + destruct (Hrecent (expenses (db w)) userId row) as [[k Hk] Hown].
      { rewrite Hq. left. }
      destruct (Hfound w1 k row H1 Hk Hown) as (o & w0 & H0 & Hcase).
      { intros Ht'. congruence. }
      exists o, w0. split; [done|].
      unfold_m. rewrite Hs. simpl. rewrite Hw1.
      unfold_m. destruct Hcase as [[Hc Hno]|[Hc Hyes]].
      * left. by rewrite <- Hc.
      * right. exists k, row.
        split_and!; try done; try congruence; try by rewrite <- Hc.
Qed.

(** X11. [deleteExpense] resolves for every state of the store, and it
    never touches what is not the caller's: with a query for the recent
    expenses that yields rows of the caller, and an expenses table whose rows
    carry their keys, every expense of another owner is kept as it is, no row
    is added or changed, and the other tables, the outbox and the remote
    backend are as before. *)
Theorem deleteExpense_spares_other_owners w params userId :
  recent_owned recent_expenses → table_wf (expenses (db w)) →
  ∃ o w',
    deleteExpense recent_expenses params userId w = (Ok o, w') ∧
    (∀ k row, rows (expenses (db w)) !! k = Some row →
       owner_differs row userId = true →
       rows (expenses (db w')) !! k = Some row) ∧
    (∀ k row, rows (expenses (db w')) !! k = Some row →
       rows (expenses (db w)) !! k = Some row) ∧
    db w' = set_expenses (expenses (db w')) (db w) ∧
    trace w' = trace w ∧ remote w' = remote w.
Proof.
  intros Hrecent Hwf.
  destruct (deleteExpense_cases w params userId Hrecent Hwf)
    as (o & w0 & (Hdb & Hrem & _ & _ & Htr) &
        [[-> Hno]|(k & row & Hk & Hown & _ & -> & _)]).
  - exists o, w0. rewrite Hdb. split_and!; try done.
    by destruct (db w).
  - eexists _, _. split; [reflexivity|]. simpl. split_and!; try done.
    + intros k' row' Hk' Hown'. rewrite lookup_delete_ne; [done|].
      intros <-. congruence.
    + intros k' row' Hk'. by apply lookup_delete_Some in Hk' as [_ ?].
Qed.

(** X12. When [deleteExpense] reports success, exactly one expense has left
    the table, and it is one the caller owns: the one under the key given as
    [expenseId] when there is one. *)
Theorem deleteExpense_success_deletes_own w params userId :
  recent_owned recent_expenses → table_wf (expenses (db w)) →
  resolved_ok (deleteExpense recent_expenses params userId w).1 = true →
  ∃ k row,
    rows (expenses (db w)) !! k = Some row ∧
    owner_differs row userId = false ∧
    (truthy (prop params "expenseId") = true →
     key_of_value (prop params "expenseId") = ValidKey k) ∧
    rows (expenses (db (deleteExpense recent_expenses params userId w).2)) =
      delete k (rows (expenses (db w))).
Proof.
  intros Hrecent Hwf.
  destruct (deleteExpense_cases w params userId Hrecent Hwf)
    as (o & w0 & _ & [[-> Hno]|(k & row & Hk & Hown & Hkey & -> & _)]).
  - simpl. congruence.
  - intros _. by exists k, row.
Qed.

(** X13. The expense is deleted before the result is built: when the
    expense found under [expenseId] belongs to the caller and its [amount] is
    not a number, [deleteExpense] deletes it and then reports a failure. *)
Theorem deleteExpense_fails_after_deleting w params userId k row :
  faults w = [] → table_wf (expenses (db w)) →
  truthy (prop params "expenseId") = true →
  key_of_value (prop params "expenseId") = ValidKey k →
  rows (expenses (db w)) !! k = Some row →
  owner_differs row userId = false →
  is_number (prop row "amount") = false →
  (deleteExpense recent_expenses params userId w).1 = Ok (failed ErrThrown) ∧
  rows (expenses (db (deleteExpense recent_expenses params userId w).2)) !! k
    = None.
Proof.
  intros Hf Hwf Ht Hkey Hk Hown Hamount.
  destruct (Hwf k row Hk) as [Hid _].
  unfold deleteExpense, db_expenses_get. rewrite Ht, Hkey. unfold_m.
  rewrite storage_healthy by done. simpl. rewrite Hk, Hown.
  unfold db_expenses_delete. rewrite Hid, key_of_key_value.
  rewrite storage_healthy by (by destruct w). simpl.
  rewrite Hamount. split; [done|by rewrite lookup_delete_eq].
Qed.

End DeleteExpenseFacts.

(** ** [validateAction] *)

Section ValidationFacts.

Variable render : Value → string.

Lemma nonempty_string_spec v :
  nonempty_string v = true ↔ ∃ s, v = VStr s ∧ s ≠ EmptyString.
Proof.
  unfold nonempty_string. split.
  - destruct v as [| | |s| | |]; try done. intros Hs. exists s. split; [done|].
    intros ->. done.
  - intros (s & -> & Hs). apply negb_true_iff. by apply String.eqb_neq.
Qed.

(** An accepted action to create an expense has passed the two tests of
    the amount. *)
Lemma validated_amount action :
  valid (validateAction render action) = true →
  action_type action = "create" → entity action = "expense" →
  negb (is_number (prop (parameters action) "amount"))
    || number_le (prop (parameters action) "amount") (QArith_base.Qmake 0 1)
    = false ∧
  number_gt (prop (parameters action) "amount") MAX_NUMBER_VALUE = false.
Proof.
  unfold validateAction, validateExpenseAction. intros Hv Ht He.
  rewrite Ht, He in Hv. simpl in Hv.
  destruct (String.eqb (userId action) EmptyString); [done|].
  destruct (negb _ || _); [done|].
  by destruct (number_gt _ _).
Qed.

(** X14. What [validateAction] accepts: the type and the entity are known,
    the user id is not empty, and an action that creates a record names it
    with a non-empty string of safe characters (a task or a note by its
    title, a habit by its name) or, for an expense, gives an amount that is
    [NaN] or a number above 0 and at most 999999. *)
Theorem validateAction_accepts action :
  valid (validateAction render action) = true →
  action_type action ∈ validTypes ∧
  entity action ∈ validEntities ∧
  userId action ≠ EmptyString ∧
  (action_type action = "create" →
   (entity action = "task" ∨ entity action = "note" →
    ∃ s, prop (parameters action) "title" = VStr s ∧ s ≠ EmptyString ∧
         SAFE_STRING_PATTERN s = true) ∧
   (entity action = "habit" →
    ∃ s, prop (parameters action) "name" = VStr s ∧ s ≠ EmptyString ∧
         SAFE_STRING_PATTERN s = true) ∧
   (entity action = "expense" →
    prop (parameters action) "amount" = VNaN ∨
    ∃ q, prop (parameters action) "amount" = VNum q ∧
         QArith_base.Qlt (QArith_base.Qmake 0 1) q ∧
         QArith_base.Qle q MAX_NUMBER_VALUE)).
Proof.
  intros Hv. pose proof Hv as Hv'. unfold validateAction in Hv'.
  destruct (bool_decide (action_type action ∈ validTypes)) eqn:Ety; [|done].
  destruct (bool_decide (entity action ∈ validEntities)) eqn:Een; [|done].
  destruct (String.eqb (userId action) EmptyString) eqn:Eu; [done|].
  apply bool_decide_eq_true in Ety, Een. apply String.eqb_neq in Eu.
  simpl in Hv'. split_and!; try done.
  intros Hc. split_and!.
  - intros [He|He]; rewrite He in Hv'; simpl in Hv';
      [unfold validateTaskAction in Hv'|unfold validateNoteAction in Hv'];
      rewrite Hc in Hv'; simpl in Hv';
      destruct (nonempty_string _) eqn:En; try done;
      apply nonempty_string_spec in En as (s & Hs & Hne);
      exists s; rewrite Hs in Hv' |- *; simpl in Hv';
      by destruct (SAFE_STRING_PATTERN s).
  - intros He. rewrite He in Hv'. simpl in Hv'.
    unfold validateHabitAction in Hv'. rewrite Hc in Hv'. simpl in Hv'.
    destruct (nonempty_string _) eqn:En; try done.
    apply nonempty_string_spec in En as (s & Hs & Hne).
    exists s. rewrite Hs in Hv' |- *. simpl in Hv'.
    by destruct (SAFE_STRING_PATTERN s).
  - intros He. destruct (validated_amount action Hv Hc He) as [Hpos Hmax].
    by apply valid_amount.
Qed.

(** X15. A task cannot be addressed by the index 0: an action that updates
    or deletes a task and identifies it by [index: 0] only, which is how the
    first task is referred to, is rejected for want of an identifier. *)
Theorem validateAction_rejects_index_zero action :
  entity action = "task" →
  action_type action = "update" ∨ action_type action = "delete" →
  userId action ≠ EmptyString →
  truthy (prop (parameters action) "taskId") = false →
  truthy (prop (parameters action) "title") = false →
  prop (parameters action) "index" = num_of_N 0 →
  validateAction render action = rejected "Task identifier required".
Proof.
  intros He Ht Hu Hid Htitle Hindex. unfold validateAction, validateTaskAction.
  apply String.eqb_neq in Hu. rewrite He, Hu, Hid, Htitle, Hindex.
  by destruct Ht as [-> | ->].
Qed.

End ValidationFacts.

(** ** [validateAction] and [executeExpenseAction] *)

Section ExecuteExpenseFacts.

Context {R : Type} `{!RemoteBackend R}.
Variable render : Value → string.
Variable recent_expenses : Table → string → list Obj.
Variable readExpenses analyzeExpenses : Obj → string → M R Outcome.

Implicit Types (w : World R).

(** X16. An action to create an expense that [validateAction] accepts is
    never refused by [executeExpenseAction] for its amount: the action
    resolves, the only failure left is a rejected request to the store, which
    leaves the database as it was, and on a store that answers its requests
    the expense is stored under the next key with the amount of the action
    and the user of the action as owner. *)
Theorem validated_expense_is_created action date createdAt w :
  valid (validateAction render action) = true →
  action_type action = "create" → entity action = "expense" →
  ∃ o w',
    executeExpenseAction recent_expenses readExpenses analyzeExpenses
      action date createdAt w = (Ok o, w') ∧
    (faults w = [] → ok o = true) ∧
    (ok o = false →
     problem o = Some (ErrCreate (Caught StorageError)) ∧ db w' = db w) ∧
    (ok o = true →
     ∃ row,
       rows (expenses (db w')) !! KNum (keygen (expenses (db w))) = Some row ∧
       prop row "owner_id" = VStr (userId action) ∧
       prop row "amount" = prop (parameters action) "amount").
Proof.
  intros Hv Hc He.
  destruct (validated_amount render action Hv Hc He) as [Hpos Hmax].
  unfold MAX_NUMBER_VALUE in Hmax.
  unfold executeExpenseAction, createExpense. rewrite Hc, Hpos, Hmax.
  simpl String.eqb. cbv iota.
  unfold db_expenses_add, storage. unfold_m.
  destruct (faults w) as [|[] fs]; simpl.
  - eexists _, _. split; [reflexivity|]. simpl. split_and!; try done.
    intros _. eexists. rewrite lookup_insert_eq. split; [reflexivity|].
    unfold prop. by simplify_map_eq.
  - eexists _, _. split; [reflexivity|]. simpl. split_and!; done.
  - eexists _, _. split; [reflexivity|]. simpl. split_and!; try done.
    intros _. eexists. rewrite lookup_insert_eq. split; [reflexivity|].
    unfold prop. by simplify_map_eq.
Qed.

End ExecuteExpenseFacts.

(** ** [AIQueueManager] *)

Section AIQueueFacts.

Import AIQueueManager.

Context {S : Type} `{!AIService S}.

Implicit Types (d : Device S) (q : gmap N AIQueue) (task : Task).

Ltac unfold_q :=
  unfold mbind, Q_bind, mret, Q_ret, AIQueueManager.bind, AIQueueManager.ret,
    AIQueueManager.try_catch, AIQueueManager.fire_and_forget,
    AIQueueManager.read in *.

Lemma pending_elem q k t :
  (k, t) ∈ pending q ↔ q !! k = Some t ∧ status t = Pending.
Proof.
  unfold pending. rewrite list_elem_of_filter, merge_sort_Permutation.
  rewrite elem_of_map_to_list. simpl. tauto.
Qed.

Lemma pending_NoDup q : NoDup (pending q).*1.
Proof.
  unfold pending.
  assert (NoDup (merge_sort key_le (map_to_list q)).*1) as Hnd.
  { rewrite merge_sort_Permutation. apply NoDup_fst_map_to_list. }
  revert Hnd. generalize (merge_sort key_le (map_to_list q)).
  intros l. induction l as [|x l IH]; [done|].
  rewrite fmap_cons, NoDup_cons. intros [Hx Hl].
  rewrite filter_cons. destruct (decide _); [|by apply IH].
  rewrite fmap_cons. apply NoDup_cons. split; [|by apply IH].
  intros Hin. apply Hx. apply list_elem_of_fmap in Hin as [y [-> Hy]].
  apply list_elem_of_filter in Hy as [_ Hy]. apply list_elem_of_fmap. by exists y.
Qed.

Lemma pending_keys q k :
  k ∈ (pending q).*1 ↔ ∃ t, q !! k = Some t ∧ status t = Pending.
Proof.
  rewrite list_elem_of_fmap. split.
  - intros [[k' t] [-> Hin]]. apply pending_elem in Hin. by exists t.
  - intros [t Ht]. exists (k, t). split; [done|]. by apply pending_elem.
Qed.

Lemma storage_answers {A} (f : Device S → A * Device S) d :
  faults d = [] → storage f d = (Ok (f d).1, (f d).2).
Proof. intros Hf. unfold storage. rewrite Hf. by destruct (f d). Qed.

(** One turn of the loop on a store that answers its requests. *)
Lemma process_task_answers task d :
  faults d = [] →
  process_task task d =
    (Ok tt,
     mkDevice (alter (settled (ai_step (body_of task.2) (service d)).1) task.1
                     (aiQueue d))
              (aiNext d) (onLine d) []
              (ai_step (body_of task.2) (service d)).2
              (posted d ++ [body_of task.2])%list).
Proof.
  intros Hf. unfold process_task, db_aiQueue_update, fetch_output, storage.
  unfold_q. rewrite Hf. simpl. rewrite Hf.
  destruct (ai_step (body_of task.2) (service d)) as [[v|] s]; simpl;
    rewrite ?Hf; simpl; unfold set_aiQueue; simpl; do 2 f_equal;
    rewrite alter_alter_eq; apply alter_ext; by intros [].
Qed.

Lemma process_tasks_answers tasks d :
  faults d = [] →
  process_tasks tasks d =
    (Ok tt,
     let x := answer_all tasks (aiQueue d, service d, posted d) in
     mkDevice x.1.1 (aiNext d) (onLine d) [] x.1.2 x.2).
Proof.
  revert d. induction tasks as [|task rest IH]; intros d Hf.
  - simpl. unfold_q. destruct d; simpl in *. by subst.
  - simpl. unfold_q. rewrite process_task_answers by done.
    rewrite IH by done. simpl.
    by destruct (ai_step (body_of task.2) (service d)).
Qed.

Lemma answer_all_posted tasks q (s : S) sent :
  (answer_all tasks (q, s, sent)).2 = (sent ++ (body_of <$> tasks.*2))%list.
Proof.
  revert q s sent. induction tasks as [|task rest IH]; intros q s sent; simpl.
  - by rewrite app_nil_r.
  - destruct (ai_step _ _) as [r s']. rewrite IH. by rewrite <- app_assoc.
Qed.

Lemma answer_all_others tasks q (s : S) sent k :
  k ∉ tasks.*1 → (answer_all tasks (q, s, sent)).1.1 !! k = q !! k.
Proof.
  revert q s sent. induction tasks as [|task rest IH]; intros q s sent Hk;
    simpl; [done|].
  rewrite fmap_cons, not_elem_of_cons in Hk. destruct Hk as [Hne Hk].
  destruct (ai_step _ _) as [r s']. rewrite IH by done.
  by apply lookup_alter_ne.
Qed.

Lemma answer_all_settled tasks q (s : S) sent k :
  NoDup tasks.*1 → k ∈ tasks.*1 →
  ∃ r, (answer_all tasks (q, s, sent)).1.1 !! k = settled r <$> q !! k.
Proof.
  revert q s sent. induction tasks as [|task rest IH]; intros q s sent Hnd Hk;
    simpl.
  { by apply elem_of_nil in Hk. }
  rewrite fmap_cons in Hnd, Hk. apply NoDup_cons in Hnd as [Hfresh Hnd].
  destruct (ai_step _ _) as [r s'].
  destruct (decide (k = task.1)) as [->|Hne].
  - exists r. rewrite answer_all_others by done. apply lookup_alter_eq.
  - apply elem_of_cons in Hk as [?|Hk]; [done|].
    destruct (IH (alter (settled r) task.1 q) s' (sent ++ [body_of task.2])%list
                Hnd Hk) as [r' Hr'].
    exists r'. rewrite Hr'. by rewrite lookup_alter_ne.
Qed.

(** One turn of the loop writes the row of its task only, and keeps the
    key generator and the connectivity, whatever the store and the service
    do. *)
Lemma process_task_lookup task d k :
  aiQueue (process_task task d).2 !! k = aiQueue d !! k ∨
  (k = task.1 ∧ moved (aiQueue d) (aiQueue (process_task task d).2) k).
Proof.
  unfold process_task, db_aiQueue_update, fetch_output, storage. unfold_q.
  destruct (ai_step (body_of task.2) (service d)) as [[v|] s] eqn:Hs;
    destruct (faults d) as [|[] [|[] [|[] fs]]] eqn:Hf; simpl;
    rewrite ?Hs, ?Hf; simpl; rewrite ?Hs, ?Hf; simpl.
  all: destruct (decide (k = task.1)) as [->|Hne];
    [|left; by rewrite ?lookup_alter_ne].
  all: destruct (aiQueue d !! task.1) as [t|] eqn:E;
    [|left; by rewrite ?lookup_alter_eq, ?E].
  all: first [ by left; rewrite ?lookup_alter_eq, ?E
             | right; split; [done|]; unfold moved;
               rewrite ?lookup_alter_eq, ?E; simpl;
               eexists _, _; split_and!; [done|reflexivity|done|done] ].
Qed.

Lemma process_tasks_lookup tasks d k :
  aiQueue (process_tasks tasks d).2 !! k = aiQueue d !! k ∨
  (k ∈ tasks.*1 ∧ moved (aiQueue d) (aiQueue (process_tasks tasks d).2) k).
Proof.
  revert d. induction tasks as [|task rest IH]; intros d; [by left|].
  simpl. unfold_q. pose proof (process_task_lookup task d k) as H1.
  destruct (process_task task d) as [[[]|e] d1]; simpl in *.
  - destruct (IH d1) as [H2|[Hin (t1 & t' & Ht1 & Ht' & Hst & Hb & Hts)]];
      destruct H1 as [H1|[-> (t & t1' & Ht & Ht1' & Hst1 & Hb1 & Hts1)]].
    + left. congruence.
    + right. split; [left|]. exists t, t1'. split_and!; try done. congruence.
    + right. split; [by right|]. exists t1, t'. split_and!; try done. congruence.
    + right. split; [left|]. exists t, t'. split_and!; try done.
      rewrite Ht1' in Ht1. injection Ht1 as <-. split; congruence.
  - destruct H1 as [H1|[-> H1]]; [by left|]. right. split; [left|done].
Qed.

Lemma processQueue_lookup d k :
  aiQueue (processQueue d).2 !! k = aiQueue d !! k ∨
  (k ∈ (pending (aiQueue d)).*1 ∧
   moved (aiQueue d) (aiQueue (processQueue d).2) k).
Proof.
  unfold processQueue, db_aiQueue_pending, storage. unfold_q.
  destruct (faults d) as [|[] fs]; simpl; [|by left|].
  - apply process_tasks_lookup.
  - apply (process_tasks_lookup (pending (aiQueue d)) (set_faults fs d)).
Qed.

(** A task that is not pending is out of reach of [processQueue]. *)
Lemma processed_keeps_settled n d k t :
  aiQueue d !! k = Some t → status t ≠ Pending →
  aiQueue (processed n d) !! k = Some t.
Proof.
  intros Hk Hst. induction n as [|n IH]; [done|].
  change (processed (Datatypes.S n) d) with (processQueue (processed n d)).2.
  destruct (processQueue_lookup (processed n d) k) as [->|[Hin _]]; [done|].
  apply pending_keys in Hin as (t' & Ht' & Hp). congruence.
Qed.


(** X19. Whatever the local store and the service do, any number of calls
    of [processQueue] neither adds nor removes a task, leaves the request of
    every task and its time as they were enqueued, and never makes a task
    pending: a task that is pending afterwards is unchanged. *)
Theorem processQueue_keeps_tasks n d k :
  match aiQueue d !! k with
  | Some t =>
      ∃ t', aiQueue (processed n d) !! k = Some t' ∧ same_request t t' ∧
            (status t' = Pending → t' = t)
  | None => aiQueue (processed n d) !! k = None
  end.
Proof.
  induction n as [|n IH].
  { simpl. destruct (aiQueue d !! k) as [t|]; [|done]. by exists t. }
  change (processed (Datatypes.S n) d) with (processQueue (processed n d)).2.
  destruct (processQueue_lookup (processed n d) k)
    as [->|[_ (t1 & t' & Ht1 & Ht' & Hst & Hb & Hts)]]; [done|].
  rewrite Ht1 in IH. destruct (aiQueue d !! k) as [t|]; [|done].
  destruct IH as (t1' & [= <-] & [Hb1 Hts1] & _).
  exists t'. split_and!; try done. split; congruence.
Qed.

Lemma processQueue_answers d :
  faults d = [] →
  (processQueue d).1 = Ok tt ∧
  pending (aiQueue (processQueue d).2) = [] ∧
  posted (processQueue d).2
    = (posted d ++ (body_of <$> (pending (aiQueue d)).*2))%list ∧
  ∀ k t, aiQueue d !! k = Some t → status t = Pending →
    ∃ r, aiQueue (processQueue d).2 !! k = Some (settled r t).
Proof.
  intros Hf.
  assert (processQueue d = process_tasks (pending (aiQueue d)) d) as ->.
  { unfold processQueue, db_aiQueue_pending. unfold_q.
    by rewrite storage_answers by done. }
  rewrite process_tasks_answers by done. simpl.
  assert (∀ k t, aiQueue d !! k = Some t → status t = Pending →
            ∃ r, (answer_all (pending (aiQueue d))
                    (aiQueue d, service d, posted d)).1.1 !! k
                 = Some (settled r t)) as Hall.
  { intros k t Hk Hp.
    destruct (answer_all_settled (pending (aiQueue d)) (aiQueue d) (service d)
                (posted d) k) as [r Hr].
    - apply pending_NoDup.
    - apply pending_keys. by exists t.
    - exists r. by rewrite Hr, Hk. }
  split_and!; [done| |apply answer_all_posted|done].
  set (q' := (answer_all _ _).1.1) in *.
  destruct (pending q') as [|[k t'] l] eqn:E; [done|].
  assert ((k, t') ∈ pending q') as Hin by (rewrite E; left).
  apply pending_elem in Hin as [Hk' Hp'].
  destruct (decide (k ∈ (pending (aiQueue d)).*1)) as [Hk|Hk].
  - apply pending_keys in Hk as (t & Ht & Hp).
    destruct (Hall k t Ht Hp) as [r Hr]. rewrite Hr in Hk'.
    injection Hk' as <-. by destruct r.
  - unfold q' in Hk'. rewrite answer_all_others in Hk' by done.
    destruct Hk. apply pending_keys. by exists t'.
Qed.

Lemma answer_all_app l1 l2 (x : gmap N AIQueue * S * list Body) :
  answer_all (l1 ++ l2) x = answer_all l2 (answer_all l1 x).
Proof.
  revert x. induction l1 as [|task rest IH]; intros [[q s] sent]; [done|].
  simpl. destruct (ai_step _ _) as [r s']. apply IH.
Qed.

Lemma answer_all_service tasks q (s : S) sent :
  (answer_all tasks (q, s, sent)).1.2 = service_after tasks s.
Proof.
  revert q s sent. induction tasks as [|task rest IH]; intros q s sent; [done|].
  simpl. destruct (ai_step (body_of task.2) s) as [r s']. apply IH.
Qed.

(** The row of a task of the array when the loop is over: settled with
    what the service returned for its request, in the state the service had
    when the tasks before it had been answered. *)
Lemma answer_all_output (before after : list Task) k t q (s : S) sent :
  NoDup (before ++ (k, t) :: after)%list.*1 → q !! k = Some t →
  (answer_all (before ++ (k, t) :: after)%list (q, s, sent)).1.1 !! k
    = Some (settled (ai_step (body_of t) (service_after before s)).1 t).
Proof.
  intros Hnd Hk. rewrite fmap_app, fmap_cons in Hnd.
  apply NoDup_app in Hnd as (_ & Hbefore & Hafter).
  apply NoDup_cons in Hafter as [Hafter _].
  rewrite answer_all_app.
  pose proof (answer_all_service before q s sent) as Hs.
  pose proof (answer_all_others before q s sent k) as Hq.
  destruct (answer_all before (q, s, sent)) as [[q1 s1] sent1].
  simpl in *. subst s1.
  destruct (ai_step (body_of t) (service_after before s)) as [r s'].
  rewrite answer_all_others by done. simpl.
  rewrite lookup_alter_eq, Hq, Hk; [done|].
  intros Hin. apply (Hbefore k); [done|left].
Qed.

(** X20. On a local store that answers its requests [processQueue]
    resolves and leaves no task pending. It posts one request per pending
    task, in the order of their keys, and the service answers them in that
    order. Every pending task ends with what the service returned for its
    request: as [done] with the output as result, or as [error] with the
    text of the [catch] block when the request failed. The other tasks are
    as they were. *)
Theorem processQueue_settles_pending d :
  faults d = [] →
  (processQueue d).1 = Ok tt ∧
  pending (aiQueue (processQueue d).2) = [] ∧
  posted (processQueue d).2
    = (posted d ++ (body_of <$> (pending (aiQueue d)).*2))%list ∧
  service (processQueue d).2 = service_after (pending (aiQueue d)) (service d) ∧
  (∀ before k t after,
     pending (aiQueue d) = (before ++ (k, t) :: after)%list →
     aiQueue (processQueue d).2 !! k =
       Some (match (ai_step (body_of t) (service_after before (service d))).1 with
             | Some output => set_outcome Done output t
             | None =>
                 set_outcome Failed (VStr "Failed to process AI request") t
             end)) ∧
  (∀ k t, aiQueue d !! k = Some t → status t ≠ Pending →
          aiQueue (processQueue d).2 !! k = Some t).
Proof.
  intros Hf.
  destruct (processQueue_answers d Hf) as (Hok & Hnone & Hposted & _).
  split_and!; [done..| | |].
  - unfold processQueue, db_aiQueue_pending. unfold_q.
    rewrite storage_answers by done. simpl.
    rewrite process_tasks_answers by done. simpl. apply answer_all_service.
  - intros before k t after E.
    assert (aiQueue d !! k = Some t) as Hk.
    { apply (pending_elem (aiQueue d) k t). rewrite E.
      apply elem_of_app. right. left. }
    unfold processQueue, db_aiQueue_pending. unfold_q.
    rewrite storage_answers by done. simpl.
    rewrite process_tasks_answers by done. simpl. rewrite E.
    pose proof (pending_NoDup (aiQueue d)) as Hnd. rewrite E in Hnd.
    by apply (answer_all_output before after).
  - intros k t Hk Hst. by apply (processed_keeps_settled 1 d k t).
Qed.

(** One turn of the loop in which the store rejects the second update. *)
Lemma process_task_rejected task d :
  faults d = [false; true] →
  process_task task d =
    (match (ai_step (body_of task.2) (service d)).1 with
     | Some _ => Ok tt
     | None => Throw StorageError
     end,
     mkDevice (alter (match (ai_step (body_of task.2) (service d)).1 with
                      | Some _ => settled None
                      | None => set_status Processing
                      end) task.1 (aiQueue d))
              (aiNext d) (onLine d) []
              (ai_step (body_of task.2) (service d)).2
              (posted d ++ [body_of task.2])%list).
Proof.
  intros Hf. unfold process_task, db_aiQueue_update, fetch_output, storage.
  unfold_q. rewrite Hf. simpl.
  destruct (ai_step (body_of task.2) (service d)) as [[v|] s]; simpl; [|done].
  unfold set_aiQueue. simpl. do 2 f_equal.
  rewrite alter_alter_eq. apply alter_ext. by intros [].
Qed.

Lemma pending_head q k t rest :
  pending q = (k, t) :: rest → q !! k = Some t ∧ k ∉ rest.*1.
Proof.
  intros E. split.
  - apply (pending_elem q k t). rewrite E. left.
  - pose proof (pending_NoDup q) as Hnd. rewrite E, fmap_cons in Hnd.
    by apply NoDup_cons in Hnd as [? _].
Qed.

(** X21. An answer that cannot be stored is lost: when the service has
    answered for the first pending task and the store rejects the update
    that would record the output, the task is marked [error] with the text
    of the [catch] block, although its request was posted and answered;
    [processQueue] goes on with the other tasks and resolves. *)
Theorem processQueue_loses_answer d k t rest v :
  faults d = [false; false; true] →
  pending (aiQueue d) = (k, t) :: rest →
  (ai_step (body_of t) (service d)).1 = Some v →
  (processQueue d).1 = Ok tt ∧
  aiQueue (processQueue d).2 !! k = Some (settled None t) ∧
  posted (processQueue d).2
    = (posted d ++ body_of t :: (body_of <$> rest.*2))%list.
Proof.
  intros Hf E Hv. destruct (pending_head _ _ _ _ E) as [Hk Hfresh].
  unfold processQueue, db_aiQueue_pending, storage. unfold_q.
  rewrite Hf. simpl. rewrite E. simpl. unfold_q.
  rewrite process_task_rejected by done. simpl. rewrite Hv.
  rewrite process_tasks_answers by done. simpl. split_and!; [done| |].
  - rewrite answer_all_others by done. by rewrite lookup_alter_eq, Hk.
  - rewrite answer_all_posted. by rewrite <- app_assoc.
Qed.

(** X22. A task can be stranded: when the request of the first pending
    task fails and the store rejects the update of the [catch] block,
    [processQueue] rejects, the task is left in [processing], no other task
    has been touched, and no later call of [processQueue] changes the
    stranded task. *)
Theorem processQueue_strands_task d k t rest :
  faults d = [false; false; true] →
  pending (aiQueue d) = (k, t) :: rest →
  (ai_step (body_of t) (service d)).1 = None →
  (processQueue d).1 = Throw StorageError ∧
  (∀ n, aiQueue (processed n (processQueue d).2) !! k
        = Some (set_status Processing t)) ∧
  (∀ k', k' ≠ k → aiQueue (processQueue d).2 !! k' = aiQueue d !! k').
Proof.
  intros Hf E Hv. destruct (pending_head _ _ _ _ E) as [Hk Hfresh].
  assert (processQueue d =
          (Throw StorageError,
           mkDevice (alter (set_status Processing) k (aiQueue d))
             (aiNext d) (onLine d) [] (ai_step (body_of t) (service d)).2
             (posted d ++ [body_of t])%list)) as ->.
  { unfold processQueue, db_aiQueue_pending, storage. unfold_q.
    rewrite Hf. simpl. rewrite E. simpl. unfold_q.
    rewrite process_task_rejected by done. simpl. by rewrite Hv. }
  simpl. split_and!; [done| |].
  - intros n. apply processed_keeps_settled; [|done].
    simpl. by rewrite lookup_alter_eq, Hk.
  - intros k' Hne. by apply lookup_alter_ne.
Qed.

(** X23. [addToQueue] on a store that answers its requests: it resolves
    with the key of the new task, which no task had; offline the new task is
    stored as pending, with no result, and nothing is posted; online the
    call of [processQueue] it starts works off the whole backlog, the new
    task included, so that no task is left pending. *)
Theorem addToQueue_enqueues taskType inputType ownerId inputRef inputText now d :
  faults d = [] → device_wf d →
  let new := mkAIQueue taskType inputType inputRef inputText Pending
                       VUndefined now ownerId in
  let r := addToQueue taskType inputType ownerId inputRef inputText now d in
  r.1 = Ok (aiNext d) ∧
  aiQueue d !! aiNext d = None ∧
  aiNext r.2 = N.succ (aiNext d) ∧
  device_wf r.2 ∧
  (onLine d = false →
   aiQueue r.2 = <[aiNext d := new]> (aiQueue d) ∧ posted r.2 = posted d) ∧
  (onLine d = true →
   pending (aiQueue r.2) = [] ∧
   ∃ out, aiQueue r.2 !! aiNext d = Some (settled out new)).
Proof.
  intros Hf Hwf new r.
  assert (aiQueue d !! aiNext d = None) as Hfresh.
  { destruct (aiQueue d !! aiNext d) eqn:E; [|done].
    apply Hwf in E. simpl in E. lia. }
  set (d1 := mkDevice (<[aiNext d := new]> (aiQueue d)) (N.succ (aiNext d))
                      (onLine d) (faults d) (service d) (posted d)).
  assert (device_wf d1) as Hwf1.
  { unfold device_wf, d1. simpl. apply map_Forall_insert_2; [lia|].
    intros k t Hk. apply Hwf in Hk. simpl in Hk. lia. }
  assert (faults d1 = []) as Hf1 by done.
  assert (r = (Ok (aiNext d),
               if onLine d then (processQueue d1).2 else d1)) as ->.
  { unfold r, addToQueue, db_aiQueue_add. unfold_q.
    rewrite storage_answers by done. simpl. fold new. fold d1.
    by destruct (onLine d). }
  simpl. split_and!; [done|done| | | |].
  - destruct (onLine d); [|done].
    unfold processQueue, db_aiQueue_pending. unfold_q.
    rewrite storage_answers by done. simpl.
    by rewrite process_tasks_answers by done.
  - destruct (onLine d); [|done]. intros k t Hk.
    assert (aiNext (processQueue d1).2 = aiNext d1) as ->.
    { unfold processQueue, db_aiQueue_pending. unfold_q.
      rewrite storage_answers by done. simpl.
      by rewrite process_tasks_answers by done. }
    destruct (processQueue_lookup d1 k) as [Hsame|[_ (t1 & _ & Ht1 & _)]].
    + rewrite Hsame in Hk. by apply Hwf1 in Hk.
    + by apply Hwf1 in Ht1.
  - by intros ->.
  - intros ->. destruct (processQueue_answers d1 Hf1) as (_ & Hp & _ & Hall).
    split; [done|]. apply Hall; [|done]. apply lookup_insert_eq.
Qed.

(** *** Overlapping calls *)

Lemma run_alone_S n c d :
  run_alone (Datatypes.S n) c d = run_alone n (advance c d).1 (advance c d).2.
Proof. simpl. by destruct (advance c d). Qed.

Ltac step_alone E :=
  rewrite run_alone_S; unfold advance; rewrite E; cbn [fst snd next_task].

(** A call on its own, taken request by request, is [processQueue]. *)
Lemma work_alone task rest d :
  ∃ n, run_alone n (Working Marking task rest) d
       = (Over ((process_task task;; process_tasks rest) d).1,
          ((process_task task;; process_tasks rest) d).2).
Proof.
  revert task d. induction rest as [|task' rest IH]; intros task d.
  - unfold process_task. simpl process_tasks. unfold_q.
    destruct (db_aiQueue_update task.1 (set_status Processing) d)
      as [[[]|e1] d1] eqn:E1.
    + destruct (fetch_output (body_of task.2) d1) as [[v|e2] d2] eqn:E2.
      * destruct (db_aiQueue_update task.1 (set_outcome Done v) d2)
          as [[[]|e3] d3] eqn:E3.
        -- exists 3%nat. step_alone E1. step_alone E2. by step_alone E3.
        -- destruct (db_aiQueue_update task.1
                       (set_outcome Failed (VStr "Failed to process AI request"))
                       d3) as [[[]|e4] d4] eqn:E4;
             exists 4%nat; step_alone E1; step_alone E2; step_alone E3;
             by step_alone E4.
      * destruct (db_aiQueue_update task.1
                    (set_outcome Failed (VStr "Failed to process AI request"))
                    d2) as [[[]|e4] d4] eqn:E4;
          exists 3%nat; step_alone E1; step_alone E2; by step_alone E4.
    + destruct (db_aiQueue_update task.1
                  (set_outcome Failed (VStr "Failed to process AI request"))
                  d1) as [[[]|e4] d4] eqn:E4;
        exists 2%nat; step_alone E1; by step_alone E4.
  - unfold process_task.
    change (process_tasks (task' :: rest))
      with (process_task task';; process_tasks rest). unfold_q.
    fold (process_task task').
    destruct (db_aiQueue_update task.1 (set_status Processing) d)
      as [[[]|e1] d1] eqn:E1.
    + destruct (fetch_output (body_of task.2) d1) as [[v|e2] d2] eqn:E2.
      * destruct (db_aiQueue_update task.1 (set_outcome Done v) d2)
          as [[[]|e3] d3] eqn:E3.
        -- destruct (IH task' d3) as [n Hn].
           exists (Datatypes.S (Datatypes.S (Datatypes.S n))).
           step_alone E1. step_alone E2. step_alone E3.
           revert Hn. unfold_q. by intros ->.
        -- destruct (db_aiQueue_update task.1
                       (set_outcome Failed (VStr "Failed to process AI request"))
                       d3) as [[[]|e4] d4] eqn:E4.
           ++ destruct (IH task' d4) as [n Hn].
              exists (Datatypes.S (Datatypes.S (Datatypes.S (Datatypes.S n)))).
              step_alone E1. step_alone E2. step_alone E3. step_alone E4.
              revert Hn. unfold_q. by intros ->.
           ++ exists 4%nat. step_alone E1. step_alone E2. step_alone E3.
              by step_alone E4.
      * destruct (db_aiQueue_update task.1
                    (set_outcome Failed (VStr "Failed to process AI request"))
                    d2) as [[[]|e4] d4] eqn:E4.
        -- destruct (IH task' d4) as [n Hn].
           exists (Datatypes.S (Datatypes.S (Datatypes.S n))).
           step_alone E1. step_alone E2. step_alone E4.
           revert Hn. unfold_q. by intros ->.
        -- exists 3%nat. step_alone E1. step_alone E2. by step_alone E4.
    + destruct (db_aiQueue_update task.1
                  (set_outcome Failed (VStr "Failed to process AI request"))
                  d1) as [[[]|e4] d4] eqn:E4.
      * destruct (IH task' d4) as [n Hn].
        exists (Datatypes.S (Datatypes.S n)).
        step_alone E1. step_alone E4.
        revert Hn. unfold_q. by intros ->.
      * exists 2%nat. step_alone E1. by step_alone E4.
Qed.

Lemma processQueue_alone d :
  ∃ n, run_alone n Reading d = (Over (processQueue d).1, (processQueue d).2).
Proof.
  unfold processQueue. unfold_q.
  destruct (db_aiQueue_pending d) as [[tasks|e] d1] eqn:E.
  - destruct tasks as [|task rest].
    + exists 1%nat. by step_alone E.
    + destruct (work_alone task rest d1) as [n Hn]. exists (Datatypes.S n).
      step_alone E. revert Hn. unfold_q. by intros ->.
  - exists 1%nat. by step_alone E.
Qed.

Lemma to_post_next_task tasks : to_post (next_task tasks) = body_of <$> tasks.*2.
Proof. by destruct tasks. Qed.

Lemma under_way_next_task tasks : under_way (next_task tasks).
Proof. by destruct tasks. Qed.

(** On a store that answers its requests, a request of a call in its
    loop moves at most one body from those it has yet to post to those
    posted. *)
Lemma advance_posts c d :
  faults d = [] → under_way c →
  faults (advance c d).2 = [] ∧ under_way (advance c d).1 ∧
  (posted (advance c d).2 ++ to_post (advance c d).1)%list
    = (posted d ++ to_post c)%list.
Proof.
  intros Hf Hc. destruct c as [|[| |v|] task rest|[[]|e]]; try done; simpl.
  - unfold db_aiQueue_update. rewrite storage_answers by done. by simpl.
  - unfold fetch_output.
    destruct (ai_step (body_of task.2) (service d)) as [[v|] s]; simpl;
      by rewrite <- app_assoc.
  - unfold db_aiQueue_update. rewrite storage_answers by done. simpl.
    rewrite to_post_next_task. split_and!; [done| |done].
    apply under_way_next_task.
  - unfold db_aiQueue_update. rewrite storage_answers by done. simpl.
    rewrite to_post_next_task. split_and!; [done| |done].
    apply under_way_next_task.
Qed.

Lemma run_two_posts schedule d c1 c2 :
  faults d = [] → under_way c1 → under_way c2 →
  faults (run_two schedule (d, c1, c2)).1.1 = [] ∧
  under_way (run_two schedule (d, c1, c2)).1.2 ∧
  under_way (run_two schedule (d, c1, c2)).2 ∧
  (posted (run_two schedule (d, c1, c2)).1.1
     ++ to_post (run_two schedule (d, c1, c2)).1.2
     ++ to_post (run_two schedule (d, c1, c2)).2)%list
    ≡ₚ (posted d ++ to_post c1 ++ to_post c2)%list.
Proof.
  revert d c1 c2. induction schedule as [|t schedule IH]; intros d c1 c2 Hf H1 H2.
  { done. }
  unfold run_two. simpl. fold (run_two schedule).
  destruct t.
  - destruct (advance_posts c1 d Hf H1) as (Hf' & H1' & Hp).
    destruct (advance c1 d) as [c1' d']. simpl in *.
    destruct (IH d' c1' c2 Hf' H1' H2) as (? & ? & ? & Hperm).
    split_and!; [done..|]. rewrite Hperm.
    by rewrite !app_assoc, Hp.
  - destruct (advance_posts c2 d Hf H2) as (Hf' & H2' & Hp).
    destruct (advance c2 d) as [c2' d']. simpl in *.
    destruct (IH d' c1 c2' Hf' H1 H2') as (? & ? & ? & Hperm).
    split_and!; [done..|]. rewrite Hperm.
    rewrite (Permutation_app_comm (to_post c1) (to_post c2')).
    rewrite (Permutation_app_comm (to_post c1) (to_post c2)).
    by rewrite !app_assoc, Hp.
Qed.

Lemma both_read d :
  faults d = [] →
  turn SecondCall (turn FirstCall (d, Reading, Reading))
    = (d, next_task (pending (aiQueue d)), next_task (pending (aiQueue d))).
Proof.
  intros Hf.
  assert (advance Reading d = (next_task (pending (aiQueue d)), d)) as Hread.
  { unfold advance, db_aiQueue_pending. by rewrite storage_answers. }
  cbv [turn]. rewrite Hread. cbv beta iota. by rewrite Hread.
Qed.

(** X24. [processQueue] has no guard against a second call, and its loop
    works from the array it has read without looking at the status of a
    task again. Two calls of which both have read the pending tasks before
    either has made a further request: however the requests of the two calls
    are interleaved from there on, on a store that answers its requests,
    when both calls are over both have resolved and every pending task has
    been posted twice. *)
Theorem overlapping_calls_post_twice d schedule d' outcome1 outcome2 :
  faults d = [] →
  run_two (FirstCall :: SecondCall :: schedule) (d, Reading, Reading)
    = (d', Over outcome1, Over outcome2) →
  outcome1 = Ok tt ∧ outcome2 = Ok tt ∧
  posted d' ≡ₚ (posted d ++ (body_of <$> (pending (aiQueue d)).*2)
                         ++ (body_of <$> (pending (aiQueue d)).*2))%list.
Proof.
  intros Hf Hrun.
  change (run_two schedule
            (turn SecondCall (turn FirstCall (d, Reading, Reading)))
          = (d', Over outcome1, Over outcome2)) in Hrun.
  rewrite both_read in Hrun by done.
  destruct (run_two_posts schedule d (next_task (pending (aiQueue d)))
              (next_task (pending (aiQueue d))) Hf
              (under_way_next_task _) (under_way_next_task _))
    as (_ & H1 & H2 & Hperm).
  rewrite Hrun in H1, H2, Hperm. simpl in *.
  rewrite to_post_next_task, app_nil_r in Hperm.
  destruct outcome1 as [[]|]; [|done]. destruct outcome2 as [[]|]; [|done].
  done.
Qed.

End AIQueueFacts.

(** ** [sanitizeFilename] *)

Section SecurityFacts.

Import Security.

Implicit Types (s : list ascii) (c : ascii).

Lemma drop_dots_sublist s : drop_dots s `sublist_of` s.
Proof.
  induction s as [|c s IH]; simpl; [done|].
  destruct (dot_or_space c); [by apply sublist_cons|done].
Qed.

Lemma drop_dots_head s c : head (drop_dots s) = Some c → dot_or_space c = false.
Proof.
  induction s as [|a s IH]; simpl; [done|].
  destruct (dot_or_space a) eqn:E; [done|]. simpl. by intros [= <-].
Qed.

Lemma drop_dots_drop s : ∃ n, drop_dots s = drop n s.
Proof.
  induction s as [|c s [n IH]]; [by exists 0%nat|]. simpl.
  destruct (dot_or_space c); [by exists (S n) | by exists 0%nat].
Qed.

Lemma strip_sublist s : strip s `sublist_of` s.
Proof.
  unfold strip. destruct (drop_dots_drop (rev (drop_dots s))) as [n ->].
  rewrite List.skipn_rev, List.rev_involutive.
  etrans; [apply sublist_take | apply drop_dots_sublist].
Qed.

Lemma last_rev_head {A} (l : list A) : last (rev l) = head l.
Proof. rewrite List.rev_alt. apply (last_reverse l). Qed.

Lemma strip_last s c : last (strip s) = Some c → dot_or_space c = false.
Proof.
  unfold strip. rewrite last_rev_head. apply drop_dots_head.
Qed.

Lemma lastIndexOf_lt (code : N) s i :
  lastIndexOf code s = Some i → (i < length s)%nat.
Proof.
  revert i. induction s as [|a s IH]; intros i; simpl; [done|].
  destruct (lastIndexOf code s) as [j|].
  - intros [= <-]. specialize (IH j eq_refl). lia.
  - destruct (is_char code a); [|done]. intros [= <-]. simpl. lia.
Qed.

Lemma lastIndexOf_absent (code : N) s :
  (∀ a, a ∈ s → is_char code a = false) → lastIndexOf code s = None.
Proof.
  induction s as [|a s IH]; intros Hs; simpl; [done|].
  rewrite IH by (intros b Hb; apply Hs; by right).
  by rewrite (Hs a) by left.
Qed.

Lemma extension_suffix s : extension s `suffix_of` s.
Proof.
  unfold extension. destruct (lastIndexOf 46 s); [apply suffix_drop|done].
Qed.

Lemma extension_nonempty s : s ≠ [] → extension s ≠ [].
Proof.
  unfold extension. destruct (lastIndexOf 46 s) as [i|] eqn:E; [|done].
  intros _ Hd. apply lastIndexOf_lt in E.
  apply (f_equal length) in Hd. rewrite length_drop in Hd. simpl in Hd. lia.
Qed.

Lemma cleaned_special filename c : c ∈ cleaned filename → special c = false.
Proof.
  unfold cleaned. intros Hc.
  pose proof (elem_of_sublist _ _ _ Hc (strip_sublist _)) as Hc'.
  clear Hc. rename Hc' into Hc.
  apply list_elem_of_fmap in Hc as [a [-> _]].
  by destruct (special a) eqn:E.
Qed.

Lemma last_suffix s1 s2 : s1 ≠ [] → s1 `suffix_of` s2 → last s2 = last s1.
Proof.
  intros Hne [k ->]. rewrite last_app. by destruct (last s1) eqn:E;
    [|apply last_None in E].
Qed.

Lemma word_is_plain c :
  is_word c = true → special c = false ∧ dot_or_space c = false.
Proof. by destruct c as [[] [] [] [] [] [] [] []]. Qed.

Lemma drop_dots_plain s :
  Forall (fun c => is_word c = true) s → drop_dots s = s.
Proof.
  destruct 1 as [|c s Hc _]; simpl; [done|].
  by destruct (word_is_plain c Hc) as [_ ->].
Qed.

Lemma cleaned_plain s : Forall (fun c => is_word c = true) s → cleaned s = s.
Proof.
  intros Hs. unfold cleaned.
  assert ((fun c => if special c then ascii_of_N 45 else c) <$> s = s) as ->.
  { induction Hs as [|c s Hc _ IH]; [done|]. rewrite fmap_cons, IH.
    by destruct (word_is_plain c Hc) as [-> _]. }
  unfold strip. rewrite (drop_dots_plain s) by done.
  rewrite drop_dots_plain; [apply List.rev_involutive|].
  apply Forall_forall. intros c Hc. rewrite Forall_forall in Hs. apply Hs.
  apply list_elem_of_In. apply List.in_rev. by apply list_elem_of_In.
Qed.

Lemma text_chars (name : string) : text (chars name) = name.
Proof. apply String.string_of_list_ascii_of_string. Qed.

(** X25. Whatever name it is given, [sanitizeFilename] returns a name that
    is not empty, contains none of the characters of the first pattern
    (slash, backslash, question mark, percent sign, asterisk, colon, vertical
    bar, double quote, angle brackets) and does not end with a period or
    white space. *)
Theorem sanitizeFilename_is_safe (filename : string) :
  chars (sanitizeFilename filename) ≠ [] ∧
  (∀ c, c ∈ chars (sanitizeFilename filename) → special c = false) ∧
  (∀ c, last (chars (sanitizeFilename filename)) = Some c →
        dot_or_space c = false).
Proof.
  unfold sanitizeFilename. rewrite chars_text. unfold sanitize_name.
  set (safe := cleaned (chars filename)).
  assert (∀ c, c ∈ safe → special c = false) as Hsafe
    by apply cleaned_special.
  assert (∀ c, last safe = Some c → dot_or_space c = false) as Hlast
    by apply strip_last.
  destruct (255 <? length safe)%nat eqn:E.
  - apply Nat.ltb_lt in E.
    assert (safe ≠ []) as Hne by (intros Hs; rewrite Hs in E; simpl in E; lia).
    pose proof (extension_nonempty safe Hne) as Hext.
    pose proof (extension_suffix safe) as Hsuf.
    destruct (take _ safe ++ extension safe)%list as [|a r] eqn:Er.
    { apply app_eq_nil in Er as [_ ?]. done. }
    rewrite <- Er. split_and!.
    + rewrite Er. done.
    + intros c Hc. apply Hsafe. apply elem_of_app in Hc as [Hc|Hc].
      * by apply (elem_of_sublist _ _ _ Hc), sublist_take.
      * destruct Hsuf as [k Hk]. rewrite Hk. apply elem_of_app. by right.
    + intros c Hc. apply Hlast. rewrite (last_suffix _ _ Hext Hsuf).
      rewrite last_app in Hc. destruct (last (extension safe)) eqn:El; [done|].
      by apply last_None in El.
  - destruct safe as [|a r] eqn:Es.
    + split_and!; [done| |by intros c [= <-]].
      intros c Hc. repeat (apply elem_of_cons in Hc as [->|Hc]; [done|]).
      by apply elem_of_nil in Hc.
    + split_and!; [done|apply Hsafe|apply Hlast].
Qed.

(** X26. The limit of 255 characters has no effect on a name without a
    period: a name that is not empty and is made of letters, digits and
    underscores is returned as it is, however long it is. *)
Theorem sanitizeFilename_keeps_plain_names (name : string) :
  name ≠ EmptyString → forallb is_word (chars name) = true →
  sanitizeFilename name = name.
Proof.
  intros Hne Hw.
  assert (Forall (fun c => is_word c = true) (chars name)) as Hs.
  { apply Forall_forall. intros c Hc.
    apply (proj1 (List.forallb_forall _ _) Hw). by apply list_elem_of_In. }
  assert (chars name ≠ []) as Hc.
  { intros Hc. apply Hne. by rewrite <- (text_chars name), Hc. }
  unfold sanitizeFilename, sanitize_name. rewrite cleaned_plain by done.
  assert (extension (chars name) = chars name) as ->.
  { unfold extension. rewrite lastIndexOf_absent; [done|].
    intros a Ha. rewrite Forall_forall in Hs. apply Hs in Ha.
    destruct (word_is_plain a Ha) as [_ Hd]. unfold dot_or_space in Hd.
    by apply orb_false_elim in Hd as [? _]. }
  destruct (255 <? length (chars name))%nat eqn:E.
  - apply Nat.ltb_lt in E.
    replace (255 - length (chars name))%nat with 0%nat by lia. simpl.
    destruct (chars name) eqn:En; [done|]. rewrite <- En. apply text_chars.
  - destruct (chars name) eqn:En; [done|]. rewrite <- En. apply text_chars.
Qed.

(** X27. The length of the result is bounded by the extension, the part
    from the last period on (the whole name when it has no period) of the
    name after the two replacements: with an extension of at most 255
    characters the result has at most 255 characters, and with a longer one
    the result is the extension, without the rest of the name. *)
Theorem sanitizeFilename_length (filename : string) :
  ((length (extension (cleaned (chars filename))) ≤ 255)%nat →
   (String.length (sanitizeFilename filename) ≤ 255)%nat) ∧
  ((255 < length (extension (cleaned (chars filename))))%nat →
   chars (sanitizeFilename filename) = extension (cleaned (chars filename))).
Proof.
  unfold sanitizeFilename. rewrite text_length, chars_text.
  unfold sanitize_name. set (safe := cleaned (chars filename)).
  pose proof (extension_suffix safe) as Hsuf.
  assert (length (extension safe) ≤ length safe)%nat as Hle.
  { destruct Hsuf as [k Hk]. rewrite Hk at 2. rewrite length_app. lia. }
  destruct (255 <? length safe)%nat eqn:E.
  - apply Nat.ltb_lt in E.
    assert (safe ≠ []) as Hne by (intros Hs; rewrite Hs in E; simpl in E; lia).
    pose proof (extension_nonempty safe Hne) as Hext.
    destruct (take _ safe ++ extension safe)%list as [|a r] eqn:Er.
    { apply app_eq_nil in Er as [_ ?]. done. }
    rewrite <- Er. split.
    + intros He. rewrite length_app, length_take. lia.
    + intros He.
      by replace (255 - length (extension safe))%nat with 0%nat by lia.
  - apply Nat.ltb_ge in E. split; [|lia].
    intros _. destruct safe; simpl in *; lia.
Qed.

End SecurityFacts.

(** ** Instances of the further properties *)

Import MoreExamples ActionExamples.

Lemma sixth_pass_evicts_witness :
  qrows (syncQueue (db (passes 5 w_unreachable))) !! 1%N
    = Some (set_attempts 5 (create_a 100)) ∧
  qrows (syncQueue (db (passes 6 w_unreachable))) !! 1%N = None ∧
  attempts_made 1 (passes 6 w_unreachable)
    = (attempts_made 1 w_unreachable + 6)%nat ∧
  entity_tables (db (passes 6 w_unreachable)) = entity_tables (db w_unreachable).
Proof.
  apply (sixth_pass_evicts w_unreachable 1 (create_a 100));
    [done | reflexivity | reflexivity | intros r; reflexivity].
Defined.

Lemma sync_keeps_attempts_bounded_witness :
  ready w_unreachable ∧
  attempts_bounded (syncQueue (db (passes 3 w_unreachable))).
Proof.
  split; [done|].
  apply (sync_keeps_attempts_bounded w_unreachable 3); [done|].
  unfold attempts_bounded. by_evaluation.
Defined.

Lemma sync_changes_only_attempts_witness :
  ∃ e, qrows (syncQueue (db w_unreachable)) !! 1%N = Some e ∧
       tableName (set_attempts 1 (create_a 100)) = tableName e ∧
       operation (set_attempts 1 (create_a 100)) = operation e ∧
       recordId (set_attempts 1 (create_a 100)) = recordId e ∧
       data (set_attempts 1 (create_a 100)) = data e ∧
       timestamp (set_attempts 1 (create_a 100)) = timestamp e.
Proof.
  apply (sync_changes_only_attempts w_unreachable 1 (set_attempts 1 (create_a 100))).
  vm_compute. reflexivity.
Defined.

Lemma accepting_backend_drains_witness :
  qrows (syncQueue (db (sync w_always_up).2)) = ∅ ∧
  call_id <$> pass_calls w_always_up
    = (toArray (syncQueue (db w_always_up))).*1 ∧
  Forall (fun c => call_ok c = true) (pass_calls w_always_up).
Proof.
  apply (accepting_backend_drains w_always_up);
    [intros c r; reflexivity | done].
Defined.

Lemma delete_failure_keeps_entry_witness :
  (sync w_delete_fails).1 = Ok tt ∧
  head (pass_calls w_delete_fails)
    = Some (mkCall 1 (request_of (create_a 100)) true) ∧
  qrows (syncQueue (db (sync w_delete_fails).2)) !! 1%N
    = settle_row (create_a 100) false (Some (create_a 100)).
Proof.
  apply (delete_failure_keeps_entry w_delete_fails 1 (create_a 100)
           [(2%N, update_b 200)]);
    [reflexivity | reflexivity | reflexivity | vm_compute; reflexivity
    | reflexivity].
Defined.

Lemma run_keeps_outbox_keys_witness :
  queue_wf (syncQueue (db (world st_one))) ∧
  queue_wf (syncQueue (db (world
    (mkEngine (addToQueue "notes" OpUpdate "n1" (Some note_b) 200 w_one).2 [] 0)))) ∧
  (qnext (syncQueue (db (world st_one))) ≤
   qnext (syncQueue (db (world
     (mkEngine (addToQueue "notes" OpUpdate "n1" (Some note_b) 200 w_one).2 [] 0)))))%N ∧
  qrows (syncQueue (db (world
     (mkEngine (addToQueue "notes" OpUpdate "n1" (Some note_b) 200 w_one).2 [] 0))))
    !! qnext (syncQueue (db (world
     (mkEngine (addToQueue "notes" OpUpdate "n1" (Some note_b) 200 w_one).2 [] 0))))
    = None.
Proof.
  assert (queue_wf (syncQueue (db (world st_one)))) as Hwf
    by (unfold queue_wf; by_evaluation).
  split; [exact Hwf|].
  apply (run_keeps_outbox_keys st_one _
           [EvAddToQueue "notes" OpUpdate "n1" (Some note_b) 200; EvAdded;
            EvResume 0; EvResume 0; EvResume 0]);
    [vm_compute; reflexivity | exact Hwf].
Defined.

Lemma offline_mutations_converge_witness :
  call_request <$>
    drop (length (trace w_fresh_offline))
      (trace (handleOnline
        (enqueue_all "notes" "n1"
           [mkMutation OpCreate (Some note_a) 100;
            mkMutation OpUpdate (Some note_b) 200] w_fresh_offline).2).2)
    = (fun m' => request_of (entry_of "notes" "n1" m'))
        <$> [mkMutation OpCreate (Some note_a) 100;
             mkMutation OpUpdate (Some note_b) 200] ∧
  stored (remote (handleOnline
    (enqueue_all "notes" "n1"
       [mkMutation OpCreate (Some note_a) 100;
        mkMutation OpUpdate (Some note_b) 200] w_fresh_offline).2).2)
    !! ("notes", "n1")
    = final_state (entry_of "notes" "n1" (mkMutation OpUpdate (Some note_b) 200)).
Proof.
  apply (offline_mutations_converge w_fresh_offline "notes" "n1"
           [mkMutation OpCreate (Some note_a) 100]
           (mkMutation OpUpdate (Some note_b) 200));
    [reflexivity | reflexivity | reflexivity | reflexivity | | reflexivity].
  simpl. repeat constructor; lia.
Defined.

Lemma createExpense_stores_valid_row_witness :
  ∃ row,
    rows (expenses (db (createExpense sanitizeInput expense_params "u1" 7 7 w_fresh).2))
      = <[KNum (keygen (expenses (db w_fresh))) := row]>
          (rows (expenses (db w_fresh))) ∧
    keygen (expenses (db (createExpense sanitizeInput expense_params "u1" 7 7 w_fresh).2))
      = N.succ (keygen (expenses (db w_fresh))) ∧
    prop row "id" = num_of_N (keygen (expenses (db w_fresh))) ∧
    prop row "owner_id" = VStr "u1" ∧
    prop row "synced" = VBool false ∧
    prop row "date" = VDate 7 ∧
    prop row "createdAt" = VDate 7 ∧
    prop row "amount" = prop expense_params "amount" ∧
    (prop expense_params "amount" = VNaN ∨
     ∃ q, prop expense_params "amount" = VNum q ∧
          QArith_base.Qlt (QArith_base.Qmake 0 1) q ∧
          QArith_base.Qle q (QArith_base.Qmake 999999 1)) ∧
    prop row "category" = VStr (category_of (prop expense_params "category")) ∧
    category_of (prop expense_params "category") ∈ VALID_CATEGORIES ∧
    (∀ c, prop expense_params "category" = VStr c → c ∈ VALID_CATEGORIES →
          category_of (prop expense_params "category") = c) ∧
    prop row "description" =
      (if truthy (prop expense_params "description")
       then VStr (sanitizeInput (prop expense_params "description"))
       else VUndefined) ∧
    (String.length (sanitizeInput (prop expense_params "description")) ≤ 500)%nat.
Proof.
  apply (createExpense_stores_valid_row w_fresh expense_params "u1" 7 7).
  vm_compute. reflexivity.
Defined.

Lemma createExpense_writes_only_on_success_witness :
  table_wf (expenses (db w_fresh)) ∧
  table_wf (expenses (db (createExpense sanitizeInput expense_params "u1" 7 7 w_fresh).2)) ∧
  ∀ k o, rows (expenses (db w_fresh)) !! k = Some o →
    rows (expenses (db (createExpense sanitizeInput expense_params "u1" 7 7 w_fresh).2))
      !! k = Some o.
Proof.
  assert (table_wf (expenses (db w_fresh))) as Hwf
    by (unfold table_wf; simpl; apply map_Forall_empty).
  split; [exact Hwf|].
  apply (createExpense_writes_only_on_success w_fresh expense_params "u1" 7 7).
  exact Hwf.
Defined.

Lemma expenses_table_wf : table_wf (expenses (db w_expenses)).
Proof.
  intros k o Hk. simpl in Hk.
  repeat (apply lookup_insert_Some in Hk as [[<- <-]|[_ Hk]]; [by split|]).
  done.
Qed.

Lemma deleteExpense_spares_other_owners_witness :
  ∃ o w',
    deleteExpense owned_rows (by_id 1) "u1" w_expenses = (Ok o, w') ∧
    (∀ k row, rows (expenses (db w_expenses)) !! k = Some row →
       owner_differs row "u1" = true →
       rows (expenses (db w')) !! k = Some row) ∧
    (∀ k row, rows (expenses (db w')) !! k = Some row →
       rows (expenses (db w_expenses)) !! k = Some row) ∧
    db w' = set_expenses (expenses (db w')) (db w_expenses) ∧
    trace w' = trace w_expenses ∧ remote w' = remote w_expenses.
Proof.
  apply (deleteExpense_spares_other_owners owned_rows w_expenses (by_id 1) "u1");
    [apply owned_rows_owned | apply expenses_table_wf].
Defined.

Lemma deleteExpense_success_deletes_own_witness :
  ∃ k row,
    rows (expenses (db w_expenses)) !! k = Some row ∧
    owner_differs row "u1" = false ∧
    (truthy (prop (by_id 1) "expenseId") = true →
     key_of_value (prop (by_id 1) "expenseId") = ValidKey k) ∧
    rows (expenses (db (deleteExpense owned_rows (by_id 1) "u1" w_expenses).2)) =
      delete k (rows (expenses (db w_expenses))).
Proof.
  apply (deleteExpense_success_deletes_own owned_rows w_expenses (by_id 1) "u1");
    [apply owned_rows_owned | apply expenses_table_wf | vm_compute; reflexivity].
Defined.

Lemma deleteExpense_fails_after_deleting_witness :
  (deleteExpense owned_rows (by_id 3) "u1" w_expenses).1 = Ok (failed ErrThrown) ∧
  rows (expenses (db (deleteExpense owned_rows (by_id 3) "u1" w_expenses).2))
    !! KNum 3 = None.
Proof.
  apply (deleteExpense_fails_after_deleting owned_rows w_expenses (by_id 3) "u1"
           (KNum 3) (expense_of 3 "u1" (VStr "12")));
    [reflexivity | apply expenses_table_wf | reflexivity | reflexivity
    | vm_compute; reflexivity | reflexivity | reflexivity].
Defined.

Lemma validateAction_accepts_witness :
  action_type create_expense ∈ validTypes ∧
  entity create_expense ∈ validEntities ∧
  userId create_expense ≠ EmptyString ∧
  (action_type create_expense = "create" →
   (entity create_expense = "task" ∨ entity create_expense = "note" →
    ∃ s, prop (parameters create_expense) "title" = VStr s ∧ s ≠ EmptyString ∧
         SAFE_STRING_PATTERN s = true) ∧
   (entity create_expense = "habit" →
    ∃ s, prop (parameters create_expense) "name" = VStr s ∧ s ≠ EmptyString ∧
         SAFE_STRING_PATTERN s = true) ∧
   (entity create_expense = "expense" →
    prop (parameters create_expense) "amount" = VNaN ∨
    ∃ q, prop (parameters create_expense) "amount" = VNum q ∧
         QArith_base.Qlt (QArith_base.Qmake 0 1) q ∧
         QArith_base.Qle q MAX_NUMBER_VALUE)).
Proof.
  apply (validateAction_accepts no_render create_expense).
  vm_compute. reflexivity.
Defined.

Lemma validateAction_rejects_index_zero_witness :
  validateAction no_render delete_first_task
    = rejected "Task identifier required".
Proof.
  apply (validateAction_rejects_index_zero no_render delete_first_task);
    [reflexivity | by right | done | reflexivity | reflexivity | reflexivity].
Defined.

Lemma validated_expense_is_created_witness :
  ∃ o w',
    executeExpenseAction owned_rows not_modelled not_modelled
      create_expense 7 7 w_expenses = (Ok o, w') ∧
    (faults w_expenses = [] → ok o = true) ∧
    (ok o = false →
     problem o = Some (ErrCreate (Caught StorageError)) ∧ db w' = db w_expenses) ∧
    (ok o = true →
     ∃ row,
       rows (expenses (db w')) !! KNum (keygen (expenses (db w_expenses))) = Some row ∧
       prop row "owner_id" = VStr (userId create_expense) ∧
       prop row "amount" = prop (parameters create_expense) "amount").
Proof.
  apply (validated_expense_is_created no_render owned_rows not_modelled
           not_modelled create_expense 7 7 w_expenses);
    [vm_compute; reflexivity | reflexivity | reflexivity].
Defined.

(** [NaN] passes the two tests of the amount, which are both false of it:
    an action with that amount is accepted by [validateAction] and the
    expense is stored by [createExpense]. The infinities do not pass. *)
Example NaN_amount_is_stored :
  valid (validateAction no_render
           (mkAIAction "create" "expense" (<["amount" := VNaN]> ∅) false "u1" 0))
    = true ∧
  succeeded (createExpense sanitizeInput (<["amount" := VNaN]> ∅) "u1" 7 7
               w_fresh).1 = true ∧
  (fun o => prop o "amount") <$>
    rows (expenses (db (createExpense sanitizeInput (<["amount" := VNaN]> ∅)
                          "u1" 7 7 w_fresh).2)) !! KNum 1
    = Some VNaN ∧
  succeeded (createExpense sanitizeInput (<["amount" := VInfinity false]> ∅)
               "u1" 7 7 w_fresh).1 = false ∧
  succeeded (createExpense sanitizeInput (<["amount" := VInfinity true]> ∅)
               "u1" 7 7 w_fresh).1 = false.
Proof. split_and!; vm_compute; reflexivity. Qed.

Section AIQueueInstances.

Import AIQueueManager AIQueueExamples.


Lemma processQueue_settles_pending_witness :
  (processQueue d_online).1 = Ok tt ∧
  pending (aiQueue (processQueue d_online).2) = [] ∧
  posted (processQueue d_online).2
    = (posted d_online ++ (body_of <$> (pending (aiQueue d_online)).*2))%list ∧
  service (processQueue d_online).2
    = service_after (pending (aiQueue d_online)) (service d_online) ∧
  (∀ before k t after,
     pending (aiQueue d_online) = (before ++ (k, t) :: after)%list →
     aiQueue (processQueue d_online).2 !! k =
       Some (match (ai_step (body_of t)
                      (service_after before (service d_online))).1 with
             | Some output => set_outcome Done output t
             | None =>
                 set_outcome Failed (VStr "Failed to process AI request") t
             end)) ∧
  (∀ k t, aiQueue d_online !! k = Some t → status t ≠ Pending →
          aiQueue (processQueue d_online).2 !! k = Some t).
Proof. apply (processQueue_settles_pending d_online). reflexivity. Defined.

Lemma processQueue_loses_answer_witness :
  (processQueue d_rejecting).1 = Ok tt ∧
  aiQueue (processQueue d_rejecting).2 !! 2%N = Some (settled None task_a) ∧
  posted (processQueue d_rejecting).2
    = (posted d_rejecting ++ body_of task_a ::
         (body_of <$> [(3%N, task_b)].*2))%list.
Proof.
  apply (processQueue_loses_answer d_rejecting 2 task_a [(3%N, task_b)]
           (VStr "ok"));
    [reflexivity | vm_compute; reflexivity | reflexivity].
Defined.

Lemma processQueue_strands_task_witness :
  (processQueue d_down).1 = Throw StorageError ∧
  (∀ n, aiQueue (processed n (processQueue d_down).2) !! 2%N
        = Some (set_status Processing task_a)) ∧
  (∀ k', k' ≠ 2%N →
     aiQueue (processQueue d_down).2 !! k' = aiQueue d_down !! k').
Proof.
  apply (processQueue_strands_task d_down 2 task_a [(3%N, task_b)]);
    [reflexivity | vm_compute; reflexivity | reflexivity].
Defined.

Lemma addToQueue_enqueues_witness :
  (addToQueue Summary Note "u1" (Some "n2") None 300 d_online).1
    = Ok (aiNext d_online) ∧
  aiQueue d_online !! aiNext d_online = None ∧
  aiNext (addToQueue Summary Note "u1" (Some "n2") None 300 d_online).2
    = N.succ (aiNext d_online) ∧
  device_wf (addToQueue Summary Note "u1" (Some "n2") None 300 d_online).2 ∧
  (onLine d_online = false →
   aiQueue (addToQueue Summary Note "u1" (Some "n2") None 300 d_online).2
     = <[aiNext d_online :=
           mkAIQueue Summary Note (Some "n2") None Pending VUndefined 300 "u1"]>
         (aiQueue d_online) ∧
   posted (addToQueue Summary Note "u1" (Some "n2") None 300 d_online).2
     = posted d_online) ∧
  (onLine d_online = true →
   pending
     (aiQueue (addToQueue Summary Note "u1" (Some "n2") None 300 d_online).2)
     = [] ∧
   ∃ out,
     aiQueue (addToQueue Summary Note "u1" (Some "n2") None 300 d_online).2
       !! aiNext d_online
     = Some (settled out
               (mkAIQueue Summary Note (Some "n2") None Pending VUndefined
                          300 "u1"))).
Proof.
  apply (addToQueue_enqueues Summary Note "u1" (Some "n2") None 300 d_online);
    [reflexivity | unfold device_wf; by_evaluation].
Defined.

Lemma overlapping_calls_post_twice_witness :
  Ok tt = Ok tt ∧ Ok tt = Ok tt ∧
  posted (run_two in_turns (d_online, Reading, Reading)).1.1
    ≡ₚ (posted d_online ++ (body_of <$> (pending (aiQueue d_online)).*2)
          ++ (body_of <$> (pending (aiQueue d_online)).*2))%list.
Proof.
  apply (overlapping_calls_post_twice d_online (tail (tail in_turns))
           (run_two in_turns (d_online, Reading, Reading)).1.1
           (Ok tt) (Ok tt));
    [reflexivity | vm_compute; reflexivity].
Defined.

(** The two calls taking turns, request by request: both post the first
    pending task before either comes to the second. *)
Example calls_in_turns :
  posted (run_two in_turns (d_online, Reading, Reading)).1.1
    = [body_of task_a; body_of task_a; body_of task_b; body_of task_b] ∧
  aiQueue (run_two in_turns (d_online, Reading, Reading)).1.1
    = aiQueue (processQueue d_online).2.
Proof. split; vm_compute; reflexivity. Qed.

End AIQueueInstances.

Section SecurityInstances.

Import Security.

Lemma sanitizeFilename_keeps_plain_names_witness :
  sanitizeFilename (text (replicate 300 (ascii_of_N 97)))
    = text (replicate 300 (ascii_of_N 97)).
Proof.
  apply (sanitizeFilename_keeps_plain_names (text (replicate 300 (ascii_of_N 97))));
    [discriminate | vm_compute; reflexivity].
Defined.

End SecurityInstances.

